(** * Word-level language identification

    A shallow embedding of [LanguageModel.py] (lexicon and character n-gram
    Markov model) and [LanguageIdentifier.py] (score combiner, independent and
    Viterbi decoders), followed by the properties of the specification that
    were checked against it.

    Conventions of the embedding:
    - Python exceptions are the constructors of [exn]; a computation that may
      raise returns a [result].
    - A Python [dict] is an insertion-ordered association list ([dict V]):
      [keys()] iterates in insertion order, and assigning to an existing key
      keeps its position.  The dicts keyed by language ([scores], [V[t]],
      [S[t]], [trans_p], [self.model]) are dicts as well, keyed by the codes
      ["ga"] and ["en"].
    - Floating-point values are the carrier [num] of the interface [PyFloat];
      [math.log], [math.exp] and [/] are partial.  Every definition is generic
      in that interface, so a theorem stated for every [PyFloat] holds
      whatever the arithmetic does, rounding included.  Three arithmetics
      interpret it: [Binary64] (the IEEE 754 numbers of Python's [float]),
      [RFloat] (the reals) and [QFloat] (the rationals, to run examples).
    - Text is ASCII: a character is a byte ([ascii]), the length of a word
      is its number of bytes, and [lower] folds [A]..[Z].  On ASCII text
      this is [len] and [str.lower]; on other text Python counts code points
      and folds more letters, so a statement that depends on the length or
      on the lower-case form of a word is a statement about ASCII words.
    - A lexicon file is the list of its parsed lines,
      [(fields[0], int(fields[1]))]; a persisted model is the tuple that
      [dump] writes.
    - A loop body is a function of the loop state, folded over the iterated
      list ([fold_left], or [foldM] when the body may raise). *)

From Stdlib Require Import String Ascii List ZArith QArith Bool Arith Lia.
From Stdlib Require Import Reals Lra.
From Stdlib Require PrimFloat SpecFloat FloatOps.
Import ListNotations.

Local Open Scope nat_scope.
Local Open Scope list_scope.

(** ** Python prelude: exceptions, the error monad, dicts, lists, strings *)

Inductive exn : Type :=
| KeyError
| IndexError
| ValueError
| ZeroDivisionError
| OverflowError.

Inductive result (A : Type) : Type :=
| Ok (a : A)
| Raise (e : exn).

Arguments Ok {A} a.
Arguments Raise {A} e.

Definition bind {A B : Type} (c : result A) (k : A -> result B) : result B :=
  match c with
  | Ok a => k a
  | Raise e => Raise e
  end.

Declare Scope py_scope.
Delimit Scope py_scope with py.
Notation "x <- c ;; k" := (bind c (fun x => k))
  (at level 61, c at next level, right associativity) : py_scope.
Notation "' p <- c ;; k" := (bind c (fun x => let p := x in k))
  (at level 61, p pattern, c at next level, right associativity) : py_scope.
Local Open Scope py_scope.

(** [lift e o]: the partial operation [o] raises [e] where it is undefined. *)
Definition lift {A : Type} (e : exn) (o : option A) : result A :=
  match o with
  | Some a => Ok a
  | None => Raise e
  end.

(** A [for] loop whose body may raise: left-to-right, stops at the first
    exception. *)
Fixpoint foldM {S A : Type} (f : S -> A -> result S) (l : list A) (s : S)
  : result S :=
  match l with
  | [] => Ok s
  | x :: r => s' <- f s x ;; foldM f r s'
  end.

(** A generator expression consumed to the end. *)
Fixpoint mapM {A B : Type} (f : A -> result B) (l : list A) : result (list B) :=
  match l with
  | [] => Ok []
  | x :: r => y <- f x ;; ys <- mapM f r ;; Ok (y :: ys)
  end.

Abbreviation dict V := (list (string * V)).

(** [d.get(k)] as an option. *)
Fixpoint get {V : Type} (d : dict V) (k : string) : option V :=
  match d with
  | [] => None
  | (k', v) :: r => if String.eqb k' k then Some v else get r k
  end.

(** [d[k] = v]. *)
Fixpoint set {V : Type} (d : dict V) (k : string) (v : V) : dict V :=
  match d with
  | [] => [(k, v)]
  | (k', v') :: r =>
      if String.eqb k' k then (k', v) :: r else (k', v') :: set r k v
  end.

(** [k in d.keys()]. *)
Definition mem {V : Type} (k : string) (d : dict V) : bool :=
  match get d k with
  | Some _ => true
  | None => false
  end.

(** [d.get(k, default)]. *)
Definition get_default {V : Type} (d : dict V) (k : string) (default : V) : V :=
  match get d k with
  | Some v => v
  | None => default
  end.

(** [d[k]]. *)
Definition getitem {V : Type} (d : dict V) (k : string) : result V :=
  lift KeyError (get d k).

Definition keys {V : Type} (d : dict V) : list string := map fst d.

(** [l[i]] for [0 <= i]. *)
Definition index {A : Type} (l : list A) (i : nat) : result A :=
  lift IndexError (nth_error l i).

(** [l[-1]]. *)
Definition index_last {A : Type} (l : list A) : result A :=
  match l with
  | [] => Raise IndexError
  | _ :: _ => index l (length l - 1)
  end.

Fixpoint update {A : Type} (l : list A) (i : nat) (x : A) : list A :=
  match l, i with
  | [], _ => []
  | _ :: r, O => x :: r
  | y :: r, S j => y :: update r j x
  end.

(** [l[i] = x] for [0 <= i]. *)
Definition setitem {A : Type} (l : list A) (i : nat) (x : A) : result (list A) :=
  if i <? length l then Ok (update l i x) else Raise IndexError.

(** [l[-1] = x]. *)
Definition setitem_last {A : Type} (l : list A) (x : A) : result (list A) :=
  match l with
  | [] => Raise IndexError
  | _ :: _ => setitem l (length l - 1) x
  end.

Definition lower_ascii (c : ascii) : ascii :=
  let k := nat_of_ascii c in
  if (65 <=? k) && (k <=? 90) then ascii_of_nat (k + 32) else c.

(** [s.lower()] on ASCII text: the letters [A]..[Z] are folded, every other
    byte is kept. *)
Fixpoint lower (s : string) : string :=
  match s with
  | EmptyString => EmptyString
  | String c r => String (lower_ascii c) (lower r)
  end.

(** [set(...).update(list(token))], keeping only what [len] needs. *)
Fixpoint charset_update (cs : list ascii) (token : string) : list ascii :=
  match token with
  | EmptyString => cs
  | String c r =>
      charset_update
        (if existsb (Ascii.eqb c) cs then cs else cs ++ [c]) r
  end.

(** Values stored in the list that [identify_viterbi] returns: the integer
    placeholder of [[0] * len(tokens)] or a language code. *)
Inductive pyval : Type :=
| PyInt (z : Z)
| PyStr (s : string).

(** ** The arithmetic interface *)

Class PyFloat : Type := {
  num : Type;
  of_Z : Z -> num;                 (* an [int] used as a number, [float(i)] *)
  of_Q : Q -> num;                 (* a decimal literal *)
  add : num -> num -> num;
  sub : num -> num -> num;
  mul : num -> num -> num;
  div : num -> num -> option num;  (* [None]: ZeroDivisionError *)
  log : num -> option num;         (* [None]: ValueError (math domain error) *)
  exp : num -> option num;         (* [None]: OverflowError *)
  eqb : num -> num -> bool;        (* [==] *)
  ltb : num -> num -> bool;        (* [<] *)
  leb : num -> num -> bool         (* [<=] *)
}.

(** Order and addition as rounding arithmetic has them: [<=] is a total
    preorder, [<] is its strict part, adding a common term keeps [<=] (it
    may turn [<] into equality, since two sums can round to the same
    number), and [1 - 0.5] is [0.5].  Binary64 satisfies these laws on all
    numbers other than NaN, and so do the reals and the rationals. *)
Class RoundedOrder (N : PyFloat) : Prop := {
  leb_total : forall a b : num, leb a b = true \/ leb b a = true;
  leb_trans : forall a b c : num,
      leb a b = true -> leb b c = true -> leb a c = true;
  ltb_leb : forall a b : num, ltb a b = negb (leb b a);
  add_leb_l : forall c a b : num,
      leb a b = true -> leb (add c a) (add c b) = true;
  add_leb_r : forall c a b : num,
      leb a b = true -> leb (add a c) (add b c) = true;
  half_complement : sub (of_Z 1) (of_Q (1 # 2)) = of_Q (1 # 2)
}.

Section Math.

Context {N : PyFloat}.

Definition fdiv (a b : num) : result num := lift ZeroDivisionError (div a b).
Definition math_log (a : num) : result num := lift ValueError (log a).
Definition math_exp (a : num) : result num := lift OverflowError (exp a).

End Math.

(** ** LanguageModel.py *)

Module LanguageModel.
Section WithFloat.

Context {N : PyFloat}.

Definition START : string := "<".
Definition END : string := ">".
Definition UNKNOWN : string := "UNKNOWN".
Definition OOV : string := "###".
Definition CASE_SENSITIVITY_THRESHOLD : nat := 4.

Definition lexicon_file : Type := list (string * Z).

Record t : Type := {
  language : string;
  n : nat;
  lex_file : lexicon_file;
  lex_weight : num;
  char_weight : num;
  start_prob : dict num;
  trans_prob : dict (dict num);
  lex : dict num
}.

Definition word2ngrams (word : string) (n : nat) : list string :=
  let word := (START ++ word ++ END)%string in
  let word := if 4 <=? n then (START ++ word ++ END)%string else word in
  map (fun i => substring i n word) (seq 0 (String.length word + 1 - n)).

Definition load_lexicon_line (lamb : num) (st : dict num * Z) (line : string * Z)
  : dict num * Z :=
  let '(lex, total) := st in
  let '(field0, field1) := line in
  let word :=
    if CASE_SENSITIVITY_THRESHOLD <=? String.length field0
    then lower field0 else field0 in
  (set lex word (add (get_default lex word lamb) (of_Z field1)),
   (total + field1)%Z).

(** The loop body [d[key] = math.log(count / denominator)], at the entry
    [kv = (key, count)] of the dict of counts being iterated. *)
Definition set_log_prob (denominator : num) (d : dict num) (kv : string * num)
  : result (dict num) :=
  q <- fdiv (snd kv) denominator ;;
  p <- math_log q ;;
  Ok (set d (fst kv) p).

Definition load_lexicon (lex_file : lexicon_file) : result (dict num) :=
  let lamb := of_Q (1 # 10) in
  let '(lex, total) := fold_left (load_lexicon_line lamb) lex_file ([], 0%Z) in
  let lex := set lex OOV lamb in
  let denominator :=
    add (of_Z total) (mul lamb (of_Z (Z.of_nat (length lex)))) in
  foldM (set_log_prob denominator) lex lex.

(** [LanguageModel.__init__]. *)
Definition init (language : string) (n : nat)
    (lex_file : lexicon_file) (lex_weight : num) : result t :=
  lex <- load_lexicon lex_file ;;
  Ok {| language := language; n := n; lex_file := lex_file;
        lex_weight := lex_weight; char_weight := sub (of_Z 1) lex_weight;
        start_prob := []; trans_prob := []; lex := lex |}.

(** The persisted form written by [dump] and read by [load]. *)
Definition model_file : Type := (string * nat * dict num * dict (dict num))%type.

Definition load (mf : model_file) (lex_file' : lexicon_file) (lex_weight' : num)
    : result t :=
  let '(language', n', start_prob', trans_prob') := mf in
  model <- init language' n' lex_file' lex_weight' ;;
  Ok {| language := language model; n := n model;
        lex_file := lex_file model;
        lex_weight := lex_weight model;
        char_weight := char_weight model;
        start_prob := start_prob'; trans_prob := trans_prob';
        lex := lex model |}.

(** The value [dump] serialises. *)
Definition dump (self : t) : model_file :=
  (self.(language), self.(n), self.(start_prob), self.(trans_prob)).

Definition lex_score (self : t) (word : string) : result num :=
  let word :=
    if CASE_SENSITIVITY_THRESHOLD <=? String.length word
    then lower word else word in
  oov <- getitem self.(lex) OOV ;;
  Ok (get_default self.(lex) word oov).

(** Which table entry a lookup of [char_score] resolved to; the source
    records the same distinction in its debug string ([XX] and [X]). *)
Inductive lookup : Type :=
| Direct           (* start_prob[g] or trans_prob[g][g'] *)
| StartUnknown     (* start_prob[UNKNOWN] *)
| SourceUnknown    (* trans_prob[g][UNKNOWN] *)
| GlobalUnknown.   (* trans_prob[UNKNOWN][UNKNOWN] *)

(** The body of [for i in range(len(ngrams)-1)], at the pair
    [(g, g') = (ngrams[i], ngrams[i+1])]. *)
Definition char_score_step (trans_prob : dict (dict num))
    (acc : num * list lookup) (g g' : string) : result (num * list lookup) :=
  let '(logp, dbg) := acc in
  if negb (mem g trans_prob) then
    u <- getitem trans_prob UNKNOWN ;;
    p <- getitem u UNKNOWN ;;
    Ok (add logp p, dbg ++ [GlobalUnknown])
  else
    row <- getitem trans_prob g ;;
    if negb (mem g' row) then
      p <- getitem row UNKNOWN ;;
      Ok (add logp p, dbg ++ [SourceUnknown])
    else
      p <- getitem row g' ;;
      Ok (add logp p, dbg ++ [Direct]).

(** The loop itself, over the consecutive pairs of [ngrams]. *)
Fixpoint char_score_trans (trans_prob : dict (dict num)) (ngrams : list string)
    (acc : num * list lookup) : result (num * list lookup) :=
  match ngrams with
  | g :: ((g' :: _) as rest) =>
      acc' <- char_score_step trans_prob acc g g' ;;
      char_score_trans trans_prob rest acc'
  | _ => Ok acc
  end.

Definition char_score_debug (self : t) (word : string)
  : result (num * list lookup) :=
  let ngrams := word2ngrams word self.(n) in
  let logp := of_Z 0 in
  g0 <- index ngrams 0 ;;
  acc <-
    (if negb (mem g0 self.(start_prob)) then
       p <- getitem self.(start_prob) UNKNOWN ;;
       Ok (add logp p, [StartUnknown])
     else
       p <- getitem self.(start_prob) g0 ;;
       Ok (add logp p, [Direct])) ;;
  char_score_trans self.(trans_prob) ngrams acc.

Definition char_score (self : t) (word : string) : result num :=
  r <- char_score_debug self word ;; Ok (fst r).

(** The counters of [train]. *)
Record counts : Type := {
  token_total : Z;
  start_count : dict num;
  trans_count : dict (dict num);
  trans_total : dict Z;
  charset : list ascii
}.

Definition counts_init : counts :=
  {| token_total := 0; start_count := []; trans_count := [];
     trans_total := []; charset := [] |}.

(** One iteration of [for i in range(len(token) - n)]. *)
Definition count_transition (lamb : num) (n : nat) (token : string)
    (token_count : Z) (c : counts) (i : nat) : counts :=
  let g := substring i n token in
  let g' := substring (i + 1) n token in
  let row := get_default c.(trans_count) g [] in
  {| token_total := c.(token_total);
     start_count := c.(start_count);
     trans_count :=
       set c.(trans_count) g
           (set row g' (add (get_default row g' lamb) (of_Z token_count)));
     trans_total :=
       set c.(trans_total) g
           (get_default c.(trans_total) g 0 + token_count)%Z;
     charset := c.(charset) |}.

(** One iteration of [for line in f]. *)
Definition count_line (lamb : num) (n : nat) (c : counts) (line : string * Z)
  : counts :=
  let '(field0, field1) := line in
  let token := (START ++ field0 ++ END)%string in
  let token_count := field1 in
  let c1 :=
    {| token_total := (c.(token_total) + token_count)%Z;
       start_count :=
         set c.(start_count) (substring 0 n token)
             (add (get_default c.(start_count) (substring 0 n token) lamb)
                  (of_Z token_count));
       trans_count := c.(trans_count);
       trans_total := c.(trans_total);
       charset := charset_update c.(charset) token |} in
  fold_left (count_transition lamb n token token_count)
            (seq 0 (String.length token - n)) c1.

(** The row [trans_prob[ngram]] built by the last loop of [train]. *)
Definition train_row (lamb denominator : num) (nexts : dict num)
  : result (dict num) :=
  row <- foldM (set_log_prob denominator) nexts [] ;;
  q <- fdiv lamb denominator ;;
  u <- math_log q ;;
  Ok (set row UNKNOWN u).

(** One iteration of [for ngram in trans_count.keys()], at the entry
    [kv = (ngram, trans_count[ngram])]. *)
Definition train_transitions (lamb : num) (trans_total : dict Z)
    (trans_prob : dict (dict num)) (kv : string * dict num)
  : result (dict (dict num)) :=
  let '(ngram, nexts) := kv in
  total <- getitem trans_total ngram ;;
  let denominator :=
    add (of_Z total) (mul lamb (of_Z (Z.of_nat (length nexts) + 1))) in
  row <- train_row lamb denominator nexts ;;
  Ok (set trans_prob ngram row).

Definition train (self : t) (smooth_lambda : num)
    : result t :=
  let lamb := smooth_lambda in
  let c := fold_left (count_line lamb self.(n)) self.(lex_file) counts_init in
  (* Smoothing for unseen ngrams *)
  q <- fdiv (of_Z 1) (of_Z (Z.of_nat (length c.(charset)) + 1)) ;;
  u <- math_log q ;;
  let trans_prob0 := set self.(trans_prob) UNKNOWN (set [] UNKNOWN u) in
  (* Calculate starting probabilities *)
  let denominator :=
    add (of_Z c.(token_total))
        (mul lamb (of_Z (Z.of_nat (length c.(start_count)) + 1))) in
  start_prob1 <-
    foldM (set_log_prob denominator) c.(start_count) self.(start_prob) ;;
  q <- fdiv lamb denominator ;;
  u <- math_log q ;;
  let start_prob2 := set start_prob1 UNKNOWN u in
  (* Calculate transition probabilities *)
  trans_prob1 <-
    foldM (train_transitions lamb c.(trans_total)) c.(trans_count)
          trans_prob0 ;;
  Ok {| language := self.(language); n := self.(n);
        lex_file := self.(lex_file); lex_weight := self.(lex_weight);
        char_weight := self.(char_weight);
        start_prob := start_prob2; trans_prob := trans_prob1;
        lex := self.(lex) |}.

End WithFloat.
End LanguageModel.

(** ** LanguageIdentifier.py *)

Module LanguageIdentifier.
Section WithFloat.

Context {N : PyFloat}.

Definition GA : string := "ga".
Definition EN : string := "en".

(** This string should be used for tokens that don't need a language
    assignment, e.g. punctuation. *)
Definition IGNORE : string := "##IGNORE##".

Record t : Type := {
  lex_weight : num;
  model : dict LanguageModel.t
}.

(** [LanguageIdentifier.__init__]. *)
Definition init (model_file_ga model_file_en : LanguageModel.model_file)
    (lex_file_ga lex_file_en : LanguageModel.lexicon_file) (lex_weight : num)
  : result t :=
  ga <- LanguageModel.load model_file_ga lex_file_ga lex_weight ;;
  en <- LanguageModel.load model_file_en lex_file_en lex_weight ;;
  Ok {| lex_weight := lex_weight; model := set (set [] GA ga) EN en |}.

(** [math.exp(self.model[lang].lex_score(word))]. *)
Definition raw_lex_score (self : t) (lang word : string) : result num :=
  m <- getitem self.(model) lang ;;
  l <- LanguageModel.lex_score m word ;;
  math_exp l.

(** [math.exp(self.model[lang].char_score(word))]. *)
Definition raw_char_score (self : t) (lang word : string) : result num :=
  m <- getitem self.(model) lang ;;
  c <- LanguageModel.char_score m word ;;
  math_exp c.

(** The relative score [d[lang] / (d[GA] + d[EN])]. *)
Definition relative (d : dict num) (lang : string) : result num :=
  a <- getitem d lang ;;
  g <- getitem d GA ;;
  e <- getitem d EN ;;
  fdiv a (add g e).

Definition score (self : t) (word : string) : result (dict num) :=
  (* Punctuation etc. have no influence on the language assignment *)
  if String.eqb word IGNORE then Ok (set (set [] GA (of_Z 1)) EN (of_Z 1))
  else
    '(lex_score, char_score) <-
      foldM (fun (st : dict num * dict num) lang =>
               l <- raw_lex_score self lang word ;;
               c <- raw_char_score self lang word ;;
               Ok (set (fst st) lang l, set (snd st) lang c))
            [GA; EN] ([], []) ;;
    '(lex_score_rel, char_score_rel) <-
      foldM (fun (st : dict num * dict num) lang =>
               l <- relative lex_score lang ;;
               c <- relative char_score lang ;;
               Ok (set (fst st) lang l, set (snd st) lang c))
            [GA; EN] ([], []) ;;
    (* If the word is not in either lexicon, use only the character model. *)
    lg <- getitem lex_score GA ;;
    og <- raw_lex_score self GA LanguageModel.OOV ;;
    both_oov <-
      (if eqb lg og then
         le <- getitem lex_score EN ;;
         oe <- raw_lex_score self EN LanguageModel.OOV ;;
         Ok (eqb le oe)
       else Ok false) ;;
    if both_oov then
      foldM (fun weighted_score lang =>
               c <- getitem char_score_rel lang ;;
               w <- math_log c ;;
               Ok (set weighted_score lang w))
            [GA; EN] []
    (* Otherwise combine both models *)
    else
      foldM (fun weighted_score lang =>
               l <- getitem lex_score_rel lang ;;
               c <- getitem char_score_rel lang ;;
               w <- math_log (add (mul self.(lex_weight) l)
                                  (mul (sub (of_Z 1) self.(lex_weight)) c)) ;;
               Ok (set weighted_score lang w))
            [GA; EN] [].

Definition identify_independent (self : t) (tokens : list string)
  : result (list pyval) :=
  foldM (fun languages token =>
           scores <- score self token ;;
           g <- getitem scores GA ;;
           e <- getitem scores EN ;;
           if leb e g (* scores[GA] >= scores[EN] *)
           then Ok (languages ++ [PyStr GA])
           else Ok (languages ++ [PyStr EN]))
        tokens [].

(** [max]: the first maximal element; a later element replaces the current
    one only when it is strictly greater. *)
Fixpoint max_from (best : nat * num) (i : nat) (l : list num) : nat * num :=
  match l with
  | [] => best
  | x :: r => max_from (if ltb (snd best) x then (i, x) else best) (S i) r
  end.

(** [max(enumerate(iterable), key=lambda x: x[1])]. *)
Definition max_argmax (iterable : list num) : result (nat * num) :=
  match iterable with
  | [] => Raise ValueError
  | x :: r => Ok (max_from (0, x) 1 r)
  end.

Definition langs : list string := [GA; EN].

(** Probability of keeping vs. switching the language. *)
Definition trans_p (transition_probability : num) : dict (dict num) :=
  let d := set (set [] GA []) EN [] in
  let d := set d GA (set (get_default d GA []) GA transition_probability) in
  let d := set d EN (set (get_default d EN []) EN transition_probability) in
  let d := set d GA (set (get_default d GA []) EN
                         (sub (of_Z 1) transition_probability)) in
  set d EN (set (get_default d EN []) GA (sub (of_Z 1) transition_probability)).

(** The generator [term] for one language [lang] at one position. *)
Definition term (V_prev : dict num) (trans_p : dict (dict num))
    (scores : dict num) (lang : string) : result (list num) :=
  mapM (fun lang2 =>
          v <- getitem V_prev lang2 ;;
          row <- getitem trans_p lang2 ;;
          p <- getitem row lang ;;
          l <- math_log p ;;
          s <- getitem scores lang ;;
          Ok (add (add v l) s))
       langs.

(** One iteration of [for t in range(1, len(tokens))]: the dicts [V[t]] and
    [S[t]] are filled and appended ([S'] is the source's list [S]). *)
Definition viterbi_step (self : t) (tokens : list string)
    (trans_p : dict (dict num))
    (VS : list (dict num) * list (dict string)) (t : nat)
  : result (list (dict num) * list (dict string)) :=
  let '(V, S') := VS in
  token <- index tokens t ;;
  scores <- score self token ;;
  V_prev <- index V (t - 1) ;;
  '(Vt, St) <-
    foldM (fun (st : dict num * dict string) lang =>
             term <- term V_prev trans_p scores lang ;;
             '(maxlang, prob) <- max_argmax term ;;
             l <- index langs maxlang ;;
             Ok (set (fst st) lang prob, set (snd st) lang l))
          langs ([], []) ;;
  Ok (V ++ [Vt], S' ++ [St]).

(** One iteration of [for t in range(len(tokens)-1, 0, -1)]. *)
Definition backtrack_step (S' : list (dict string)) (languages : list pyval)
    (t : nat) : result (list pyval) :=
  St <- index S' t ;;
  cur <- index languages t ;;
  prev <- match cur with
          | PyStr lang => getitem St lang
          | PyInt _ => Raise KeyError
          end ;;
  setitem languages (t - 1) (PyStr prev).

Definition identify_viterbi (self : t) (tokens : list string)
    (transition_probability start_probability : num) : result (list pyval) :=
  let trans_p := trans_p transition_probability in
  (* Initial probabilities for both languages *)
  token <- index tokens 0 ;;
  scores <- score self token ;;
  lq <- math_log start_probability ;;
  g <- getitem scores GA ;;
  lq' <- math_log (sub (of_Z 1) start_probability) ;;
  e <- getitem scores EN ;;
  let V0 := set (set [] GA (add lq g)) EN (add lq' e) in
  (* Iterate over tokens (starting at second token) *)
  '(V, S') <- foldM (viterbi_step self tokens trans_p)
                   (seq 1 (length tokens - 1)) ([V0], [[]]) ;;
  (* Get argmax for final token *)
  let languages := repeat (PyInt 0) (length tokens) in
  V_last <- index_last V ;;
  finals <- mapM (fun lang => getitem V_last lang) langs ;;
  '(maxlang, _) <- max_argmax finals ;;
  l <- index langs maxlang ;;
  languages <- setitem_last languages (PyStr l) ;;
  (* Reconstruct optimal path *)
  foldM (backtrack_step S') (rev (seq 1 (length tokens - 1))) languages.

(** The [if]/[elif] on [method] that ends [identify]; Python returns [None]
    when neither branch is taken. *)
Definition identify_method (self : t) (tokens : list string) (method : string)
    (transition_probability start_probability : num)
  : result (option (list pyval)) :=
  if String.eqb method "independent" then
    r <- identify_independent self tokens ;; Ok (Some r)
  else if String.eqb method "viterbi" then
    r <- identify_viterbi self tokens transition_probability
                          start_probability ;;
    Ok (Some r)
  else Ok None.

Definition identify (self : t) (tokens : list string) (method : string)
    (transition_probability start_probability : num)
  : result (option (list pyval)) :=
  (* Special treatment for the Irish affirmative "sea" in 1-word sentences. *)
  if (length tokens =? 1)
     && match tokens with
        | token :: _ => String.eqb (lower token) "sea"
        | [] => false
        end
  then Ok (Some [PyStr GA])
  else identify_method self tokens method transition_probability
                       start_probability.

(** [word-level-language-id/LanguageIdentifier.py] is the same text with
    language A named [FR] (the class constant is still ["ga"]) and the
    override guarded by [self.FR == 'ga']. *)
Definition FR : string := "ga".

Definition identify_fr (self : t) (tokens : list string) (method : string)
    (transition_probability start_probability : num)
  : result (option (list pyval)) :=
  if String.eqb FR "ga"
     && (length tokens =? 1)
     && match tokens with
        | token :: _ => String.eqb (lower token) "sea"
        | [] => false
        end
  then Ok (Some [PyStr FR])
  else identify_method self tokens method transition_probability
                       start_probability.

End WithFloat.
End LanguageIdentifier.

(** ** Two exact arithmetics

    [RFloat] interprets the interface in the real numbers.  It is not the
    arithmetic of Python: it has no rounding, no underflow and no overflow.
    A statement over [RFloat] is about the exact values that the
    floating-point run approximates, and says so; what holds of Python's own
    numbers is stated for every [PyFloat], or run in [Binary64].  [QFloat] is a
    computable stand-in used to run the code on examples: rational arithmetic
    is exact, and [log]/[exp] are replaced by a pair of mutually inverse
    monotone rational functions with [log 1 = 0] (the values they produce are
    not those of [math.log] and [math.exp]; only statements that do not depend
    on those values are evaluated in it). *)

Definition Rltb (a b : R) : bool := if Rlt_dec a b then true else false.
Definition Rleb (a b : R) : bool := if Rle_dec a b then true else false.
Definition Reqb (a b : R) : bool := if Req_dec_T a b then true else false.

Definition RFloat : PyFloat :=
  {| num := R;
     of_Z := IZR;
     of_Q := Q2R;
     add := Rplus;
     sub := Rminus;
     mul := Rmult;
     div := fun a b => if Req_dec_T b 0%R then None else Some (a / b)%R;
     log := fun a => if Rlt_dec 0%R a then Some (ln a) else None;
     exp := fun a => Some (Rtrigo_def.exp a);
     eqb := Reqb;
     ltb := Rltb;
     leb := Rleb |}.

Definition Qlog (a : Q) : option Q :=
  if Qle_bool a 0 then None
  else Some (Qred (if Qle_bool 1 a then a - 1 else 1 - 1 / a))%Q.

Definition Qexp (a : Q) : option Q :=
  Some (Qred (if Qle_bool 0 a then 1 + a else 1 / (1 - a)))%Q.

Definition QFloat : PyFloat :=
  {| num := Q;
     of_Z := inject_Z;
     of_Q := fun q => q;
     add := fun a b => Qred (a + b);
     sub := fun a b => Qred (a - b);
     mul := fun a b => Qred (a * b);
     div := fun a b => if Qeq_bool b 0 then None else Some (Qred (a / b));
     log := Qlog;
     exp := Qexp;
     eqb := Qeq_bool;
     ltb := fun a b => negb (Qle_bool b a);
     leb := Qle_bool |}.

(** ** Running examples: the toy lexicons of the specification *)

Module Toy.

Definition lexicon_ga : LanguageModel.lexicon_file :=
  [("ab"%string, 10%Z); ("ac"%string, 5%Z)].
Definition lexicon_en : LanguageModel.lexicon_file :=
  [("xy"%string, 10%Z); ("xz"%string, 5%Z)].

(** [train.py]: construct the model on its lexicon, then train it. *)
Definition trained (N : PyFloat) (language : string) (n : nat)
    (lexicon : LanguageModel.lexicon_file) (lamb : Q)
  : result LanguageModel.t :=
  m <- LanguageModel.init language n lexicon (of_Z 1) ;;
  LanguageModel.train m (of_Q lamb).

(** [identify.py]: load both dumped models with their lexicons. *)
Definition identifier (N : PyFloat) (n : nat) (lex_weight : Q)
  : result LanguageIdentifier.t :=
  ga <- trained N "ga" n lexicon_ga (1 # 1000) ;;
  en <- trained N "en" n lexicon_en (1 # 1000) ;;
  LanguageIdentifier.init (LanguageModel.dump ga) (LanguageModel.dump en)
                          lexicon_ga lexicon_en (of_Q lex_weight).

(** The models over [QFloat] that [train.py] constructs and trains: language
    A at order 2, and the one-word lexicon [ab 1] at order 4. *)
Definition model_of (r : result (@LanguageModel.t QFloat))
  : @LanguageModel.t QFloat :=
  match r with
  | Ok m => m
  | Raise _ => @LanguageModel.Build_t QFloat "" 0 [] 0%Q 0%Q [] [] []
  end.

Definition ga_constructed : @LanguageModel.t QFloat :=
  model_of (@LanguageModel.init QFloat "ga" 2 lexicon_ga 1%Q).
Definition ga_trained : @LanguageModel.t QFloat :=
  model_of (@LanguageModel.train QFloat ga_constructed (1 # 1000)).

Definition order4_constructed : @LanguageModel.t QFloat :=
  model_of (@LanguageModel.init QFloat "ga" 4 [("ab"%string, 1%Z)] 1%Q).
Definition order4_trained : @LanguageModel.t QFloat :=
  model_of (@LanguageModel.train QFloat order4_constructed (1 # 1000)).

(** The identifier over [QFloat], with equal weights. *)
Definition q_identifier : @LanguageIdentifier.t QFloat :=
  match identifier QFloat 2 (1 # 2) with
  | Ok self => self
  | Raise _ => @LanguageIdentifier.Build_t QFloat 0%Q []
  end.

End Toy.

(** ** An identifier over the reals

    Both lexicon files are empty, so each lexicon holds the out-of-vocabulary
    entry alone; both persisted character models hold the fallback entries
    alone. *)

Module RExample.

Definition oov_logp : R :=
  ln (Q2R (1 # 10) / (IZR 0 + Q2R (1 # 10) * IZR (Z.of_nat 1)))%R.

Definition model_file (language : string) : @LanguageModel.model_file RFloat :=
  (language, 2,
   [(LanguageModel.UNKNOWN, 0%R)],
   [(LanguageModel.UNKNOWN, [(LanguageModel.UNKNOWN, 0%R)])]).

Definition model (language : string) : @LanguageModel.t RFloat :=
  @LanguageModel.Build_t RFloat
    language 2 [] 1%R (IZR 1 - 1)%R
    [(LanguageModel.UNKNOWN, 0%R)]
    [(LanguageModel.UNKNOWN, [(LanguageModel.UNKNOWN, 0%R)])]
    [(LanguageModel.OOV, oov_logp)].

Definition identifier : @LanguageIdentifier.t RFloat :=
  @LanguageIdentifier.Build_t RFloat 1%R
    [(LanguageIdentifier.GA, model "ga");
     (LanguageIdentifier.EN, model "en")].

End RExample.

(** ** Binary64

    The arithmetic of Python's [float]: the primitive binary64 numbers with
    the IEEE 754 operations, rounding to nearest, ties to even.  [math.log]
    and [math.exp] are library functions; the arithmetic takes them as the
    parameters [flog] and [fexp].  An [int] beyond the range of binary64,
    for which Python raises [OverflowError] when it meets a [float], is not
    modelled: [of_Z] rounds it to infinity. *)

Module Binary64.

Import PrimFloat.

Definition of_Z (z : Z) : float :=
  FloatOps.SF2Prim
    (SpecFloat.binary_normalize FloatOps.prec FloatOps.emax z 0%Z false).

Definition of_Q (q : Q) : float :=
  PrimFloat.div (of_Z (Qnum q)) (of_Z (Zpos (Qden q))).

Definition div (a b : float) : option float :=
  if PrimFloat.eqb b PrimFloat.zero then None else Some (PrimFloat.div a b).

Definition arith (flog fexp : float -> option float) : PyFloat :=
  Build_PyFloat float of_Z of_Q PrimFloat.add PrimFloat.sub PrimFloat.mul
                div flog fexp PrimFloat.eqb PrimFloat.ltb PrimFloat.leb.

(** The values of [math.log] and [math.exp] at the arguments that the
    example below reaches (correctly rounded; the nearest other binary64
    number is more than three quarters of a unit in the last place away
    from the exact value); the example asks for no other. *)
Definition libm_log (x : float) : option float :=
  if PrimFloat.eqb x 1%float then Some 0%float
  else if PrimFloat.eqb x 0.5%float then Some (-0x1.62e42fefa39efp-1)%float
  else if PrimFloat.eqb x 0x1.fffffffffffffp-2%float
       then Some (-0x1.62e42fefa39f0p-1)%float
  else None.

Definition libm_exp (x : float) : option float :=
  if PrimFloat.eqb x 0%float then Some 1%float
  else if PrimFloat.eqb x (-0x1p-53)%float
       then Some 0x1.fffffffffffffp-1%float
  else None.

Definition libm : PyFloat := arith libm_log libm_exp.

(** Two persisted character models of order 2 that hold the fallback
    entries alone: every word has probability [1] in the model of language
    B and probability [exp(-2^-53)], the binary64 number next below [1], in
    the model of language A. *)
Definition model_file_ga : @LanguageModel.model_file libm :=
  ("ga"%string, 2,
   [(LanguageModel.UNKNOWN, (-0x1p-53)%float)],
   [(LanguageModel.UNKNOWN, [(LanguageModel.UNKNOWN, 0%float)])]).

Definition model_file_en : @LanguageModel.model_file libm :=
  ("en"%string, 2,
   [(LanguageModel.UNKNOWN, 0%float)],
   [(LanguageModel.UNKNOWN, [(LanguageModel.UNKNOWN, 0%float)])]).

End Binary64.

(** ** Predicates used in the statements *)

Section Predicates.

Context {N : PyFloat}.
Import LanguageIdentifier.

(** Every row of a transition table has its own [UNKNOWN] entry. *)
Definition rows_have_unknown (tp : dict (dict num)) : Prop :=
  forall g row, get tp g = Some row -> mem LanguageModel.UNKNOWN row = true.

(** The table [tp] has the direct entry [tp[g][g']]. *)
Definition has_transition (tp : dict (dict num)) (g g' : string) : Prop :=
  exists row, get tp g = Some row /\ mem g' row = true.

(** A language code, and a list cell that holds one. *)
Definition is_code (l : string) : Prop := l = GA \/ l = EN.
Definition is_label (v : pyval) : Prop := v = PyStr GA \/ v = PyStr EN.

(** The shape of [V[t]], and of [S[t]] for [1 <= t]. *)
Definition scores_shape (d : dict num) : Prop :=
  exists g e, d = [(GA, g); (EN, e)].
Definition backpointers_shape (d : dict string) : Prop :=
  exists l1 l2, d = [(GA, l1); (EN, l2)] /\ is_code l1 /\ is_code l2.

(** [scored self tokens scs]: [scs] lists the pair of scores of every token. *)
Definition scored (self : LanguageIdentifier.t) (tokens : list string)
    (scs : list (num * num)) : Prop :=
  Forall2 (fun token sc => score self token = Ok [(GA, fst sc); (EN, snd sc)])
          tokens scs.

(** The language the independent decoder picks from a pair of scores
    [(scores[GA], scores[EN])]. *)
Definition choose (sc : num * num) : string :=
  if leb (snd sc) (fst sc) then GA else EN.

End Predicates.

(** ** Predicates on counts and frequencies, over the reals *)

Section RealPredicates.

Import LanguageModel.

(** Every count of a dict is positive. *)
Definition positive_counts (d : dict R) : Prop := Forall (fun kv => (0 < snd kv)%R) d.

(** A lexicon file whose frequencies are not negative. *)
Definition frequencies_ok (lexicon : lexicon_file) : Prop :=
  forall word count, In (word, count) lexicon -> (0 <= count)%Z.

End RealPredicates.

(** ** The objective of the Viterbi decoder

    A path gives one language per token: [false] stands for [GA], [true] for
    [EN].  Its score is the sum the decoder maximises, added up in the order
    in which the decoder adds it: the logarithm of the start prior of the
    first language plus the score of the first token, then for every later
    token the logarithm of the transition prior and the score of the token.
    [lp], [lp'], [lq] and [lq'] are the logarithms of [p], [1 - p], [q] and
    [1 - q].  [forward] and [backtrace] are the recurrences that the two
    loops of [identify_viterbi] compute; they serve to state the loop
    invariants. *)

Section Objective.

Context {N : PyFloat}.
Import LanguageIdentifier.

Definition code (b : bool) : string := if b then EN else GA.

Definition pick {A : Type} (pr : A * A) (b : bool) : A :=
  if b then snd pr else fst pr.

Definition start_logp (lq lq' : num) (b : bool) : num :=
  if b then lq' else lq.

Definition trans_logp (lp lp' : num) (b b' : bool) : num :=
  if Bool.eqb b b' then lp else lp'.

(** The sum over the tokens after the first, added to [acc] from left to
    right; [prev] is the language of the previous token. *)
Fixpoint walk_logp (lp lp' : num) (acc : num) (prev : bool) (path : list bool)
    (scs : list (num * num)) : num :=
  match path, scs with
  | b :: path', sc :: scs' =>
      walk_logp lp lp' (add (add acc (trans_logp lp lp' prev b)) (pick sc b))
                b path' scs'
  | _, _ => acc
  end.

Definition path_logp (lp lp' lq lq' : num) (scs : list (num * num))
    (path : list bool) : num :=
  match path, scs with
  | b :: path', sc :: scs' =>
      walk_logp lp lp' (add (start_logp lq lq' b) (pick sc b)) b path' scs'
  | _, _ => of_Z 0
  end.

(** The candidate value of [V[t][lang']] that comes from [V[t-1][lang]]. *)
Definition candidate (lp lp' : num) (v sc : num * num) (b b' : bool) : num :=
  add (add (pick v b) (trans_logp lp lp' b b')) (pick sc b').

(** [S[t]]: for each language, whether the better predecessor is [EN]. *)
Definition next_S (lp lp' : num) (v sc : num * num) : bool * bool :=
  (ltb (candidate lp lp' v sc false false) (candidate lp lp' v sc true false),
   ltb (candidate lp lp' v sc false true) (candidate lp lp' v sc true true)).

(** [V[t]] from [V[t-1] = v] and the scores [sc] of [tokens[t]]. *)
Definition next_V (lp lp' : num) (v sc : num * num) : num * num :=
  (candidate lp lp' v sc (fst (next_S lp lp' v sc)) false,
   candidate lp lp' v sc (snd (next_S lp lp' v sc)) true).

(** The rows [(V[t], S[t])] for the tokens after the first. *)
Fixpoint forward (lp lp' : num) (v : num * num) (scs : list (num * num))
  : list ((num * num) * (bool * bool)) :=
  match scs with
  | [] => []
  | sc :: r =>
      (next_V lp lp' v sc, next_S lp lp' v sc)
        :: forward lp lp' (next_V lp lp' v sc) r
  end.

(** [V[-1]]. *)
Definition final_V (lp lp' : num) (v : num * num) (scs : list (num * num))
  : num * num :=
  fold_left (next_V lp lp') scs v.

(** The path that ends in [b_end] and follows the backpointers [T]. *)
Fixpoint backtrace (T : list (bool * bool)) (b_end : bool) : list bool :=
  match T with
  | [] => [b_end]
  | s :: T' =>
      let rest := backtrace T' b_end in
      pick s (hd false rest) :: rest
  end.

Definition V_dict (v : num * num) : dict num := [(GA, fst v); (EN, snd v)].
Definition S_dict (s : bool * bool) : dict string :=
  [(GA, code (fst s)); (EN, code (snd s))].

(** The path that [identify_viterbi] returns on the scores [sc :: scs]. *)
Definition viterbi_path (lp lp' lq lq' : num) (sc : num * num)
    (scs : list (num * num)) : list bool :=
  let v0 := (add lq (fst sc), add lq' (snd sc)) in
  let v := final_V lp lp' v0 scs in
  backtrace (map snd (forward lp lp' v0 scs)) (ltb (fst v) (snd v)).

End Objective.

(** ** Dicts of counts and dicts of log-probabilities, over the reals *)

Section Distributions.

Import LanguageModel.
Local Open Scope R_scope.

(** The sum of the counts of a dict. *)
Definition vsum (d : dict R) : R :=
  fold_right (fun kv acc => snd kv + acc) 0 d.

(** What the counts of a dict hold beyond the [lamb] every key starts
    from. *)
Definition excess (lamb : R) (d : dict R) : R :=
  vsum d - lamb * IZR (Z.of_nat (length d)).

(** The dict that the conversion loop [d[key] = math.log(count /
    denominator)] makes of a dict of counts. *)
Definition log_probs (denominator : R) (d : dict R) : dict R :=
  map (fun kv => (fst kv, ln (snd kv / denominator))) d.

(** The key under which [load_lexicon] and [lex_score] file a word. *)
Definition lexicon_key (word : string) : string :=
  if CASE_SENSITIVITY_THRESHOLD <=? String.length word
  then lower word else word.

(** The state of the loop of [load_lexicon] between two lines. *)
Definition lexicon_exact (lamb : R) (st : dict R * Z) : Prop :=
  Forall (fun kv => lamb <= snd kv) (fst st)
  /\ NoDup (keys (fst st))
  /\ excess lamb (fst st) = IZR (snd st)
  /\ (0 <= snd st)%Z.

End Distributions.

(** ** ASCII text

    The words on which the embedding is the source: their characters are
    bytes below 128, so that the length of a word is [len(word)], its
    n-grams are the slices [word[i:i+n]], and [lower] is [str.lower]. *)

Section Text.

Import LanguageModel.

(** A word of ASCII characters, and a lexicon file of such words. *)
Definition is_ascii (s : string) : bool :=
  forallb (fun c => nat_of_ascii c <? 128) (list_ascii_of_string s).

Definition ascii_lexicon (lexicon : lexicon_file) : bool :=
  forallb (fun line : string * Z => is_ascii (fst line)) lexicon.

End Text.

(** ** Counts and estimates, as the arithmetic computes them

    The counters of [load_lexicon] and [train] are numbers of the
    arithmetic: a counter starts at [lamb] and the frequencies are added to
    it one by one, in the order of the lines of the lexicon file (in
    binary64 the sum is rounded at every step).  The totals are integers.
    An estimate is [math.log(count / denominator)] with the denominator
    [total + lamb * K], all three operations those of the arithmetic. *)

Section Estimates.

Context {N : PyFloat}.
Import LanguageModel.

(** Whether a line of the lexicon file is filed under [k] by [key], and the
    frequency of all lines. *)
Definition listed (key : string -> string) (lexicon : lexicon_file)
    (k : string) : bool :=
  existsb (fun line => String.eqb (key (fst line)) k) lexicon.

Definition total_frequency (lexicon : lexicon_file) : Z :=
  fold_right (fun line acc => (snd line + acc)%Z) 0%Z lexicon.

(** The start n-gram [token[:n]] of a lexicon word. *)
Definition start_ngram (n0 : nat) (word : string) : string :=
  substring 0 n0 (START ++ word ++ END).

(** The counter of [k] after the lines of [lexicon], when it starts at
    [start]: the frequency of every line that [key] files under [k] is
    added to it, in the order of the lines. *)
Definition counted (start : num) (key : string -> string)
    (lexicon : lexicon_file) (k : string) : num :=
  fold_left (fun acc (line : string * Z) =>
               if String.eqb (key (fst line)) k
               then add acc (of_Z (snd line)) else acc)
            lexicon start.

(** The body common to the loops that count: [d[k] = d.get(k, lamb) +
    count] at the key of a line. *)
Definition accumulate (lamb : num) (key : string -> string) (d : dict num)
    (line : string * Z) : dict num :=
  set d (key (fst line))
      (add (get_default d (key (fst line)) lamb) (of_Z (snd line))).

(** The integers that meet a float in [load_lexicon] and [train] are the
    frequencies and their totals.  Python converts them and raises
    [OverflowError] beyond the range of binary64, which [of_Z] does not
    model; the statements about estimates are made for lexicon files whose
    frequencies are not negative and whose totals stay below [2^1023], where
    every conversion is in range. *)
Definition float_range (z : Z) : bool := (Z.abs z <? 2 ^ 1023)%Z.

Definition frequencies_convert (lexicon : lexicon_file) : bool :=
  forallb (fun line : string * Z => (0 <=? snd line)%Z) lexicon
  && float_range (total_frequency lexicon).

(** The denominator [total + lamb * K]. *)
Definition smoothed (lamb : num) (total : Z) (K : nat) : num :=
  add (of_Z total) (mul lamb (of_Z (Z.of_nat K))).

(** [v] is [math.log(count / denominator)]: the division and the logarithm
    raise nothing, and [v] is their result. *)
Definition estimate (count denominator v : num) : Prop :=
  exists q, fdiv count denominator = Ok q /\ math_log q = Ok v.

(** The transitions that [train] counts: for every line, at every position
    [i] of its padded word, the n-grams at [i] and at [i + 1], with the
    frequency of the line. *)
Definition transitions (n0 : nat) (lexicon : lexicon_file)
  : list (string * string * Z) :=
  flat_map (fun line : string * Z =>
              let token := (START ++ fst line ++ END)%string in
              map (fun i => (substring i n0 token,
                             substring (i + 1) n0 token, snd line))
                  (seq 0 (String.length token - n0)))
           lexicon.

(** The total of the frequencies of all transitions is in range (and with
    it, for frequencies that are not negative, the total of those that
    leave any one n-gram). *)
Definition transitions_convert (n0 : nat) (lexicon : lexicon_file) : bool :=
  float_range (fold_right (fun (ev : string * string * Z) acc =>
                             (snd ev + acc)%Z)
                          0%Z (transitions n0 lexicon)).

(** The counter of the transition from [g] to [g'] after the transitions
    [evs], when it starts at [start], and the integer total of the
    transitions that leave [g]. *)
Definition pair_counted (start : num) (evs : list (string * string * Z))
    (g g' : string) : num :=
  fold_left (fun acc (ev : string * string * Z) =>
               if String.eqb (fst (fst ev)) g && String.eqb (snd (fst ev)) g'
               then add acc (of_Z (snd ev)) else acc)
            evs start.

Definition source_frequency (evs : list (string * string * Z))
    (g : string) : Z :=
  fold_right (fun ev acc =>
                if String.eqb (fst (fst ev)) g then (snd ev + acc)%Z else acc)
             0%Z evs.

Definition pair_listed (evs : list (string * string * Z))
    (g g' : string) : bool :=
  existsb (fun ev => String.eqb (fst (fst ev)) g
                     && String.eqb (snd (fst ev)) g') evs.

Definition source_listed (evs : list (string * string * Z))
    (g : string) : bool :=
  existsb (fun ev => String.eqb (fst (fst ev)) g) evs.

(** The entry [d[g][g']] of a dict of dicts, if there is one. *)
Definition get2 {V : Type} (d : dict (dict V)) (g g' : string) : option V :=
  match get d g with
  | Some row => get row g'
  | None => None
  end.

(** What one iteration of the inner loop of [train] does to [trans_count]
    and [trans_total], at the transition [ev]. *)
Definition count_event (lamb : num) (st : dict (dict num) * dict Z)
    (ev : string * string * Z) : dict (dict num) * dict Z :=
  let row := get_default (fst st) (fst (fst ev)) [] in
  (set (fst st) (fst (fst ev))
       (set row (snd (fst ev))
            (add (get_default row (snd (fst ev)) lamb) (of_Z (snd ev)))),
   set (snd st) (fst (fst ev))
       (get_default (snd st) (fst (fst ev)) 0 + snd ev)%Z).

(** What the counters of [train] keep between two lines: no key occurs
    twice, no start n-gram is [UNKNOWN], and the keys of a row have the
    length of the order. *)
Definition counts_keyed (n0 : nat) (c : counts) : Prop :=
  NoDup (keys (start_count c))
  /\ Forall (fun kv => fst kv <> UNKNOWN) (start_count c)
  /\ NoDup (keys (trans_count c))
  /\ forall g nexts,
       get (trans_count c) g = Some nexts ->
       NoDup (keys nexts)
       /\ Forall (fun kv => String.length (fst kv) = n0) nexts.

End Estimates.

(** ** Exceptions of the arithmetic *)

Section Exceptions.

(** The exceptions that [math.log], [math.exp] and [/] raise, as opposed to
    those of a failed lookup. *)
Definition arithmetic (e : exn) : bool :=
  match e with
  | ValueError | ZeroDivisionError | OverflowError => true
  | KeyError | IndexError => false
  end.

(** A run that returns, or else raises an exception of the arithmetic. *)
Definition lookups_safe {A : Type} (r : result A) : Prop :=
  forall e, r = Raise e -> arithmetic e = true.

End Exceptions.

(** * Properties *)

(** ** The error monad and dicts *)

Lemma bind_Ok {A B : Type} (c : result A) (k : A -> result B) (b : B) :
  bind c k = Ok b -> exists a, c = Ok a /\ k a = Ok b.
Proof.
  destruct c as [a|e]; simpl; intros H; [eauto | discriminate].
Qed.

(** [inv_bind H] splits [H : (x <- c ;; k) = Ok b] into the two runs. *)
Ltac inv_bind H :=
  let a := fresh "a" in
  let Ha := fresh "E" in
  apply bind_Ok in H; destruct H as (a & Ha & H).

(** [inv_binds] does so for every successful run among the hypotheses. *)
Ltac inv_binds :=
  repeat match goal with
         | H : bind _ _ = Ok _ |- _ => inv_bind H
         | H : Ok _ = Ok _ |- _ => inversion H; subst; clear H
         end.

Lemma foldM_invariant {S A : Type} (P : S -> Prop) (f : S -> A -> result S) :
  forall (l : list A) (s s' : S),
    (forall s0 a s1, In a l -> P s0 -> f s0 a = Ok s1 -> P s1) ->
    P s -> foldM f l s = Ok s' -> P s'.
Proof.
  induction l as [|x r IH]; simpl; intros s s' Hstep Hs Hrun.
  - now inversion Hrun; subst.
  - inv_bind Hrun. eapply IH; [| | exact Hrun]; eauto.
Qed.

Lemma foldM_app {S A : Type} (f : S -> A -> result S) (l1 l2 : list A) :
  forall s, foldM f (l1 ++ l2) s = (s' <- foldM f l1 s ;; foldM f l2 s').
Proof.
  induction l1 as [|x r IH]; simpl; intros s; [reflexivity|].
  destruct (f s x); simpl; auto.
Qed.

Section DictFacts.

Context {V : Type}.
Implicit Types (d : dict V) (k : string) (v : V).

Lemma get_set_eq d k v : get (set d k v) k = Some v.
Proof.
  induction d as [|[k' v'] r IH]; simpl.
  - now rewrite String.eqb_refl.
  - destruct (String.eqb k' k) eqn:E; simpl; rewrite E; auto.
Qed.

Lemma get_set_neq d k k' v : k <> k' -> get (set d k v) k' = get d k'.
Proof.
  intros Hne. induction d as [|[k0 v0] r IH]; simpl.
  - apply String.eqb_neq in Hne. now rewrite Hne.
  - destruct (String.eqb k0 k) eqn:E; simpl.
    + apply String.eqb_eq in E; subst k0.
      apply String.eqb_neq in Hne. now rewrite Hne.
    + now rewrite IH.
Qed.

Lemma mem_set_eq d k v : mem k (set d k v) = true.
Proof. unfold mem. now rewrite get_set_eq. Qed.

Lemma mem_set_mono d k k' v : mem k' d = true -> mem k' (set d k v) = true.
Proof.
  unfold mem. destruct (string_dec k k') as [->|Hne].
  - now rewrite get_set_eq.
  - now rewrite get_set_neq.
Qed.

Lemma getitem_mem d k : mem k d = true -> exists v, getitem d k = Ok v.
Proof.
  unfold mem, getitem. destruct (get d k) as [v|]; simpl; [eauto | discriminate].
Qed.

End DictFacts.

(** ** The decoder's entry point *)

Section Identify.

Context {N : PyFloat}.
Import LanguageIdentifier.

Variable self : LanguageIdentifier.t.

(** C8. A one-token input whose token lower-cases to ["sea"] is answered
    [[GA]] before any scoring, whatever the method and the priors; so it is
    in the variant file, whose guard [FR == 'ga'] always holds. *)
Theorem identify_sea_override (token method : string) (p q : num) :
  lower token = "sea"%string ->
  identify self [token] method p q = Ok (Some [PyStr GA])
  /\ identify_fr self [token] method p q = Ok (Some [PyStr FR]).
Proof.
  intros Hsea. unfold identify, identify_fr. simpl. now rewrite Hsea.
Qed.

(** C9. With a [method] that names neither decoder, and no override,
    [identify] falls off the end of its [if]/[elif] and returns [None], in
    both files. *)
Theorem identify_unknown_method (tokens : list string) (method : string)
    (p q : num) :
  method <> "independent"%string ->
  method <> "viterbi"%string ->
  (forall token, tokens = [token] -> lower token <> "sea"%string) ->
  identify self tokens method p q = Ok None
  /\ identify_fr self tokens method p q = Ok None.
Proof.
  intros Hi Hv Hsea. unfold identify, identify_fr, identify_method.
  apply String.eqb_neq in Hi, Hv.
  destruct tokens as [|token [|token' r]]; simpl; rewrite ?Hi, ?Hv; auto.
  specialize (Hsea token eq_refl). apply String.eqb_neq in Hsea.
  now rewrite Hsea.
Qed.

(** C10. On the empty token list the independent decoder returns the empty
    list, and the Viterbi decoder raises [IndexError] at [tokens[0]]. *)
Theorem identify_empty (p q : num) :
  identify self [] "independent" p q = Ok (Some [])
  /\ identify self [] "viterbi" p q = Raise IndexError.
Proof. split; reflexivity. Qed.

(** C5 (as the code has it). For the ignore sentinel [score] returns the
    integer [1] for both languages. *)
Theorem score_ignore :
  score self IGNORE = Ok [(GA, of_Z 1); (EN, of_Z 1)].
Proof. reflexivity. Qed.

End Identify.

(** ** The trained tables always carry their fallbacks *)

Section Fallbacks.

Context {N : PyFloat}.
Import LanguageModel.

Lemma init_fields language0 n0 lexicon lw m :
  init language0 n0 lexicon lw = Ok m ->
  n m = n0 /\ lex_file m = lexicon /\ start_prob m = [] /\ trans_prob m = [].
Proof.
  unfold init. intros H. inv_bind H. now inversion H; subst.
Qed.

Lemma train_row_unknown lamb denominator nexts row :
  train_row lamb denominator nexts = Ok row -> mem UNKNOWN row = true.
Proof.
  unfold train_row. intros H. do 3 inv_bind H.
  inversion H; subst. apply mem_set_eq.
Qed.

Lemma rows_have_unknown_set tp g row :
  rows_have_unknown tp -> mem UNKNOWN row = true ->
  rows_have_unknown (set tp g row).
Proof.
  intros Htp Hrow g' row'. destruct (string_dec g g') as [->|Hne].
  - rewrite get_set_eq. now intros [= <-].
  - rewrite get_set_neq by assumption. apply Htp.
Qed.

Lemma train_n m lamb m' : train m lamb = Ok m' -> n m' = n m.
Proof.
  unfold train. intros H. do 6 inv_bind H. now inversion H.
Qed.

Lemma train_fallbacks m lamb m' :
  rows_have_unknown (trans_prob m) ->
  train m lamb = Ok m' ->
  mem UNKNOWN (start_prob m') = true
  /\ mem UNKNOWN (trans_prob m') = true
  /\ rows_have_unknown (trans_prob m').
Proof.
  intros Hwf H. unfold train in H.
  inv_bind H. inv_bind H. inv_bind H. inv_bind H. inv_bind H. inv_bind H.
  inversion H; subst; clear H; simpl.
  split; [apply mem_set_eq|].
  match goal with
  | E : foldM _ _ ?tp0 = Ok ?tp1 |- _ =>
      revert E;
      apply (foldM_invariant
               (fun tp => mem UNKNOWN tp = true /\ rows_have_unknown tp))
  end.
  - intros tp [ngram nexts] tp' _ [Hm Hr] Hstep.
    inv_bind Hstep. inv_bind Hstep. inversion Hstep; subst.
    split; [now apply mem_set_mono|].
    apply rows_have_unknown_set; [assumption|].
    eapply train_row_unknown; eassumption.
  - split; [apply mem_set_eq|].
    apply rows_have_unknown_set; [assumption | apply mem_set_eq].
Qed.

Lemma char_score_trans_cons tp g g' rest acc :
  char_score_trans tp (g :: g' :: rest) acc
  = (acc' <- char_score_step tp acc g g' ;; char_score_trans tp (g' :: rest) acc').
Proof. reflexivity. Qed.

Lemma char_score_step_total tp acc g g' :
  mem UNKNOWN tp = true -> rows_have_unknown tp ->
  exists r, char_score_step tp acc g g' = Ok r.
Proof.
  intros Hu Hrows. destruct acc as [logp dbg]. unfold char_score_step.
  destruct (getitem_mem _ _ Hu) as [u Eu].
  assert (Huu : mem UNKNOWN u = true).
  { apply (Hrows UNKNOWN). unfold getitem in Eu.
    destruct (get tp UNKNOWN); simpl in Eu; congruence. }
  destruct (getitem_mem _ _ Huu) as [p Ep].
  destruct (mem g tp) eqn:Eg; simpl.
  - destruct (getitem_mem _ _ Eg) as [row Erow]. rewrite Erow. simpl.
    assert (Hrow : mem UNKNOWN row = true).
    { apply (Hrows g). unfold getitem in Erow.
      destruct (get tp g); simpl in Erow; congruence. }
    destruct (mem g' row) eqn:Eg'; simpl.
    + destruct (getitem_mem _ _ Eg') as [p' Ep']. rewrite Ep'. simpl. eauto.
    + destruct (getitem_mem _ _ Hrow) as [p' Ep']. rewrite Ep'. simpl. eauto.
  - rewrite Eu. simpl. rewrite Ep. simpl. eauto.
Qed.

Lemma char_score_trans_total tp :
  mem UNKNOWN tp = true -> rows_have_unknown tp ->
  forall ngrams acc, exists r, char_score_trans tp ngrams acc = Ok r.
Proof.
  intros Hu Hrows. induction ngrams as [|g rest IH]; intros acc.
  - simpl. eauto.
  - destruct rest as [|g' rest']; [simpl; eauto|].
    rewrite char_score_trans_cons.
    destruct (char_score_step_total tp acc g g' Hu Hrows) as [acc' E].
    rewrite E. simpl bind. apply IH.
Qed.

Lemma char_score_debug_total m word :
  mem UNKNOWN (start_prob m) = true ->
  mem UNKNOWN (trans_prob m) = true ->
  rows_have_unknown (trans_prob m) ->
  word2ngrams word (n m) <> [] ->
  exists r, char_score_debug m word = Ok r.
Proof.
  intros Hs Hu Hrows Hne. unfold char_score_debug.
  destruct (word2ngrams word (n m)) as [|g0 rest] eqn:E; [congruence|].
  unfold index. cbn [nth_error lift bind].
  destruct (mem g0 (start_prob m)) eqn:Eg; cbn [negb].
  - destruct (getitem_mem _ _ Eg) as [p Ep]. rewrite Ep. cbn [bind].
    now apply char_score_trans_total.
  - destruct (getitem_mem _ _ Hs) as [p Ep]. rewrite Ep. cbn [bind].
    now apply char_score_trans_total.
Qed.

(** C4. On a model constructed and then trained, [char_score] returns a
    value for every word that yields at least one n-gram: no table lookup
    raises [KeyError]. *)
Theorem char_score_never_misses language0 n0 lexicon lw lamb m m' word :
  init language0 n0 lexicon lw = Ok m ->
  train m lamb = Ok m' ->
  word2ngrams word n0 <> [] ->
  exists logp, char_score m' word = Ok logp.
Proof.
  intros Hinit Htrain Hne.
  destruct (init_fields _ _ _ _ _ Hinit) as (Hn & _ & _ & Htp).
  assert (Hwf : rows_have_unknown (trans_prob m)).
  { rewrite Htp. intros g row. discriminate. }
  destruct (train_fallbacks _ _ _ Hwf Htrain) as (Hs & Hu & Hrows).
  destruct (char_score_debug_total m' word Hs Hu Hrows) as [r Er].
  - now rewrite (train_n _ _ _ Htrain), Hn.
  - exists (fst r). unfold char_score. now rewrite Er.
Qed.

(** X2. A word too short to yield an n-gram makes [char_score] raise
    [IndexError] at [ngrams[0]], whatever the tables hold. *)
Theorem char_score_no_ngram m word :
  word2ngrams word (n m) = [] ->
  char_score m word = Raise IndexError.
Proof.
  intros H. unfold char_score, char_score_debug. now rewrite H.
Qed.

End Fallbacks.

(** ** Padding: [train] against [word2ngrams] *)

Section Padding.

Context {N : PyFloat}.
Import LanguageModel.

(** C6 (the code at order 4). [train] counts the entry ["ab"] from the
    singly padded token: its start n-gram is ["<ab>"] and it has no
    transition, while [word2ngrams] splits the doubly padded word. *)
Theorem train_counts_single_padding (lamb : num) :
  let c := fold_left (count_line lamb 4) [("ab"%string, 1%Z)] counts_init in
  keys (start_count c) = ["<ab>"%string]
  /\ trans_count c = []
  /\ word2ngrams "ab" 4 = ["<<ab"; "<ab>"; "ab>>"]%string.
Proof. repeat split. Qed.

(** C3 (the code at order 4). After training on the one-word lexicon
    ["ab"], scoring ["ab"] itself resolves its start n-gram through
    [start_prob[UNKNOWN]] and both transitions through
    [trans_prob[UNKNOWN][UNKNOWN]]. *)
Theorem char_score_training_word_unknown lw lamb m m' :
  init "ga" 4 [("ab"%string, 1%Z)] lw = Ok m ->
  train m lamb = Ok m' ->
  exists logp,
    char_score_debug m' "ab"
    = Ok (logp, [StartUnknown; GlobalUnknown; GlobalUnknown]).
Proof.
  intros Hinit Htrain.
  destruct (init_fields _ _ _ _ _ Hinit) as (Hn & Hlex & Hsp & Htp).
  unfold train in Htrain. rewrite Hn, Hlex, Hsp, Htp in Htrain.
  cbn in Htrain. unfold set_log_prob in Htrain. cbn in Htrain. inv_binds.
  unfold char_score_debug. cbn. rewrite ?Hn. cbn. eauto.
Qed.

End Padding.

(** ** Training is self-consistent up to order 3 *)

Section DictKeys.

Context {V : Type}.
Implicit Types (d : dict V) (k : string) (v : V).

Lemma get_In d k v : get d k = Some v -> In (k, v) d.
Proof.
  induction d as [|[k' v'] r IH]; simpl; [discriminate|].
  destruct (String.eqb k' k) eqn:E.
  - apply String.eqb_eq in E. subst. intros [= ->]. now left.
  - intros H. right. auto.
Qed.

Lemma In_keys_set d k v x :
  In x (keys (set d k v)) -> x = k \/ In x (keys d).
Proof.
  induction d as [|[k' v'] r IH]; simpl.
  - intros [<- | []]. now left.
  - destruct (String.eqb k' k); simpl; intros [<- | H]; auto.
    destruct (IH H); auto.
Qed.

Lemma NoDup_keys_set d k v : NoDup (keys d) -> NoDup (keys (set d k v)).
Proof.
  induction d as [|[k' v'] r IH]; simpl; intros H.
  - constructor; [intros [] | constructor].
  - inversion H as [|? ? Hnotin Hr]; subst.
    destruct (String.eqb k' k) eqn:E; simpl; [now constructor|].
    constructor; [|auto].
    intros Hin. apply In_keys_set in Hin. destruct Hin as [-> | Hin]; auto.
    now rewrite String.eqb_refl in E.
Qed.

Lemma mem_cons k k' v d :
  mem k ((k', v) :: d) = true -> k' = k \/ mem k d = true.
Proof.
  unfold mem. simpl. destruct (String.eqb k' k) eqn:E; auto.
  apply String.eqb_eq in E. auto.
Qed.

End DictKeys.

Section SelfConsistency.

Context {N : PyFloat}.
Import LanguageModel.

Lemma fold_left_preserves {S A : Type} (P : S -> Prop) (f : S -> A -> S) :
  (forall s a, P s -> P (f s a)) ->
  forall l s, P s -> P (fold_left f l s).
Proof. intros H. induction l as [|x r IH]; simpl; auto. Qed.

Lemma fold_left_establishes {S A : Type} (Q : A -> S -> Prop)
    (f : S -> A -> S) :
  (forall s a, Q a (f s a)) ->
  (forall a s b, Q a s -> Q a (f s b)) ->
  forall l s a, In a l -> Q a (fold_left f l s).
Proof.
  intros Hest Hpres. induction l as [|x r IH]; simpl; intros s a Hin.
  - contradiction.
  - destruct Hin as [-> | Hin]; [|now apply IH].
    apply fold_left_preserves; auto.
Qed.

(** *** The counting loops only add keys *)

Lemma has_transition_count lamb n0 token token_count c i g g' :
  has_transition (trans_count c) g g' ->
  has_transition
    (trans_count (count_transition lamb n0 token token_count c i)) g g'.
Proof.
  intros (row & Hrow & Hmem). cbn [count_transition trans_count].
  destruct (string_dec (substring i n0 token) g) as [Heq|Hne].
  - rewrite Heq. unfold get_default. rewrite Hrow.
    eexists. split; [apply get_set_eq | now apply mem_set_mono].
  - exists row. split; [now rewrite get_set_neq | assumption].
Qed.

Lemma has_transition_counted lamb n0 token token_count c i :
  has_transition
    (trans_count (count_transition lamb n0 token token_count c i))
    (substring i n0 token) (substring (i + 1) n0 token).
Proof.
  cbn [count_transition trans_count].
  eexists. split; [apply get_set_eq | apply mem_set_eq].
Qed.

Lemma count_line_start_mono lamb n0 c line k :
  mem k (start_count c) = true ->
  mem k (start_count (count_line lamb n0 c line)) = true.
Proof.
  intros H. destruct line as [word count]. unfold count_line.
  apply fold_left_preserves with (P := fun c' => mem k (start_count c') = true).
  - intros s a Hs. exact Hs.
  - cbn [start_count]. now apply mem_set_mono.
Qed.

Lemma count_line_start_counted lamb n0 c word count :
  mem (substring 0 n0 (START ++ word ++ END))
      (start_count (count_line lamb n0 c (word, count))) = true.
Proof.
  unfold count_line.
  apply fold_left_preserves
    with (P := fun c' => mem (substring 0 n0 (START ++ word ++ END))
                             (start_count c') = true).
  - intros s a Hs. exact Hs.
  - cbn [start_count]. apply mem_set_eq.
Qed.

Lemma count_line_trans_mono lamb n0 c line g g' :
  has_transition (trans_count c) g g' ->
  has_transition (trans_count (count_line lamb n0 c line)) g g'.
Proof.
  intros H. destruct line as [word count]. unfold count_line.
  apply fold_left_preserves
    with (P := fun c' => has_transition (trans_count c') g g').
  - intros s a Hs. now apply has_transition_count.
  - exact H.
Qed.

Lemma count_line_trans_counted lamb n0 c word count i :
  i < String.length (START ++ word ++ END) - n0 ->
  has_transition (trans_count (count_line lamb n0 c (word, count)))
                 (substring i n0 (START ++ word ++ END))
                 (substring (i + 1) n0 (START ++ word ++ END)).
Proof.
  intros Hi. unfold count_line.
  apply fold_left_establishes
    with (Q := fun i c' =>
                 has_transition (trans_count c')
                                (substring i n0 (START ++ word ++ END))
                                (substring (i + 1) n0 (START ++ word ++ END))).
  - intros s a. apply has_transition_counted.
  - intros a s b Hs. now apply has_transition_count.
  - apply in_seq. lia.
Qed.

(** After the counting loop, the start n-gram and every transition of every
    lexicon word are keys of the counters. *)
Lemma counts_cover lamb n0 lexicon word count :
  In (word, count) lexicon ->
  mem (substring 0 n0 (START ++ word ++ END))
      (start_count (fold_left (count_line lamb n0) lexicon counts_init)) = true
  /\ forall i,
       i < String.length (START ++ word ++ END) - n0 ->
       has_transition
         (trans_count (fold_left (count_line lamb n0) lexicon counts_init))
         (substring i n0 (START ++ word ++ END))
         (substring (i + 1) n0 (START ++ word ++ END)).
Proof.
  intros Hin.
  apply (fold_left_establishes
           (fun (line : string * Z) c =>
              mem (substring 0 n0 (START ++ fst line ++ END))
                  (start_count c) = true
              /\ forall i,
                   i < String.length (START ++ fst line ++ END) - n0 ->
                   has_transition
                     (trans_count c)
                     (substring i n0 (START ++ fst line ++ END))
                     (substring (i + 1) n0 (START ++ fst line ++ END)))
           (count_line lamb n0)) with (a := (word, count)); [| |exact Hin].
  - intros c [w k]. cbn [fst]. split.
    + apply count_line_start_counted.
    + intros i Hi. now apply count_line_trans_counted.
  - intros line c b [Hs Ht]. split.
    + now apply count_line_start_mono.
    + intros i Hi. apply count_line_trans_mono. now apply Ht.
Qed.

Lemma counts_NoDup lamb n0 lexicon :
  NoDup (keys (trans_count
                 (fold_left (count_line lamb n0) lexicon counts_init))).
Proof.
  apply fold_left_preserves
    with (P := fun c => NoDup (keys (trans_count c))).
  - intros c [word count] Hc. unfold count_line.
    apply fold_left_preserves
      with (P := fun c => NoDup (keys (trans_count c))).
    + intros s i Hs. cbn [count_transition trans_count].
      now apply NoDup_keys_set.
    + exact Hc.
  - constructor.
Qed.

(** *** The conversion to log-probabilities keeps the keys *)

Lemma set_log_prob_mem denominator :
  forall (d sp0 sp : dict num),
    foldM (set_log_prob denominator) d sp0 = Ok sp ->
    forall k, mem k d = true \/ mem k sp0 = true -> mem k sp = true.
Proof.
  induction d as [|[k1 v1] r IH]; cbn [foldM]; intros sp0 sp H k Hk.
  - inversion H; subst. destruct Hk as [Hk | Hk]; [discriminate | assumption].
  - inv_bind H. unfold set_log_prob in E. cbn [fst snd] in E.
    inv_binds. apply (IH _ _ H k).
    destruct Hk as [Hk | Hk].
    + apply mem_cons in Hk. destruct Hk as [-> | Hk]; [right | now left].
      apply mem_set_eq.
    + right. now apply mem_set_mono.
Qed.

Lemma train_row_covers lamb denominator nexts row :
  train_row lamb denominator nexts = Ok row ->
  forall k, mem k nexts = true -> mem k row = true.
Proof.
  unfold train_row. intros H k Hk. inv_bind H. inv_bind H. inv_bind H.
  inversion H; subst. apply mem_set_mono.
  eapply set_log_prob_mem; eauto.
Qed.

Lemma train_transitions_sets lamb trans_total tp ngram nexts tp' :
  train_transitions lamb trans_total tp (ngram, nexts) = Ok tp' ->
  exists row, tp' = set tp ngram row
              /\ forall k, mem k nexts = true -> mem k row = true.
Proof.
  unfold train_transitions. intros H. inv_bind H. inv_bind H.
  inversion H; subst. eexists. split; [reflexivity|].
  eapply train_row_covers; eauto.
Qed.

Lemma train_transitions_other lamb trans_total g :
  forall d tp tp',
    ~ In g (keys d) ->
    foldM (train_transitions lamb trans_total) d tp = Ok tp' ->
    get tp' g = get tp g.
Proof.
  induction d as [|[g1 n1] r IH]; cbn [foldM]; intros tp tp' Hnotin H.
  - now inversion H.
  - inv_bind H. apply train_transitions_sets in E.
    destruct E as (row & -> & _).
    rewrite (IH _ _ (fun Hin => Hnotin (or_intror Hin)) H).
    apply get_set_neq. intros ->. apply Hnotin. now left.
Qed.

Lemma train_transitions_cover lamb trans_total :
  forall d tp tp',
    NoDup (keys d) ->
    foldM (train_transitions lamb trans_total) d tp = Ok tp' ->
    forall g g', has_transition d g g' -> has_transition tp' g g'.
Proof.
  induction d as [|[g1 n1] r IH]; cbn [foldM]; intros tp tp' Hnd H g g' Hg.
  - destruct Hg as (row & Hrow & _). discriminate.
  - inversion Hnd as [|? ? Hnotin Hr]; subst.
    inv_bind H. destruct Hg as (nexts & Hget & Hmem). simpl in Hget.
    destruct (String.eqb g1 g) eqn:Eg.
    + apply String.eqb_eq in Eg. subst g1. injection Hget as ->.
      apply train_transitions_sets in E. destruct E as (row & -> & Hcov).
      exists row. split; [|now apply Hcov].
      rewrite (train_transitions_other _ _ _ _ _ _ Hnotin H).
      apply get_set_eq.
    + eapply IH; eauto. exists nexts. auto.
Qed.

(** *** Scoring a lexicon word *)

Lemma char_score_step_direct tp logp dbg g g' :
  has_transition tp g g' ->
  exists p, char_score_step tp (logp, dbg) g g'
            = Ok (add logp p, dbg ++ [Direct]).
Proof.
  intros (row & Hrow & Hmem). unfold char_score_step.
  assert (Hg : mem g tp = true) by (unfold mem; now rewrite Hrow).
  rewrite Hg. cbn [negb]. unfold getitem at 1. rewrite Hrow. cbn [lift bind].
  rewrite Hmem. cbn [negb].
  destruct (getitem_mem _ _ Hmem) as [p Hp]. rewrite Hp. cbn [bind]. eauto.
Qed.

Lemma char_score_trans_direct tp (f : nat -> string) :
  forall k a logp dbg,
    (forall i, a <= i < a + k -> has_transition tp (f i) (f (i + 1))) ->
    exists logp',
      char_score_trans tp (map f (seq a (S k))) (logp, dbg)
      = Ok (logp', dbg ++ repeat Direct k).
Proof.
  induction k as [|k IH]; intros a logp dbg H.
  - cbn. rewrite app_nil_r. eauto.
  - change (map f (seq a (S (S k))))
      with (f a :: f (S a) :: map f (seq (S (S a)) k)).
    rewrite char_score_trans_cons.
    destruct (char_score_step_direct tp logp dbg (f a) (f (S a))) as [p Hp].
    { rewrite <- (Nat.add_1_r a). apply H. lia. }
    rewrite Hp. cbn [bind].
    destruct (IH (S a) (add logp p) (dbg ++ [Direct])) as [logp' Hrun].
    { intros i Hi. apply H. lia. }
    exists logp'.
    change (f (S a) :: map f (seq (S (S a)) k))
      with (map f (seq (S a) (S k))).
    rewrite Hrun. now rewrite <- app_assoc.
Qed.

Lemma padded_length word :
  word <> ""%string -> 3 <= String.length (START ++ word ++ END).
Proof.
  destruct word as [|c w]; [congruence|]. intros _. cbn.
  destruct w; cbn; lia.
Qed.

(** X1. For an order of at most 3, a model constructed on a lexicon and then
    trained scores every word of that lexicon through direct entries only:
    the start n-gram is a key of [start_prob] and every transition is a key
    of its row of [trans_prob]. *)
Theorem train_self_consistent language0 n0 lexicon lw lamb m m' word count :
  n0 <= 3 ->
  word <> ""%string ->
  In (word, count) lexicon ->
  init language0 n0 lexicon lw = Ok m ->
  train m lamb = Ok m' ->
  exists logp,
    char_score_debug m' word
    = Ok (logp, repeat Direct (length (word2ngrams word n0))).
Proof.
  intros Hn Hword Hin Hinit Htrain.
  destruct (init_fields _ _ _ _ _ Hinit) as (Hn0 & Hlex & Hsp & Htp).
  pose proof (train_n _ _ _ Htrain) as Hn'.
  destruct (counts_cover lamb n0 lexicon word count Hin) as [Hstart Htrans].
  pose proof (counts_NoDup lamb n0 lexicon) as Hnd.
  pose proof (padded_length word Hword) as Hlen.
  unfold train in Htrain. rewrite Hn0, Hlex, Hsp, Htp in Htrain.
  inv_bind Htrain. inv_bind Htrain. inv_bind Htrain. inv_bind Htrain.
  inv_bind Htrain. inv_bind Htrain.
  inversion Htrain; subst m'; clear Htrain.
  match goal with
  | Hs : foldM (set_log_prob _) _ [] = Ok ?sp,
    Ht : foldM (train_transitions _ _) _ _ = Ok ?tp |- _ =>
      pose proof (set_log_prob_mem _ _ _ _ Hs _ (or_introl Hstart)) as Hs';
      pose proof (fun i Hi =>
                    train_transitions_cover _ _ _ _ _ Hnd Ht _ _
                                            (Htrans i Hi)) as Ht'
  end.
  unfold char_score_debug, word2ngrams. cbn [n start_prob trans_prob].
  assert (H4 : (4 <=? n0) = false) by (apply Nat.leb_gt; lia).
  rewrite H4.
  set (token := (START ++ word ++ END)%string) in *.
  replace (String.length token + 1 - n0) with (S (String.length token - n0))
    by lia.
  rewrite length_map, length_seq.
  cbn [seq map index nth_error lift bind].
  change (substring 0 n0 token
          :: map (fun i => substring i n0 token)
                 (seq 1 (String.length token - n0)))
    with (map (fun i => substring i n0 token)
              (seq 0 (S (String.length token - n0)))).
  match goal with
  | |- context [mem ?g (set ?sp UNKNOWN ?u)] =>
      assert (Hmem : mem g (set sp UNKNOWN u) = true)
        by (now apply mem_set_mono)
  end.
  rewrite Hmem. cbn [negb].
  destruct (getitem_mem _ _ Hmem) as [p Hp]. rewrite Hp. cbn [bind].
  match goal with
  | |- context [char_score_trans ?tp _ _] =>
      destruct (char_score_trans_direct tp (fun i => substring i n0 token)
                  (String.length token - n0) 0 (add (of_Z 0) p) [Direct])
        as [logp Hrun]
  end.
  { intros i Hi. apply Ht'. lia. }
  exists logp. rewrite Hrun. reflexivity.
Qed.

End SelfConsistency.

(** ** Lists updated in place *)

Section ListFacts.

Context {A : Type}.
Implicit Types (l : list A) (i j : nat) (x : A).

Lemma length_update l i x : length (update l i x) = length l.
Proof.
  revert i. induction l as [|y r IH]; intros [|i]; simpl; auto.
Qed.

Lemma nth_error_update_eq l i x :
  i < length l -> nth_error (update l i x) i = Some x.
Proof.
  revert i. induction l as [|y r IH]; intros [|i]; simpl; intros H;
    try lia; auto. apply IH. lia.
Qed.

Lemma nth_error_update_neq l i j x :
  i <> j -> nth_error (update l i x) j = nth_error l j.
Proof.
  revert i j. induction l as [|y r IH]; intros [|i] [|j]; simpl; intros H;
    auto; try congruence.
Qed.

Lemma setitem_Ok l i x :
  i < length l -> setitem l i x = Ok (update l i x).
Proof.
  intros H. unfold setitem. apply Nat.ltb_lt in H. now rewrite H.
Qed.

Lemma index_Ok l i x : nth_error l i = Some x -> index l i = Ok x.
Proof. unfold index. now intros ->. Qed.

Lemma index_last_Ok l x :
  nth_error l (length l - 1) = Some x -> index_last l = Ok x.
Proof.
  destruct l as [|y r]; [simpl; discriminate|].
  intros H. unfold index_last. now apply index_Ok.
Qed.

End ListFacts.

(** ** Scores and the independent decoder *)

Section Scores.

Context {N : PyFloat}.
Import LanguageIdentifier.

Variable self : LanguageIdentifier.t.

Lemma score_shape word d : score self word = Ok d -> scores_shape d.
Proof.
  unfold score, scores_shape. destruct (String.eqb word IGNORE).
  - intros [= <-]. cbn. eauto.
  - intros H.
    repeat first
      [ inv_bind H
      | match type of H with
        | (let '(_, _) := ?x in _) = _ => destruct x
        end ].
    match type of H with
    | (if ?b then _ else _) = _ => destruct b
    end; cbn [foldM] in H; inv_binds; cbn; eauto.
Qed.

Lemma scored_exists tokens :
  (forall token, In token tokens -> exists d, score self token = Ok d) ->
  exists scs, scored self tokens scs.
Proof.
  induction tokens as [|token r IH]; intros H.
  - exists []. constructor.
  - destruct IH as [scs Hscs]; [intros; apply H; now right|].
    destruct (H token (or_introl eq_refl)) as [d Hd].
    destruct (score_shape _ _ Hd) as (g & e & ->).
    exists ((g, e) :: scs). now constructor.
Qed.

Lemma scores_by_index tokens :
  (forall token, In token tokens -> exists d, score self token = Ok d) ->
  forall t, t < length tokens ->
            exists token d,
              nth_error tokens t = Some token /\ score self token = Ok d.
Proof.
  intros H t Ht.
  destruct (nth_error tokens t) as [token|] eqn:E;
    [|apply nth_error_None in E; lia].
  destruct (H token (nth_error_In _ _ E)) as [d Hd]. eauto.
Qed.

Lemma choose_is_code sc : is_code (choose sc).
Proof. unfold choose, is_code. destruct (leb _ _); auto. Qed.

Lemma scored_nth tokens scs t token :
  scored self tokens scs ->
  nth_error tokens t = Some token ->
  exists sc, nth_error scs t = Some sc
             /\ score self token = Ok [(GA, fst sc); (EN, snd sc)].
Proof.
  intros H. revert t. induction H as [|tok sc tokens scs Hsc _ IH];
    intros [|t]; simpl; try discriminate.
  - intros [= <-]. eauto.
  - apply IH.
Qed.

Lemma identify_independent_loop tokens scs :
  scored self tokens scs ->
  forall languages,
    foldM (fun languages token =>
             scores <- score self token ;;
             g <- getitem scores GA ;;
             e <- getitem scores EN ;;
             if leb e g
             then Ok (languages ++ [PyStr GA])
             else Ok (languages ++ [PyStr EN]))
          tokens languages
    = Ok (languages ++ map (fun sc => PyStr (choose sc)) scs).
Proof.
  induction 1 as [|token sc tokens scs Hsc _ IH]; intros languages.
  - simpl. now rewrite app_nil_r.
  - cbn [foldM]. rewrite Hsc. cbn. unfold choose in *.
    destruct (leb (snd sc) (fst sc)); cbn [bind]; rewrite IH;
      now rewrite <- app_assoc.
Qed.

Lemma identify_independent_eq tokens scs :
  scored self tokens scs ->
  identify_independent self tokens
  = Ok (map (fun sc => PyStr (choose sc)) scs).
Proof.
  intros H. unfold identify_independent.
  now rewrite (identify_independent_loop _ _ H).
Qed.

End Scores.

(** ** The Viterbi decoder, step by step *)

Section Viterbi.

Context {N : PyFloat}.
Import LanguageIdentifier.

Variable self : LanguageIdentifier.t.

Lemma getitem_GA {A : Type} (g e : A) : getitem [(GA, g); (EN, e)] GA = Ok g.
Proof. reflexivity. Qed.

Lemma getitem_EN {A : Type} (g e : A) : getitem [(GA, g); (EN, e)] EN = Ok e.
Proof. reflexivity. Qed.

Lemma max_argmax_two x y :
  max_argmax [x; y] = Ok (if ltb x y then (1, y) else (0, x)).
Proof. reflexivity. Qed.

Lemma term_eq p lp lp' a b sg se :
  log p = Some lp ->
  log (sub (of_Z 1) p) = Some lp' ->
  term [(GA, a); (EN, b)] (trans_p p) [(GA, sg); (EN, se)] GA
  = Ok [add (add a lp) sg; add (add b lp') sg]
  /\ term [(GA, a); (EN, b)] (trans_p p) [(GA, sg); (EN, se)] EN
     = Ok [add (add a lp') se; add (add b lp) se].
Proof.
  intros H1 H2. unfold term, math_log. cbn. rewrite H1, H2. cbn. auto.
Qed.

(** The dicts [V[t]] and [S[t]] computed from [V[t-1] = {GA: a, EN: b}] and
    the scores [{GA: sg, EN: se}] of [tokens[t]]. *)
Lemma viterbi_step_eq tokens p lp lp' (V : list (dict num))
    (S' : list (dict string)) t token a b sg se :
  log p = Some lp ->
  log (sub (of_Z 1) p) = Some lp' ->
  nth_error tokens t = Some token ->
  score self token = Ok [(GA, sg); (EN, se)] ->
  nth_error V (t - 1) = Some [(GA, a); (EN, b)] ->
  viterbi_step self tokens (trans_p p) (V, S') t
  = Ok (V ++ [[(GA, if ltb (add (add a lp) sg) (add (add b lp') sg)
                    then add (add b lp') sg else add (add a lp) sg);
               (EN, if ltb (add (add a lp') se) (add (add b lp) se)
                    then add (add b lp) se else add (add a lp') se)]],
        S' ++ [[(GA, if ltb (add (add a lp) sg) (add (add b lp') sg)
                     then EN else GA);
                (EN, if ltb (add (add a lp') se) (add (add b lp) se)
                     then EN else GA)]]).
Proof.
  intros Hlp Hlp' Htok Hsc HV. unfold viterbi_step.
  rewrite (index_Ok _ _ _ Htok). cbn [bind]. rewrite Hsc. cbn [bind].
  rewrite (index_Ok _ _ _ HV). cbn [bind].
  destruct (term_eq p lp lp' a b sg se Hlp Hlp') as [Tg Te].
  unfold langs. cbn [foldM].
  rewrite Tg. cbn [bind]. rewrite max_argmax_two.
  destruct (ltb (add (add a lp) sg) (add (add b lp') sg));
    cbn [bind index nth_error lift fst snd]; rewrite Te; cbn [bind];
    rewrite max_argmax_two;
    destruct (ltb (add (add a lp') se) (add (add b lp) se)); reflexivity.
Qed.

(** What follows the forward pass: the final argmax and the backtrack. *)
Lemma identify_viterbi_eq token rest p q lq lq' g e (V : list (dict num))
    (S' : list (dict string)) a b :
  score self token = Ok [(GA, g); (EN, e)] ->
  log q = Some lq ->
  log (sub (of_Z 1) q) = Some lq' ->
  foldM (viterbi_step self (token :: rest) (trans_p p))
        (seq 1 (length rest))
        ([[(GA, add lq g); (EN, add lq' e)]], [[]])
  = Ok (V, S') ->
  nth_error V (length V - 1) = Some [(GA, a); (EN, b)] ->
  identify_viterbi self (token :: rest) p q
  = foldM (backtrack_step S') (rev (seq 1 (length rest)))
          (update (repeat (PyInt 0) (S (length rest))) (length rest)
                  (PyStr (if ltb a b then EN else GA))).
Proof.
  intros Hsc Hq Hq' Hfwd Hlast. unfold identify_viterbi.
  cbn [index nth_error lift bind]. rewrite Hsc. cbn [bind].
  unfold math_log. rewrite Hq, Hq'. cbn [lift bind].
  rewrite getitem_GA, getitem_EN. cbn [bind length Nat.sub].
  rewrite Nat.sub_0_r.
  change (set (set [] GA (add lq g)) EN (add lq' e))
    with [(GA, add lq g); (EN, add lq' e)].
  rewrite Hfwd. cbn [bind]. rewrite (index_last_Ok _ _ Hlast). cbn [bind].
  unfold langs. cbn [mapM]. rewrite getitem_GA, getitem_EN. cbn [bind].
  rewrite max_argmax_two.
  assert (Hset : forall v,
             setitem_last (repeat (PyInt 0) (S (length rest))) v
             = Ok (update (repeat (PyInt 0) (S (length rest)))
                          (length rest) v)).
  { intros v. unfold setitem_last. cbn [repeat].
    rewrite setitem_Ok; cbn [length]; rewrite repeat_length; [|lia].
    now replace (S (length rest) - 1) with (length rest) by lia. }
  destruct (ltb a b); cbn [bind index nth_error lift]; rewrite Hset;
    reflexivity.
Qed.

(** An exception of the forward pass is the exception of the decoder. *)
Lemma identify_viterbi_forward_raises token rest p q lq lq' g e err :
  score self token = Ok [(GA, g); (EN, e)] ->
  log q = Some lq ->
  log (sub (of_Z 1) q) = Some lq' ->
  foldM (viterbi_step self (token :: rest) (trans_p p))
        (seq 1 (length rest))
        ([[(GA, add lq g); (EN, add lq' e)]], [[]])
  = Raise err ->
  identify_viterbi self (token :: rest) p q = Raise err.
Proof.
  intros Hsc Hq Hq' Hfwd. unfold identify_viterbi.
  cbn [index nth_error lift bind]. rewrite Hsc. cbn [bind].
  unfold math_log. rewrite Hq, Hq'. cbn [lift bind].
  rewrite getitem_GA, getitem_EN. cbn [bind length Nat.sub].
  rewrite Nat.sub_0_r.
  change (set (set [] GA (add lq g)) EN (add lq' e))
    with [(GA, add lq g); (EN, add lq' e)].
  rewrite Hfwd. reflexivity.
Qed.

Lemma viterbi_step_score_raises tokens tp VS t token err :
  nth_error tokens t = Some token ->
  score self token = Raise err ->
  viterbi_step self tokens tp VS t = Raise err.
Proof.
  intros Htok Hsc. destruct VS as [V S']. unfold viterbi_step.
  rewrite (index_Ok _ _ _ Htok). cbn [bind]. now rewrite Hsc.
Qed.

(** With a transition probability [p] such that [1 - p] has no logarithm,
    the first step of the forward pass raises [ValueError]. *)
Lemma viterbi_step_log_raises tokens p lp (V : list (dict num))
    (S' : list (dict string)) t token a b sg se :
  log p = Some lp ->
  log (sub (of_Z 1) p) = None ->
  nth_error tokens t = Some token ->
  score self token = Ok [(GA, sg); (EN, se)] ->
  nth_error V (t - 1) = Some [(GA, a); (EN, b)] ->
  viterbi_step self tokens (trans_p p) (V, S') t = Raise ValueError.
Proof.
  intros Hlp Hlp' Htok Hsc HV. unfold viterbi_step.
  rewrite (index_Ok _ _ _ Htok). cbn [bind]. rewrite Hsc. cbn [bind].
  rewrite (index_Ok _ _ _ HV). cbn [bind].
  assert (Hterm : term [(GA, a); (EN, b)] (trans_p p) [(GA, sg); (EN, se)] GA
                  = Raise ValueError).
  { unfold term, math_log. cbn. rewrite Hlp, Hlp'. reflexivity. }
  unfold langs. cbn [foldM]. rewrite Hterm. reflexivity.
Qed.

(** The forward pass fills one well-shaped [V[t]] and [S[t]] per token, as
    far as the tokens have scores. *)
Lemma forward_shapes tokens p lp lp' bound :
  (forall t, t < bound ->
             exists token d,
               nth_error tokens t = Some token /\ score self token = Ok d) ->
  log p = Some lp ->
  log (sub (of_Z 1) p) = Some lp' ->
  forall k t0 (V : list (dict num)) (S' : list (dict string)),
    1 <= t0 -> t0 + k = bound ->
    length V = t0 -> length S' = t0 ->
    Forall scores_shape V ->
    (forall t, 1 <= t < t0 ->
               exists d, nth_error S' t = Some d /\ backpointers_shape d) ->
    exists V1 S1,
      foldM (viterbi_step self tokens (trans_p p)) (seq t0 k) (V, S')
      = Ok (V1, S1)
      /\ length V1 = bound
      /\ Forall scores_shape V1
      /\ (forall t, 1 <= t < bound ->
                    exists d, nth_error S1 t = Some d /\ backpointers_shape d).
Proof.
  intros Hsc Hlp Hlp'.
  induction k as [|k IH]; intros t0 V S' Ht0 Hlen HV HS HVs HSs.
  - exists V, S'. cbn [seq foldM]. repeat split; auto; try lia.
    intros t Ht. apply HSs. lia.
  - cbn [seq foldM].
    destruct (Hsc t0) as (token & d0 & Etok & Hscore); [lia|].
    destruct (score_shape self _ _ Hscore) as (sg & se & ->).
    destruct (nth_error V (t0 - 1)) as [d|] eqn:EV;
      [|apply nth_error_None in EV; lia].
    assert (Hd : scores_shape d).
    { eapply Forall_forall; [exact HVs|]. eapply nth_error_In; eauto. }
    destruct Hd as (a & b & ->).
    rewrite (viterbi_step_eq tokens p lp lp' V S' t0 token a b sg se
               Hlp Hlp' Etok Hscore EV).
    cbn [bind]. apply IH; try lia.
    + rewrite length_app. simpl. lia.
    + rewrite length_app. simpl. lia.
    + apply Forall_app. split; [assumption|].
      constructor; [|constructor]. red. eauto.
    + intros t Ht. destruct (Nat.eq_dec t t0) as [->|Hne].
      * rewrite nth_error_app2 by lia. rewrite HS, Nat.sub_diag. simpl.
        eexists. split; [reflexivity|]. red.
        do 2 eexists. split; [reflexivity|].
        unfold is_code.
        split; match goal with |- context [if ?c then _ else _] =>
                                 destruct c end; auto.
      * rewrite nth_error_app1 by lia. apply HSs. lia.
Qed.

(** The backtrack loop keeps any property [P] of the cells that the
    backpointer dicts propagate from position [t] to position [t - 1]. *)
Lemma backtrack_invariant (P : nat -> pyval -> Prop) (S' : list (dict string))
    (len : nat) :
  (forall t v, 1 <= t < len -> P t v ->
               exists St lang prev,
                 nth_error S' t = Some St /\ v = PyStr lang
                 /\ get St lang = Some prev /\ P (t - 1) (PyStr prev)) ->
  forall k languages,
    k < len -> length languages = len ->
    (forall i, k <= i < len ->
               exists v, nth_error languages i = Some v /\ P i v) ->
    exists ls,
      foldM (backtrack_step S') (rev (seq 1 k)) languages = Ok ls
      /\ length ls = len
      /\ (forall i, i < len -> exists v, nth_error ls i = Some v /\ P i v).
Proof.
  intros Hstep. induction k as [|k IH]; intros languages Hk Hlen HP.
  - exists languages. cbn. repeat split; auto. intros i Hi. apply HP. lia.
  - rewrite seq_S, rev_unit. cbn [foldM Nat.add].
    destruct (HP (S k)) as (v & Ev & Pv); [lia|].
    destruct (Hstep (S k) v) as (St & lang & prev & ES & -> & Eprev & Pprev);
      [lia | assumption |].
    unfold backtrack_step. rewrite (index_Ok _ _ _ ES). cbn [bind].
    rewrite (index_Ok _ _ _ Ev). cbn [bind].
    unfold getitem. rewrite Eprev. cbn [lift bind].
    rewrite setitem_Ok by (simpl; lia). cbn [bind].
    apply IH; [lia | now rewrite length_update |].
    intros i Hi. replace (S k - 1) with k in * by lia.
    destruct (Nat.eq_dec i k) as [->|Hne].
    + rewrite nth_error_update_eq by lia. eauto.
    + rewrite nth_error_update_neq by lia. apply HP. lia.
Qed.

End Viterbi.

(** ** The decoded sequence *)

Section Decode.

Context {N : PyFloat}.
Import LanguageIdentifier.

Variable self : LanguageIdentifier.t.

Lemma Forall_of_nth_error {A : Type} (P : A -> Prop) (l : list A) :
  (forall i, i < length l -> exists v, nth_error l i = Some v /\ P v) ->
  Forall P l.
Proof.
  intros H. apply Forall_forall. intros x Hx.
  destruct (In_nth_error _ _ Hx) as [i Hi].
  destruct (H i) as (v & Ev & Pv).
  - apply nth_error_Some. congruence.
  - congruence.
Qed.

Lemma identify_viterbi_labels tokens p q :
  tokens <> [] ->
  (forall token, In token tokens -> exists d, score self token = Ok d) ->
  log p <> None -> log (sub (of_Z 1) p) <> None ->
  log q <> None -> log (sub (of_Z 1) q) <> None ->
  exists languages,
    identify_viterbi self tokens p q = Ok languages
    /\ length languages = length tokens
    /\ Forall is_label languages.
Proof.
  intros Hne Hscores Hp Hp' Hq Hq'.
  destruct (log p) as [lp|] eqn:Elp; [|congruence].
  destruct (log (sub (of_Z 1) p)) as [lp'|] eqn:Elp'; [|congruence].
  destruct (log q) as [lq|] eqn:Elq; [|congruence].
  destruct (log (sub (of_Z 1) q)) as [lq'|] eqn:Elq'; [|congruence].
  destruct (scored_exists self tokens Hscores) as [scs Hsc].
  destruct tokens as [|token rest]; [congruence|].
  pose proof Hsc as Hsc0. inversion Hsc0 as [|? sc ? scs' Htok _]; subst.
  destruct (forward_shapes self (token :: rest) p lp lp'
              (length (token :: rest))
              (scores_by_index self _ Hscores) Elp Elp'
              (length rest) 1
              [[(GA, add lq (fst sc)); (EN, add lq' (snd sc))]] [[]])
    as (V1 & S1 & Hfwd & HlenV & HVs & HSs); simpl; try lia.
  - constructor; [|constructor]. red. eauto.
  - destruct (nth_error V1 (length V1 - 1)) as [d|] eqn:Elast;
      [|apply nth_error_None in Elast; simpl in HlenV; lia].
    assert (Hd : scores_shape d).
    { eapply Forall_forall; [exact HVs|]. eapply nth_error_In; eauto. }
    destruct Hd as (a & b & ->).
    rewrite (identify_viterbi_eq self token rest p q lq lq' _ _ V1 S1 a b
               Htok Elq Elq' Hfwd Elast).
    destruct (backtrack_invariant (fun _ v => is_label v) S1 (S (length rest)))
      with (k := length rest)
           (languages := update (repeat (PyInt 0) (S (length rest)))
                                (length rest)
                                (PyStr (if ltb a b then EN else GA)))
      as (ls & Hls & Hlen & Hlab).
    + intros t v Ht Hv. destruct (HSs t) as (St & ES & l1 & l2 & -> & H1 & H2);
        [simpl; lia|].
      destruct Hv as [-> | ->].
      * exists [(GA, l1); (EN, l2)], GA, l1. repeat split; auto.
        destruct H1 as [-> | ->]; [left | right]; reflexivity.
      * exists [(GA, l1); (EN, l2)], EN, l2. repeat split; auto.
        destruct H2 as [-> | ->]; [left | right]; reflexivity.
    + lia.
    + now rewrite length_update, repeat_length.
    + intros i Hi. assert (i = length rest) as -> by lia.
      rewrite nth_error_update_eq by (rewrite repeat_length; lia).
      eexists. split; [reflexivity|].
      destruct (ltb a b); [right | left]; reflexivity.
    + exists ls. repeat split; [assumption | simpl; lia |].
      apply Forall_of_nth_error. rewrite Hlen. exact Hlab.
Qed.

Lemma identify_independent_labels tokens :
  (forall token, In token tokens -> exists d, score self token = Ok d) ->
  exists languages,
    identify_independent self tokens = Ok languages
    /\ length languages = length tokens
    /\ Forall is_label languages.
Proof.
  intros Hscores.
  destruct (scored_exists self tokens Hscores) as [scs Hsc].
  exists (map (fun sc => PyStr (choose sc)) scs). repeat split.
  - now apply identify_independent_eq.
  - rewrite length_map. symmetry. eapply Forall2_length. exact Hsc.
  - apply Forall_map, Forall_forall. intros sc _.
    destruct (choose_is_code sc) as [-> | ->]; [left | right]; reflexivity.
Qed.

(** Either every token has a score, or some first token has none. *)
Lemma first_unscored tokens :
  (forall token, In token tokens -> exists d, score self token = Ok d)
  \/ exists pre token post err,
       tokens = pre ++ token :: post
       /\ (forall t, In t pre -> exists d, score self t = Ok d)
       /\ score self token = Raise err.
Proof.
  induction tokens as [|token r IH].
  - left. intros token [].
  - destruct (score self token) as [d|err] eqn:Hsc.
    + destruct IH as [IH | (pre & tok & post & err & -> & Hpre & Herr)].
      * left. intros t [<- | Ht]; eauto.
      * right. exists (token :: pre), tok, post, err.
        repeat split; auto. intros t [<- | Ht]; eauto.
    + right. exists [], token, r, err. repeat split; auto. intros t [].
Qed.

Lemma identify_independent_raises pre token post err :
  (forall t, In t pre -> exists d, score self t = Ok d) ->
  score self token = Raise err ->
  identify_independent self (pre ++ token :: post) = Raise err.
Proof.
  intros Hpre Herr. destruct (scored_exists self pre Hpre) as [scs Hsc].
  unfold identify_independent. rewrite foldM_app.
  rewrite (identify_independent_loop self pre scs Hsc).
  cbn [bind foldM]. now rewrite Herr.
Qed.

Lemma identify_viterbi_raises pre token post err p q :
  (forall t, In t pre -> exists d, score self t = Ok d) ->
  score self token = Raise err ->
  log p <> None -> log (sub (of_Z 1) p) <> None ->
  log q <> None -> log (sub (of_Z 1) q) <> None ->
  identify_viterbi self (pre ++ token :: post) p q = Raise err.
Proof.
  intros Hpre Herr Hp Hp' Hq Hq'.
  destruct (log p) as [lp|] eqn:Elp; [|congruence].
  destruct (log (sub (of_Z 1) p)) as [lp'|] eqn:Elp'; [|congruence].
  destruct (log q) as [lq|] eqn:Elq; [|congruence].
  destruct (log (sub (of_Z 1) q)) as [lq'|] eqn:Elq'; [|congruence].
  destruct pre as [|token0 pre].
  - cbn [app]. unfold identify_viterbi. cbn [index nth_error lift bind].
    now rewrite Herr.
  - destruct (Hpre token0 (or_introl eq_refl)) as [d0 Hd0].
    destruct (score_shape self _ _ Hd0) as (g0 & e0 & ->).
    cbn [app].
    apply (identify_viterbi_forward_raises self token0 (pre ++ token :: post)
             p q lq lq' g0 e0 err Hd0 Elq Elq').
    rewrite length_app. cbn [length]. rewrite seq_app, foldM_app.
    destruct (forward_shapes self (token0 :: pre ++ token :: post) p lp lp'
                (S (length pre)))
      with (k := length pre) (t0 := 1)
           (V := [[(GA, add lq g0); (EN, add lq' e0)]])
           (S' := [[] : dict string])
      as (V1 & S1 & Hfwd & _); try (simpl; lia); try assumption.
    + intros t Ht.
      destruct (scores_by_index self (token0 :: pre) Hpre t Ht)
        as (tok & d & Etok & Hd).
      exists tok, d. split; [|assumption].
      change (token0 :: pre ++ token :: post)
        with ((token0 :: pre) ++ token :: post).
      now rewrite nth_error_app1.
    + constructor; [|constructor]. red. eauto.
    + rewrite Hfwd. cbn [bind seq foldM].
      rewrite (viterbi_step_score_raises self _ _ _ _ token err);
        [reflexivity | | assumption].
      change (token0 :: pre ++ token :: post)
        with ((token0 :: pre) ++ token :: post).
      rewrite nth_error_app2 by (simpl; lia).
      cbn [length Nat.add]. now rewrite Nat.sub_diag.
Qed.

(** C1 (as the code has it). For a non-empty token list whose tokens all
    get a score, [identify] returns a list of the length of the input in
    which every cell is one of the two language codes: in independent mode
    always, in Viterbi mode when the logarithms of the two priors and of
    their complements exist. *)
Theorem identify_labels (tokens : list string) (method : string) (p q : num) :
  tokens <> [] ->
  (forall token, In token tokens -> exists d, score self token = Ok d) ->
  method = "independent"%string
  \/ (method = "viterbi"%string
      /\ log p <> None /\ log (sub (of_Z 1) p) <> None
      /\ log q <> None /\ log (sub (of_Z 1) q) <> None) ->
  exists languages,
    identify self tokens method p q = Ok (Some languages)
    /\ length languages = length tokens
    /\ Forall is_label languages.
Proof.
  intros Hne Hscores Hmethod. unfold identify, identify_method.
  destruct ((length tokens =? 1)
            && match tokens with
               | token :: _ => String.eqb (lower token) "sea"
               | [] => false
               end) eqn:Esea.
  - apply andb_prop in Esea. destruct Esea as [Hlen _].
    apply Nat.eqb_eq in Hlen.
    exists [PyStr GA]. repeat split; auto.
    constructor; [left; reflexivity | constructor].
  - destruct Hmethod as [-> | (-> & Hp & Hp' & Hq & Hq')];
      cbn [String.eqb Ascii.eqb Bool.eqb].
    + destruct (identify_independent_labels tokens Hscores)
        as (ls & -> & Hlen & Hlab).
      cbn [bind]. eauto.
    + destruct (identify_viterbi_labels tokens p q Hne Hscores Hp Hp' Hq Hq')
        as (ls & -> & Hlen & Hlab).
      cbn [bind]. eauto.
Qed.

End Decode.

(** ** The score combiner *)

Section Combiner.

Context {N : PyFloat}.
Import LanguageIdentifier.

Variable self : LanguageIdentifier.t.

Lemma set_both {A : Type} (g e : A) :
  set (set [] GA g) EN e = [(GA, g); (EN, e)].
Proof. reflexivity. Qed.

(** C7. For a token other than the ignore sentinel (which [score] answers
    before it looks anything up):
    when the raw lexicon score of each language equals that language's raw
    out-of-vocabulary score, [score] returns for each language the logarithm
    of its relative character score; the weight and the relative lexicon
    scores do not enter the result. *)
Theorem score_both_oov word lg le og oe cg ce xg xe rg re wg we :
  word <> IGNORE ->
  raw_lex_score self GA word = Ok lg ->
  raw_lex_score self EN word = Ok le ->
  raw_lex_score self GA LanguageModel.OOV = Ok og ->
  raw_lex_score self EN LanguageModel.OOV = Ok oe ->
  eqb lg og = true ->
  eqb le oe = true ->
  raw_char_score self GA word = Ok cg ->
  raw_char_score self EN word = Ok ce ->
  fdiv lg (add lg le) = Ok xg ->
  fdiv le (add lg le) = Ok xe ->
  fdiv cg (add cg ce) = Ok rg ->
  fdiv ce (add cg ce) = Ok re ->
  math_log rg = Ok wg ->
  math_log re = Ok we ->
  score self word = Ok [(GA, wg); (EN, we)].
Proof.
  intros Hne Hlg Hle Hog Hoe Eg Ee Hcg Hce Hxg Hxe Hrg Hre Hwg Hwe.
  unfold score. apply String.eqb_neq in Hne. rewrite Hne.
  cbn [foldM]. rewrite Hlg, Hcg, Hle, Hce. cbn [bind fst snd].
  rewrite !set_both. unfold relative.
  rewrite !getitem_GA, !getitem_EN. cbn [bind].
  rewrite Hxg, Hrg, Hxe, Hre. cbn [bind fst snd]. rewrite !set_both.
  rewrite !getitem_GA, !getitem_EN. cbn [bind].
  rewrite Hog. cbn [bind]. rewrite Eg, Hoe. cbn [bind]. rewrite Ee.
  cbn [bind]. rewrite Hwg, Hwe. cbn [bind]. now rewrite set_both.
Qed.

End Combiner.

(** ** The Viterbi decoder and its recurrences *)

Section Backtrace.

Lemma last_indep {A : Type} (l : list A) (c d d' : A) :
  last (c :: l) d = last (c :: l) d'.
Proof.
  revert c. induction l as [|x l IH]; intros c; [reflexivity|].
  change (last (x :: l) d = last (x :: l) d'). apply IH.
Qed.

Lemma last_cons_default {A : Type} (l : list A) (b d : A) :
  last (b :: l) d = last l b.
Proof.
  destruct l as [|c l]; [reflexivity|].
  change (last (c :: l) d = last (c :: l) b). apply last_indep.
Qed.

Lemma backtrace_length (T : list (bool * bool)) (b : bool) :
  length (backtrace T b) = S (length T).
Proof. induction T as [|s T IH]; cbn; auto. Qed.

Lemma backtrace_cons (T : list (bool * bool)) (b : bool) :
  exists b0 rest, backtrace T b = b0 :: rest /\ length rest = length T.
Proof.
  pose proof (backtrace_length T b) as H.
  destruct (backtrace T b) as [|b0 rest]; [discriminate|].
  exists b0, rest. split; [reflexivity | now injection H].
Qed.

Lemma backtrace_last (T : list (bool * bool)) (b : bool) :
  nth_error (backtrace T b) (length T) = Some b.
Proof. induction T as [|s T IH]; cbn; auto. Qed.

Lemma backtrace_nth (b : bool) :
  forall (T : list (bool * bool)) (i : nat) (s : bool * bool),
    nth_error T i = Some s ->
    exists bi,
      nth_error (backtrace T b) (S i) = Some bi
      /\ nth_error (backtrace T b) i = Some (pick s bi).
Proof.
  induction T as [|s0 T IH]; intros [|i] s Hs; try discriminate.
  - cbn in Hs. injection Hs as <-. cbn [backtrace nth_error].
    destruct (backtrace_cons T b) as (b0 & rest & -> & _).
    exists b0. split; reflexivity.
  - cbn in Hs. destruct (IH i s Hs) as (bi & H1 & H2).
    exists bi. cbn [backtrace nth_error]. auto.
Qed.


End Backtrace.

Section ViterbiRefinement.

Context {N : PyFloat}.
Import LanguageIdentifier.

Variable self : LanguageIdentifier.t.

Lemma candidate_next_S (lp lp' : num) (v sc : num * num) (b' : bool) :
  candidate lp lp' v sc (pick (next_S lp lp' v sc) b') b'
  = pick (next_V lp lp' v sc) b'.
Proof. unfold next_V. destruct b'; reflexivity. Qed.

(** The forward loop computes [forward]. *)
Lemma forward_eq (tokens : list string) (p lp lp' : num) :
  log p = Some lp ->
  log (sub (of_Z 1) p) = Some lp' ->
  forall (scs : list (num * num)) (t0 : nat) (V : list (dict num))
         (S' : list (dict string)) (v : num * num),
    1 <= t0 ->
    length V = t0 ->
    nth_error V (t0 - 1) = Some (V_dict v) ->
    (forall i sc, nth_error scs i = Some sc ->
                  exists token,
                    nth_error tokens (t0 + i) = Some token
                    /\ score self token = Ok [(GA, fst sc); (EN, snd sc)]) ->
    foldM (viterbi_step self tokens (trans_p p))
          (seq t0 (length scs)) (V, S')
    = Ok (V ++ map (fun e => V_dict (fst e)) (forward lp lp' v scs),
          S' ++ map (fun e => S_dict (snd e)) (forward lp lp' v scs)).
Proof.
  intros Hlp Hlp'.
  induction scs as [|sc scs IH]; intros t0 V S' v Ht0 HV Hprev Hsc.
  - cbn. now rewrite !app_nil_r.
  - cbn [length seq foldM forward map].
    destruct (Hsc 0 sc eq_refl) as (token & Etok & Hscore).
    rewrite Nat.add_0_r in Etok.
    rewrite (viterbi_step_eq self tokens p lp lp' V S' t0
               token (fst v) (snd v) (fst sc) (snd sc)
               Hlp Hlp' Etok Hscore Hprev).
    cbn [bind].
    match goal with
    | |- foldM _ _ (V ++ [?Vt], S' ++ [?St]) = _ =>
        replace Vt with (V_dict (next_V lp lp' v sc));
        [replace St with (S_dict (next_S lp lp' v sc))|]
    end.
    + rewrite (IH (S t0) (V ++ [V_dict (next_V lp lp' v sc)])
                  (S' ++ [S_dict (next_S lp lp' v sc)])
                  (next_V lp lp' v sc)).
      * now rewrite <- !app_assoc.
      * lia.
      * rewrite length_app. cbn. lia.
      * rewrite nth_error_app2 by lia.
        replace (S t0 - 1 - length V) with 0 by lia. reflexivity.
      * intros i sc' Hi. destruct (Hsc (S i) sc' Hi) as (tok & E1 & E2).
        exists tok. split; [|assumption].
        now replace (S t0 + i) with (t0 + S i) by lia.
    + unfold S_dict, next_S, candidate, trans_logp, pick, code.
      cbn [fst snd Bool.eqb].
      repeat match goal with
             | |- context [ltb ?x ?y] => destruct (ltb x y)
             end; reflexivity.
    + unfold V_dict, next_V, next_S, candidate, trans_logp, pick.
      cbn [fst snd Bool.eqb].
      repeat match goal with
             | |- context [ltb ?x ?y] => destruct (ltb x y)
             end; reflexivity.
Qed.

Lemma forward_last (lp lp' : num) :
  forall (scs : list (num * num)) (v : num * num) (pre : list (dict num)),
    nth_error (pre ++ V_dict v
                   :: map (fun e => V_dict (fst e)) (forward lp lp' v scs))
              (length pre + length scs)
    = Some (V_dict (final_V lp lp' v scs)).
Proof.
  induction scs as [|sc scs IH]; intros v pre.
  - rewrite Nat.add_0_r, nth_error_app2, Nat.sub_diag by lia. reflexivity.
  - cbn [forward map final_V fold_left length].
    specialize (IH (next_V lp lp' v sc) (pre ++ [V_dict v])).
    rewrite <- app_assoc, length_app in IH. cbn [length app] in IH.
    replace (length pre + S (length scs))
      with (length pre + 1 + length scs) by lia.
    exact IH.
Qed.

Lemma length_forward (lp lp' : num) :
  forall (scs : list (num * num)) (v : num * num),
    length (forward lp lp' v scs) = length scs.
Proof. induction scs as [|sc scs IH]; intros v; cbn; auto. Qed.

Lemma get_S_dict (s : bool * bool) (b : bool) :
  get (S_dict s) (code b) = Some (code (pick s b)).
Proof. destruct b; reflexivity. Qed.

(** The decoder returns the backtraced path. *)
Lemma identify_viterbi_path (token : string) (rest : list string)
    (sc : num * num) (scs : list (num * num)) (p q lp lp' lq lq' : num) :
  scored self (token :: rest) (sc :: scs) ->
  log p = Some lp ->
  log (sub (of_Z 1) p) = Some lp' ->
  log q = Some lq ->
  log (sub (of_Z 1) q) = Some lq' ->
  identify_viterbi self (token :: rest) p q
  = Ok (map (fun b => PyStr (code b)) (viterbi_path lp lp' lq lq' sc scs)).
Proof.
  intros Hsc Hlp Hlp' Hlq Hlq'.
  pose proof (Forall2_length Hsc) as Hlens. cbn [length] in Hlens.
  injection Hlens as Hlens.
  inversion Hsc as [|? ? ? ? Htok Hrest]; subst.
  set (v0 := (add lq (fst sc), add lq' (snd sc))).
  set (T := forward lp lp' v0 scs).
  assert (HlenT : length T = length rest)
    by (unfold T; rewrite length_forward; lia).
  assert (Hfwd : foldM (viterbi_step self (token :: rest) (trans_p p))
                       (seq 1 (length rest))
                       ([[(GA, add lq (fst sc)); (EN, add lq' (snd sc))]],
                        [[]])
                 = Ok ([V_dict v0] ++ map (fun e => V_dict (fst e)) T,
                       [[]] ++ map (fun e => S_dict (snd e)) T)).
  { rewrite Hlens.
    apply (forward_eq (token :: rest) p lp lp' Hlp Hlp' scs 1
             [V_dict v0] [[]] v0);
      [lia | reflexivity | reflexivity |].
    intros i sci Hi. cbn [Nat.add nth_error].
    destruct (nth_error rest i) as [tok|] eqn:Etok.
    - destruct (scored_nth self rest scs i tok Hrest Etok) as (sc' & E1 & E2).
      exists tok. split; [reflexivity|].
      rewrite Hi in E1. injection E1 as <-. exact E2.
    - apply nth_error_None in Etok.
      assert (Hi' : i < length scs)
        by (apply nth_error_Some; rewrite Hi; discriminate).
      lia. }
  set (v := final_V lp lp' v0 scs).
  assert (Hlast : nth_error ([V_dict v0] ++ map (fun e => V_dict (fst e)) T)
                            (length ([V_dict v0]
                                     ++ map (fun e => V_dict (fst e)) T) - 1)
                  = Some [(GA, fst v); (EN, snd v)]).
  { rewrite length_app, length_map, HlenT. cbn [length].
    replace (1 + length rest - 1) with (length rest) by lia.
    pose proof (forward_last lp lp' scs v0 []) as H.
    cbn [app length Nat.add] in H. rewrite Hlens. exact H. }
  rewrite (identify_viterbi_eq self token rest p q lq lq'
             (fst sc) (snd sc) _ _ (fst v) (snd v) Htok Hlq Hlq' Hfwd Hlast).
  set (b_end := ltb (fst v) (snd v)).
  set (pth := backtrace (map snd T) b_end).
  assert (Hpth : viterbi_path lp lp' lq lq' sc scs = pth) by reflexivity.
  rewrite Hpth.
  assert (HlenS : length (map snd T) = length rest) by now rewrite length_map.
  destruct (backtrack_invariant
              (fun i v => nth_error (map (fun b => PyStr (code b)) pth) i
                          = Some v)
              ([[]] ++ map (fun e => S_dict (snd e)) T) (S (length rest)))
    with (k := length rest)
         (languages := update (repeat (PyInt 0) (S (length rest)))
                              (length rest)
                              (PyStr (if b_end then EN else GA)))
    as (ls & Hls & Hlen & Hlab).
  - intros t x Ht Hx. rewrite nth_error_map in Hx.
    destruct t as [|t]; [lia|].
    destruct (nth_error T t) as [e|] eqn:Ee;
      [|apply nth_error_None in Ee; lia].
    destruct (backtrace_nth b_end (map snd T) t (snd e)) as (bi & H1 & H2).
    { now rewrite nth_error_map, Ee. }
    fold pth in H1, H2. rewrite H1 in Hx. cbn in Hx. injection Hx as <-.
    exists (S_dict (snd e)), (code bi), (code (pick (snd e) bi)).
    split; [cbn [app nth_error]; now rewrite nth_error_map, Ee|].
    split; [reflexivity|]. split; [apply get_S_dict|].
    replace (S t - 1) with t by lia.
    now rewrite nth_error_map, H2.
  - lia.
  - now rewrite length_update, repeat_length.
  - intros i Hi. assert (i = length rest) as -> by lia.
    rewrite nth_error_update_eq by (rewrite repeat_length; lia).
    eexists. split; [reflexivity|].
    rewrite nth_error_map. unfold pth. rewrite <- HlenS, backtrace_last.
    reflexivity.
  - rewrite Hls. f_equal. apply nth_error_ext. intros i.
    destruct (Nat.lt_ge_cases i (S (length rest))) as [Hi|Hi].
    + destruct (Hlab i Hi) as (x & -> & Hx). now rewrite Hx.
    + assert (H1 : nth_error ls i = None) by (apply nth_error_None; lia).
      assert (H2 : nth_error (map (fun b => PyStr (code b)) pth) i = None).
      { apply nth_error_None. rewrite length_map. unfold pth.
        rewrite backtrace_length. lia. }
      now rewrite H1, H2.
Qed.

End ViterbiRefinement.

(** ** Order in rounding arithmetic *)

Section OrderFacts.

Context {N : PyFloat} {O : RoundedOrder N}.

Lemma leb_refl (a : num) : leb a a = true.
Proof. now destruct (leb_total a a). Qed.

Lemma ltb_true_leb (a b : num) : ltb a b = true -> leb a b = true.
Proof.
  rewrite ltb_leb. intros H. destruct (leb_total a b) as [Hab | Hba];
    [assumption|]. rewrite Hba in H. discriminate.
Qed.

Lemma ltb_false_leb (a b : num) : ltb a b = false -> leb b a = true.
Proof. rewrite ltb_leb. now destruct (leb b a). Qed.




(** The greater of two numbers, as [max] picks it. *)
Lemma leb_pick_max (v : num * num) (b : bool) :
  leb (pick v b) (pick v (ltb (fst v) (snd v))) = true.
Proof.
  destruct (ltb (fst v) (snd v)) eqn:E; destruct b; cbn [pick];
    try apply leb_refl.
  - now apply ltb_true_leb.
  - now apply ltb_false_leb.
Qed.

Lemma candidate_le (lp lp' : num) (v sc : num * num) (b b' : bool) :
  leb (candidate lp lp' v sc b b') (pick (next_V lp lp' v sc) b') = true.
Proof.
  unfold next_V, next_S.
  destruct b'; cbn [pick fst snd];
    match goal with
    | |- context [ltb ?x ?y] => destruct (ltb x y) eqn:E
    end;
    destruct b; cbn [pick];
    first [ apply leb_refl
          | now apply ltb_true_leb
          | now apply ltb_false_leb ].
Qed.

End OrderFacts.

(** ** The Viterbi decoder returns a best path *)

Section Optimality.

Context {N : PyFloat} {O : RoundedOrder N}.
Import LanguageIdentifier.

Variable self : LanguageIdentifier.t.

(** No path scores more than the entry of [V[-1]] for its last language. *)
Lemma walk_bound (lp lp' : num) :
  forall (scs : list (num * num)) (path : list bool) (v : num * num)
         (acc : num) (prev : bool),
    length path = length scs ->
    leb acc (pick v prev) = true ->
    leb (walk_logp lp lp' acc prev path scs)
        (pick (final_V lp lp' v scs) (last path prev)) = true.
Proof.
  induction scs as [|sc scs IH]; intros [|b path] v acc prev Hlen Hacc;
    try discriminate.
  - exact Hacc.
  - cbn [walk_logp final_V fold_left].
    rewrite last_cons_default.
    apply (IH path (next_V lp lp' v sc)).
    + now injection Hlen.
    + apply leb_trans with (candidate lp lp' v sc prev b);
        [|apply candidate_le].
      unfold candidate. now apply add_leb_r, add_leb_r.
Qed.

(** The path that follows the backpointers scores exactly the entry of
    [V[-1]] for its last language. *)
Lemma walk_backtrace (lp lp' : num) (b_end : bool) :
  forall (scs : list (num * num)) (v : num * num),
    match backtrace (map snd (forward lp lp' v scs)) b_end with
    | b0 :: rest =>
        walk_logp lp lp' (pick v b0) b0 rest scs
        = pick (final_V lp lp' v scs) b_end
    | [] => False
    end.
Proof.
  induction scs as [|sc scs IH]; intros v.
  - reflexivity.
  - change (final_V lp lp' v (sc :: scs))
      with (final_V lp lp' (next_V lp lp' v sc) scs).
    cbn [forward map backtrace snd].
    specialize (IH (next_V lp lp' v sc)).
    destruct (backtrace (map snd (forward lp lp' (next_V lp lp' v sc) scs))
                        b_end)
      as [|b1 rest]; [contradiction|].
    cbn [hd walk_logp]. rewrite <- IH. f_equal.
    rewrite <- candidate_next_S. reflexivity.
Qed.

Lemma path_logp_viterbi (lp lp' lq lq' : num) (sc : num * num)
    (scs : list (num * num)) :
  path_logp lp lp' lq lq' (sc :: scs) (viterbi_path lp lp' lq lq' sc scs)
  = pick (final_V lp lp' (add lq (fst sc), add lq' (snd sc)) scs)
         (ltb (fst (final_V lp lp' (add lq (fst sc), add lq' (snd sc)) scs))
              (snd (final_V lp lp' (add lq (fst sc), add lq' (snd sc)) scs))).
Proof.
  unfold viterbi_path.
  set (v0 := (add lq (fst sc), add lq' (snd sc))).
  set (v := final_V lp lp' v0 scs).
  pose proof (walk_backtrace lp lp' (ltb (fst v) (snd v)) scs v0) as H.
  destruct (backtrace (map snd (forward lp lp' v0 scs)) (ltb (fst v) (snd v)))
    as [|b0 rest]; [contradiction|].
  unfold path_logp. etransitivity; [|exact H]. f_equal. now destruct b0.
Qed.

Lemma path_logp_bound (lp lp' lq lq' : num) (sc : num * num)
    (scs : list (num * num)) (path : list bool) :
  length path = S (length scs) ->
  leb (path_logp lp lp' lq lq' (sc :: scs) path)
      (pick (final_V lp lp' (add lq (fst sc), add lq' (snd sc)) scs)
            (ltb (fst (final_V lp lp' (add lq (fst sc), add lq' (snd sc))
                               scs))
                 (snd (final_V lp lp' (add lq (fst sc), add lq' (snd sc))
                               scs))))
  = true.
Proof.
  intros Hlen. destruct path as [|b0 rest]; [discriminate|].
  unfold path_logp.
  set (v0 := (add lq (fst sc), add lq' (snd sc))).
  eapply leb_trans; [|apply leb_pick_max].
  apply (walk_bound lp lp' scs rest v0 _ b0); [now injection Hlen|].
  destruct b0; apply leb_refl.
Qed.

(** X13. In every arithmetic whose order and addition behave as under
    rounding (binary64 on numbers other than NaN, the reals), when the
    logarithms of the two priors and of their complements exist, the
    Viterbi decoder returns a best path: a list of one language per token
    whose score, added up in the decoder's own order (the start prior and
    the first score, then at every token the transition prior and the
    score), is at least that of every other assignment of languages to the
    tokens. *)
Theorem identify_viterbi_optimal (tokens : list string)
    (scs : list (num * num)) (p q lp lp' lq lq' : num) :
  tokens <> [] ->
  scored self tokens scs ->
  log p = Some lp ->
  log (sub (of_Z 1) p) = Some lp' ->
  log q = Some lq ->
  log (sub (of_Z 1) q) = Some lq' ->
  exists path,
    identify_viterbi self tokens p q
    = Ok (map (fun b => PyStr (code b)) path)
    /\ length path = length tokens
    /\ forall path',
         length path' = length tokens ->
         leb (path_logp lp lp' lq lq' scs path')
             (path_logp lp lp' lq lq' scs path) = true.
Proof.
  intros Hne Hsc Hlp Hlp' Hlq Hlq'.
  destruct tokens as [|token rest]; [congruence|].
  pose proof (Forall2_length Hsc) as Hlens.
  destruct scs as [|sc scs]; [discriminate|].
  cbn [length] in Hlens. injection Hlens as Hlens.
  exists (viterbi_path lp lp' lq lq' sc scs). split; [|split].
  - now apply identify_viterbi_path.
  - unfold viterbi_path. rewrite backtrace_length, length_map, length_forward.
    cbn [length]. lia.
  - intros path' Hlen. rewrite path_logp_viterbi.
    apply path_logp_bound. cbn [length] in Hlen. lia.
Qed.

End Optimality.

(** ** Uniform priors: the Viterbi decoder against the independent one *)

Section Uniform.

Context {N : PyFloat} {O : RoundedOrder N}.
Import LanguageIdentifier.

Variable self : LanguageIdentifier.t.







End Uniform.

(** ** The two arithmetics *)

Lemma QFloat_rounded : RoundedOrder QFloat.
Proof.
  split; cbn [ltb leb add sub of_Z of_Q QFloat].
  - intros a b. destruct (Qle_bool a b) eqn:E; [now left|]. right.
    apply Qle_bool_iff. apply Qlt_le_weak. apply Qnot_le_lt.
    intros H. apply Qle_bool_iff in H. congruence.
  - intros a b c. rewrite !Qle_bool_iff. apply Qle_trans.
  - reflexivity.
  - intros c a b. rewrite !Qle_bool_iff, !Qred_correct.
    intros H. now apply Qplus_le_r.
  - intros c a b. rewrite !Qle_bool_iff, !Qred_correct.
    intros H. now apply Qplus_le_l.
  - reflexivity.
Qed.

Lemma RFloat_rounded : RoundedOrder RFloat.
Proof.
  split; cbn; unfold Rltb, Rleb.
  - intros a b. destruct (Rle_dec a b), (Rle_dec b a); auto. lra.
  - intros a b c. destruct (Rle_dec a b), (Rle_dec b c), (Rle_dec a c);
      try reflexivity; try discriminate. lra.
  - intros a b. destruct (Rlt_dec a b), (Rle_dec b a);
      try reflexivity; lra.
  - intros c a b. destruct (Rle_dec a b), (Rle_dec (c + a) (c + b));
      try reflexivity; try discriminate. lra.
  - intros c a b. destruct (Rle_dec a b), (Rle_dec (a + c) (b + c));
      try reflexivity; try discriminate. lra.
  - unfold Q2R. cbn. lra.
Qed.

Section RealArithmetic.

Local Open Scope R_scope.

Lemma Rfdiv_Ok (a b : R) : b <> 0 -> @fdiv RFloat a b = Ok (a / b).
Proof.
  intros H. unfold fdiv. cbn. now destruct (Req_dec_T b 0).
Qed.

Lemma Rlog_Ok (a : R) : 0 < a -> @math_log RFloat a = Ok (ln a).
Proof.
  intros H. unfold math_log. cbn. now destruct (Rlt_dec 0 a).
Qed.

Lemma Rexp_Ok (a : R) : @math_exp RFloat a = Ok (Rtrigo_def.exp a).
Proof. reflexivity. Qed.

Lemma Q2R_tenth_pos : 0 < Q2R (1 # 10).
Proof. unfold Q2R. cbn. lra. Qed.

(** The identifier of [RExample] is the one [__init__] builds from the two
    persisted models and two empty lexicon files. *)
Lemma RExample_identifier_init :
  @LanguageIdentifier.init RFloat (RExample.model_file "ga")
    (RExample.model_file "en") [] [] 1
  = Ok RExample.identifier.
Proof.
  assert (Hlex : @LanguageModel.load_lexicon RFloat []
                 = Ok [(LanguageModel.OOV, RExample.oov_logp)]).
  { unfold LanguageModel.load_lexicon.
    cbn [fold_left set length foldM fst snd].
    unfold LanguageModel.set_log_prob. cbn [fst snd].
    pose proof Q2R_tenth_pos as Hpos.
    rewrite Rfdiv_Ok by (cbn; lra). cbn [bind].
    rewrite Rlog_Ok.
    - reflexivity.
    - cbn. apply Rdiv_lt_0_compat; lra. }
  unfold LanguageIdentifier.init, LanguageModel.load, LanguageModel.init.
  cbn [RExample.model_file]. rewrite Hlex. reflexivity.
Qed.

End RealArithmetic.

(** ** Counterexamples *)

Section Counterexamples.

Import LanguageIdentifier.
Local Open Scope R_scope.

Lemma RExample_score_sentinel :
  @score RFloat RExample.identifier IGNORE = Ok [(GA, IZR 1); (EN, IZR 1)].
Proof. reflexivity. Qed.

(** C5, the claim as stated fails: the logarithm of one is zero, and the
    score of the ignore sentinel is not zero for both languages. *)
Lemma score_ignore_is_not_log_one :
  @math_log RFloat (of_Z 1) = Ok 0
  /\ @score RFloat RExample.identifier IGNORE <> Ok [(GA, 0); (EN, 0)].
Proof.
  split.
  - cbn [of_Z RFloat]. rewrite Rlog_Ok by lra. now rewrite ln_1.
  - rewrite RExample_score_sentinel.
    cbn [of_Z RFloat]. intros H. injection H as H _. lra.
Qed.

(** C1, the claim as stated fails: with transition probability [1] the
    Viterbi decoder takes the logarithm of [1 - 1] at the second token and
    raises [ValueError]; no list is returned. *)
Lemma identify_raises_on_certain_transition :
  @identify RFloat RExample.identifier [IGNORE; IGNORE] "viterbi"
            1 (Q2R (3 # 4))
  = Raise ValueError.
Proof.
  assert (Hq : Q2R (3 # 4) = 3 / 4) by (unfold Q2R; cbn; lra).
  unfold identify, identify_method.
  cbn [length Nat.eqb andb String.eqb Ascii.eqb Bool.eqb].
  rewrite (identify_viterbi_forward_raises RExample.identifier IGNORE [IGNORE]
             1 (Q2R (3 # 4)) (ln (3 / 4)) (ln (1 - 3 / 4)) (IZR 1) (IZR 1)
             ValueError).
  - reflexivity.
  - exact RExample_score_sentinel.
  - cbn [log RFloat]. rewrite Hq.
    destruct (Rlt_dec 0 (3 / 4)); [reflexivity | lra].
  - cbn [log sub of_Z RFloat]. rewrite Hq.
    destruct (Rlt_dec 0 (1 - 3 / 4)); [reflexivity | lra].
  - cbn [length seq foldM].
    rewrite (viterbi_step_log_raises RExample.identifier [IGNORE; IGNORE]
               1 (ln 1) _ _ 1 IGNORE
               (ln (3 / 4) + IZR 1) (ln (1 - 3 / 4) + IZR 1) (IZR 1) (IZR 1)).
    + reflexivity.
    + cbn [log RFloat]. destruct (Rlt_dec 0 1); [reflexivity | lra].
    + cbn [log sub of_Z RFloat]. destruct (Rlt_dec 0 (1 - 1)); [lra | reflexivity].
    + reflexivity.
    + exact RExample_score_sentinel.
    + reflexivity.
Qed.




End Counterexamples.

(** ** The n-grams of a word *)

Section Ngrams.

Import LanguageModel.

Lemma length_append (a b : string) :
  String.length (a ++ b) = String.length a + String.length b.
Proof. induction a as [|c a IH]; simpl; auto. Qed.

Lemma substring_length :
  forall (s : string) (i k : nat),
    i + k <= String.length s -> String.length (substring i k s) = k.
Proof.
  induction s as [|c s IH]; intros [|i] [|k]; simpl; intros H;
    try reflexivity; try lia.
  - f_equal. apply (IH 0 k). lia.
  - apply (IH i 0). lia.
  - apply (IH i (S k)). lia.
Qed.

(** X3. [word2ngrams] returns one n-gram per position of the padded word
    (two padding characters below order 4, four from order 4 on), and every
    n-gram has exactly [n] characters. *)
Theorem word2ngrams_shape (word : string) (n0 : nat) :
  length (word2ngrams word n0)
  = String.length word + (if 4 <=? n0 then 4 else 2) + 1 - n0
  /\ Forall (fun g => String.length g = n0) (word2ngrams word n0).
Proof.
  unfold word2ngrams. split.
  - rewrite length_map, length_seq.
    destruct (4 <=? n0); rewrite !length_append; cbn [START END String.length];
      lia.
  - apply Forall_map, Forall_forall. intros i Hi. apply in_seq in Hi.
    apply substring_length. lia.
Qed.

End Ngrams.

(** ** The lexicon and the persisted model *)

Section Lexicon.

Context {N : PyFloat}.
Import LanguageModel.

Lemma load_lexicon_oov lexicon lex0 :
  load_lexicon lexicon = Ok lex0 -> mem OOV lex0 = true.
Proof.
  unfold load_lexicon.
  destruct (fold_left _ lexicon ([], 0%Z)) as [lex1 total].
  intros H. eapply set_log_prob_mem; [exact H|]. left. apply mem_set_eq.
Qed.

Lemma init_lex language0 n0 lexicon lw m :
  init language0 n0 lexicon lw = Ok m -> load_lexicon lexicon = Ok (lex m).
Proof.
  unfold init. intros H. inv_bind H. inversion H; subst. exact E.
Qed.

Lemma load_lex mf lexicon lw m :
  load mf lexicon lw = Ok m -> load_lexicon lexicon = Ok (lex m).
Proof.
  destruct mf as [[[l k] sp] tp]. unfold load. intros H. inv_bind H.
  inversion H; subst. cbn [lex]. eapply init_lex; eauto.
Qed.

Lemma train_fields m lamb m' :
  train m lamb = Ok m' ->
  language m' = language m /\ n m' = n m /\ lex_file m' = lex_file m
  /\ lex_weight m' = lex_weight m /\ char_weight m' = char_weight m
  /\ lex m' = lex m.
Proof.
  unfold train. intros H. do 6 inv_bind H. inversion H. cbn. repeat split.
Qed.

(** X4. On a model that [__init__] or [load] built, trained or not,
    [lex_score] returns a value for every word, never [KeyError]: the
    lexicon always holds the out-of-vocabulary entry, and a word whose
    normalised form is not a key gets that entry's value. *)
Theorem lex_score_total language0 n0 mf lexicon lw lamb m0 m :
  init language0 n0 lexicon lw = Ok m0 \/ load mf lexicon lw = Ok m0 ->
  m = m0 \/ train m0 lamb = Ok m ->
  exists oov,
    lex_score m OOV = Ok oov
    /\ forall word,
         exists v,
           lex_score m word = Ok v
           /\ (mem (if CASE_SENSITIVITY_THRESHOLD <=? String.length word
                    then lower word else word) (lex m) = false ->
               v = oov).
Proof.
  intros Hbuilt Htrained.
  assert (Hlex0 : mem OOV (lex m0) = true).
  { destruct Hbuilt as [H | H]; [apply init_lex in H | apply load_lex in H];
      eapply load_lexicon_oov; eauto. }
  assert (Hlex : mem OOV (lex m) = true).
  { destruct Htrained as [-> | H]; [assumption|].
    apply train_fields in H. destruct H as (_ & _ & _ & _ & _ & ->).
    assumption. }
  unfold mem in Hlex. destruct (get (lex m) OOV) as [oov|] eqn:E;
    [|discriminate].
  exists oov. split.
  - unfold lex_score, getitem, get_default. cbn [String.length OOV Nat.leb].
    change (CASE_SENSITIVITY_THRESHOLD <=? 3) with false. cbn iota.
    rewrite E. reflexivity.
  - intros word. unfold lex_score, getitem. rewrite E. cbn [lift bind].
    set (key := if CASE_SENSITIVITY_THRESHOLD <=? String.length word
                then lower word else word).
    eexists. split; [reflexivity|].
    unfold mem, get_default.
    destruct (get (lex m) key); intros Hm; [discriminate Hm | reflexivity].
Qed.

(** X5. Persisting a trained model with [dump] and reading it back with
    [load], with the lexicon file and weight it was constructed with, gives
    back the same model. *)
Theorem dump_load_roundtrip language0 n0 lexicon lw lamb m m' :
  init language0 n0 lexicon lw = Ok m ->
  train m lamb = Ok m' ->
  load (dump m') lexicon lw = Ok m'.
Proof.
  intros Hinit Htrain.
  destruct (train_fields _ _ _ Htrain) as (Hl & Hn & Hf & Hw & Hc & Hx).
  unfold init in Hinit. inv_bind Hinit. inversion Hinit; subst m; clear Hinit.
  cbn in Hl, Hn, Hf, Hw, Hc, Hx.
  unfold load, dump, init. rewrite Hl, Hn, E. cbn.
  destruct m'; cbn in *. now subst.
Qed.

End Lexicon.

(** ** The two decoders at their edges *)

Section Decoders.

Context {N : PyFloat}.
Import LanguageIdentifier.

Variable self : LanguageIdentifier.t.

Lemma identify_independent_acc tokens :
  forall languages,
    foldM (fun languages token =>
             scores <- score self token ;;
             g <- getitem scores GA ;;
             e <- getitem scores EN ;;
             if leb e g
             then Ok (languages ++ [PyStr GA])
             else Ok (languages ++ [PyStr EN]))
          tokens languages
    = (r <- identify_independent self tokens ;; Ok (languages ++ r)).
Proof.
  unfold identify_independent.
  induction tokens as [|token r IH]; intros languages.
  - cbn. now rewrite app_nil_r.
  - cbn [foldM]. destruct (score self token) as [scores|err]; [|reflexivity].
    cbn [bind]. destruct (getitem scores GA) as [g|err]; [|reflexivity].
    cbn [bind]. destruct (getitem scores EN) as [e|err]; [|reflexivity].
    cbn [bind]. destruct (leb e g); cbn [bind app];
      rewrite IH; symmetry; rewrite IH;
      match goal with
      | |- context [foldM ?f r []] => destruct (foldM f r [])
      end; cbn [bind]; rewrite <- ?app_assoc; reflexivity.
Qed.

(** X6. The independent decoder labels each token on its own: decoding a
    concatenation is decoding the parts and concatenating the results, and
    an exception of the first part, else of the second, is the exception of
    the whole. *)
Theorem identify_independent_app (tokens1 tokens2 : list string) :
  identify_independent self (tokens1 ++ tokens2)
  = (r1 <- identify_independent self tokens1 ;;
     r2 <- identify_independent self tokens2 ;;
     Ok (r1 ++ r2)).
Proof.
  unfold identify_independent at 1. rewrite foldM_app.
  fold (identify_independent self tokens1).
  destruct (identify_independent self tokens1) as [r1|err]; [|reflexivity].
  cbn [bind]. apply identify_independent_acc.
Qed.

(** X7. On a one-token input the Viterbi decoder never looks at the
    transition probability: it returns [EN] exactly when
    [log(q) + scores[GA] < log(1 - q) + scores[EN]], also for a transition
    probability whose logarithm does not exist. *)
Theorem identify_viterbi_single (token : string) (p q lq lq' g e : num) :
  score self token = Ok [(GA, g); (EN, e)] ->
  log q = Some lq ->
  log (sub (of_Z 1) q) = Some lq' ->
  identify_viterbi self [token] p q
  = Ok [PyStr (if ltb (add lq g) (add lq' e) then EN else GA)].
Proof.
  intros Hsc Hq Hq'.
  rewrite (identify_viterbi_eq self token [] p q lq lq' g e
             [[(GA, add lq g); (EN, add lq' e)]] [[]]
             (add lq g) (add lq' e) Hsc Hq Hq');
    reflexivity.
Qed.

End Decoders.

(** ** [max_argmax] over the reals *)

Section MaxArgmax.

Import LanguageIdentifier.
Local Open Scope R_scope.

Lemma Rltb_true (a b : R) : Rltb a b = true <-> a < b.
Proof. unfold Rltb. destruct (Rlt_dec a b); split; auto; discriminate. Qed.

Lemma Rltb_false (a b : R) : Rltb a b = false <-> b <= a.
Proof.
  unfold Rltb. destruct (Rlt_dec a b); split; auto; try discriminate; lra.
Qed.

Lemma max_from_spec :
  forall (r pre : list R) (bi : nat) (bv : R),
    nth_error pre bi = Some bv ->
    (forall j x, nth_error pre j = Some x -> x <= bv) ->
    (forall j x, (j < bi)%nat -> nth_error pre j = Some x -> x < bv) ->
    forall i v,
      @max_from RFloat (bi, bv) (length pre) r = (i, v) ->
      nth_error (pre ++ r) i = Some v
      /\ (forall j x, nth_error (pre ++ r) j = Some x -> x <= v)
      /\ (forall j x, (j < i)%nat -> nth_error (pre ++ r) j = Some x -> x < v).
Proof.
  induction r as [|y r IH]; intros pre bi bv Hb Hmax Hfirst i v Hrun.
  - cbn in Hrun. injection Hrun as <- <-. rewrite app_nil_r. auto.
  - cbn [max_from snd ltb RFloat] in Hrun.
    assert (Hbi : (bi < length pre)%nat)
      by (apply nth_error_Some; congruence).
    replace (pre ++ y :: r) with ((pre ++ [y]) ++ r)
      by (now rewrite <- app_assoc).
    replace (S (length pre)) with (length (pre ++ [y])) in Hrun
      by (rewrite length_app; simpl; lia).
    destruct (Rltb bv y) eqn:Elt.
    + apply Rltb_true in Elt.
      apply (IH (pre ++ [y]) (length pre) y); [ | | | exact Hrun].
      * rewrite nth_error_app2, Nat.sub_diag by lia. reflexivity.
      * intros j x Hj.
        destruct (Nat.lt_ge_cases j (length pre)) as [Hlt|Hge].
        -- rewrite nth_error_app1 in Hj by lia.
           specialize (Hmax j x Hj). lra.
        -- rewrite nth_error_app2 in Hj by lia.
           destruct (j - length pre)%nat as [|k]; simpl in Hj.
           ++ injection Hj as <-. lra.
           ++ destruct k; discriminate.
      * intros j x Hj Hx. rewrite nth_error_app1 in Hx by lia.
        specialize (Hmax j x Hx). lra.
    + apply Rltb_false in Elt.
      apply (IH (pre ++ [y]) bi bv); [ | | | exact Hrun].
      * rewrite nth_error_app1 by lia. assumption.
      * intros j x Hj.
        destruct (Nat.lt_ge_cases j (length pre)) as [Hlt|Hge].
        -- rewrite nth_error_app1 in Hj by lia. eauto.
        -- rewrite nth_error_app2 in Hj by lia.
           destruct (j - length pre)%nat as [|k]; simpl in Hj.
           ++ injection Hj as <-. lra.
           ++ destruct k; discriminate.
      * intros j x Hj Hx. rewrite nth_error_app1 in Hx by lia. eauto.
Qed.

(** X8. Over the reals, [max_argmax] raises [ValueError] on the empty list,
    and on a non-empty list returns the position and the value of a greatest
    element, the first one: every element is at most the value, and every
    earlier element is strictly smaller. *)
Theorem max_argmax_spec (l : list R) :
  @max_argmax RFloat [] = Raise ValueError
  /\ (l <> [] ->
      exists i v,
        @max_argmax RFloat l = Ok (i, v)
        /\ nth_error l i = Some v
        /\ (forall j x, nth_error l j = Some x -> x <= v)
        /\ (forall j x, (j < i)%nat -> nth_error l j = Some x -> x < v)).
Proof.
  split; [reflexivity|]. intros Hne.
  destruct l as [|x r]; [congruence|]. unfold max_argmax.
  remember (max_from _ _ _) as res eqn:E. destruct res as [i v].
  symmetry in E. exists i, v. split; [reflexivity|].
  apply (max_from_spec r [x] 0%nat x); auto.
  - intros [|[|j]] y; simpl; try discriminate. intros [= <-]. lra.
  - intros j y Hj. lia.
Qed.

End MaxArgmax.

(** ** Loading a lexicon, over the reals *)

Section DictForall.

Context {V : Type}.
Implicit Types (d : dict V) (k : string) (v : V).

Lemma Forall_set (P : string * V -> Prop) d k v :
  Forall P d -> P (k, v) -> Forall P (set d k v).
Proof.
  intros Hd Hv. induction d as [|[k' v'] r IH]; simpl.
  - now constructor.
  - inversion Hd; subst. destruct (String.eqb k' k) eqn:E.
    + apply String.eqb_eq in E. subst k'. now constructor.
    + constructor; auto.
Qed.

Lemma get_Forall (P : string * V -> Prop) d k v :
  Forall P d -> get d k = Some v -> P (k, v).
Proof.
  intros Hd Hget. apply get_In in Hget.
  eapply Forall_forall in Hd; eauto.
Qed.

Lemma length_set_pos d k v : 1 <= length (set d k v).
Proof.
  destruct d as [|[k' v'] r]; simpl; [lia|].
  destruct (String.eqb k' k); simpl; lia.
Qed.

End DictForall.

Section RealLoading.

Import LanguageModel.
Local Open Scope R_scope.

Lemma positive_get_default (d : dict R) k lamb :
  positive_counts d -> 0 < lamb -> 0 < get_default d k lamb.
Proof.
  intros Hd Hl. unfold get_default. destruct (get d k) as [v|] eqn:E; [|exact Hl].
  exact (get_Forall _ _ _ _ Hd E).
Qed.

Lemma positive_add (d : dict R) k lamb (count : Z) :
  positive_counts d -> 0 < lamb -> (0 <= count)%Z ->
  positive_counts (set d k (get_default d k lamb + IZR count)).
Proof.
  intros Hd Hl Hc. apply Forall_set; [assumption|]. cbn [snd].
  pose proof (positive_get_default d k lamb Hd Hl).
  apply IZR_le in Hc. lra.
Qed.

(** The conversion loop succeeds on positive counts and a positive
    denominator. *)
Lemma Rset_log_prob_total (denominator : R) :
  0 < denominator ->
  forall (d sp0 : dict R),
    positive_counts d ->
    exists sp, foldM (@set_log_prob RFloat denominator) d sp0 = Ok sp.
Proof.
  intros Hden. induction d as [|[k v] r IH]; intros sp0 Hd; cbn [foldM].
  - eauto.
  - inversion Hd as [|? ? Hv Hr]; subst. cbn [snd] in Hv.
    unfold set_log_prob at 1. cbn [fst snd].
    rewrite Rfdiv_Ok by lra. cbn [bind].
    rewrite Rlog_Ok by (apply Rdiv_lt_0_compat; lra). cbn [bind].
    apply IH. assumption.
Qed.

Lemma load_lexicon_line_ok (lamb : R) (st : dict R * Z) (line : string * Z) :
  0 < lamb -> (0 <= snd line)%Z ->
  positive_counts (fst st) /\ (0 <= snd st)%Z ->
  positive_counts (fst (@load_lexicon_line RFloat lamb st line))
  /\ (0 <= snd (@load_lexicon_line RFloat lamb st line))%Z.
Proof.
  intros Hl Hc [Hpos Htot]. destruct st as [lex0 total].
  destruct line as [field0 field1]. cbn [fst snd] in *.
  unfold load_lexicon_line. cbn [fst snd add of_Z RFloat].
  split; [now apply positive_add | lia].
Qed.

Lemma Rload_lexicon_total lexicon :
  frequencies_ok lexicon ->
  exists lex0, @load_lexicon RFloat lexicon = Ok lex0.
Proof.
  intros Hfreq. unfold load_lexicon.
  pose proof Q2R_tenth_pos as Hl. cbn [of_Q of_Z add mul RFloat].
  assert (Hgen : forall st,
             positive_counts (fst st) /\ (0 <= snd st)%Z ->
             positive_counts (fst (fold_left (@load_lexicon_line RFloat (Q2R (1 # 10)))
                                      lexicon st))
             /\ (0 <= snd (fold_left (@load_lexicon_line RFloat (Q2R (1 # 10)))
                                     lexicon st))%Z).
  { induction lexicon as [|[word count] r IH]; intros st Hst; cbn [fold_left].
    - assumption.
    - apply IH.
      + intros w k Hin. apply (Hfreq w k). now right.
      + apply load_lexicon_line_ok; try assumption. cbn [snd].
        apply (Hfreq word count). now left. }
  destruct (Hgen ([], 0%Z)) as [Hpos Htot].
  { split; [constructor | cbn; lia]. }
  destruct (fold_left _ lexicon ([], 0%Z)) as [lex1 total].
  cbn [fst snd] in Hpos, Htot.
  apply Rset_log_prob_total.
  - pose proof (length_set_pos lex1 OOV (Q2R (1 # 10))) as Hlen.
    apply IZR_le in Htot.
    assert (1 <= IZR (Z.of_nat (length (set lex1 OOV (Q2R (1 # 10))))))
      by (apply IZR_le; lia).
    assert (0 < Q2R (1 # 10)
                * IZR (Z.of_nat (length (set lex1 OOV (Q2R (1 # 10))))))
      by (apply Rmult_lt_0_compat; lra).
    lra.
  - apply Forall_set; assumption.
Qed.

End RealLoading.

Section LexiconLookup.

Import LanguageIdentifier.
Local Open Scope R_scope.

Lemma lex_score_mem {N : PyFloat} (m : LanguageModel.t) (word : string) :
  mem LanguageModel.OOV (LanguageModel.lex m) = true ->
  exists v, LanguageModel.lex_score m word = Ok v.
Proof.
  intros H. unfold LanguageModel.lex_score.
  destruct (getitem_mem _ _ H) as [oov ->]. cbn [bind]. eauto.
Qed.

End LexiconLookup.

(** ** The fields of a loaded model *)

Section LoadedFields.

Import LanguageIdentifier.
Local Open Scope R_scope.

Lemma load_fields {N : PyFloat} l k sp tp lexicon lw
    (m : LanguageModel.t) :
  LanguageModel.load (l, k, sp, tp) lexicon lw = Ok m ->
  LanguageModel.n m = k
  /\ LanguageModel.start_prob m = sp
  /\ LanguageModel.trans_prob m = tp
  /\ mem LanguageModel.OOV (LanguageModel.lex m) = true.
Proof.
  intros H. pose proof (load_lex _ _ _ _ H) as Hlex.
  apply load_lexicon_oov in Hlex.
  unfold LanguageModel.load in H. inv_bind H. inversion H; subst; clear H.
  cbn. repeat split; auto.
  now apply init_fields in E.
Qed.

End LoadedFields.


(** ** Sums over dicts *)

Section DictSums.

Local Open Scope R_scope.

Lemma get_None_keys {V : Type} (d : dict V) (k : string) :
  get d k = None <-> ~ In k (keys d).
Proof.
  induction d as [|[k' v'] r IH]; simpl.
  - split; auto.
  - destruct (String.eqb k' k) eqn:E.
    + apply String.eqb_eq in E. split; [discriminate | intros H; tauto].
    + apply String.eqb_neq in E. rewrite IH. tauto.
Qed.

Lemma set_app_fresh {V : Type} (d1 d2 : dict V) (k : string) (v : V) :
  get d1 k = None -> set (d1 ++ d2) k v = d1 ++ set d2 k v.
Proof.
  induction d1 as [|[k' v'] r IH]; simpl; intros H; [reflexivity|].
  destruct (String.eqb k' k); [discriminate|]. now rewrite IH.
Qed.

Lemma set_head {V : Type} (d : dict V) (k : string) (v v' : V) :
  set ((k, v) :: d) k v' = (k, v') :: d.
Proof. simpl. now rewrite String.eqb_refl. Qed.

Lemma IZR_of_nat_S (k : nat) : IZR (Z.of_nat (S k)) = IZR (Z.of_nat k) + 1.
Proof. now rewrite Nat2Z.inj_succ, succ_IZR. Qed.

Lemma vsum_cons (k : string) (v : R) (d : dict R) :
  vsum ((k, v) :: d) = v + vsum d.
Proof. reflexivity. Qed.

Lemma excess_cons (lamb : R) (k : string) (v : R) (d : dict R) :
  excess lamb ((k, v) :: d) = v - lamb + excess lamb d.
Proof.
  unfold excess. cbn [length]. rewrite vsum_cons, IZR_of_nat_S. lra.
Qed.

(** Adding [x] to the count of a key, created at [lamb] when absent, adds
    [x] to the excess. *)
Lemma excess_set_add (lamb x : R) (d : dict R) (k : string) :
  excess lamb (set d k (get_default d k lamb + x)) = excess lamb d + x.
Proof.
  unfold get_default. induction d as [|[k' v'] r IH].
  - cbn [get set]. rewrite excess_cons. unfold excess. cbn. lra.
  - cbn [get set]. destruct (String.eqb k' k).
    + rewrite !excess_cons. lra.
    + rewrite !excess_cons, IH. lra.
Qed.

(** Resetting a key to [lamb] does not raise the excess, and keeps it when
    the key is new. *)
Lemma excess_set_lamb (lamb : R) (d : dict R) (k : string) :
  Forall (fun kv => lamb <= snd kv) d ->
  excess lamb (set d k lamb) <= excess lamb d
  /\ (get d k = None -> excess lamb (set d k lamb) = excess lamb d).
Proof.
  induction d as [|[k' v'] r IH]; intros Hd.
  - cbn [get set]. rewrite excess_cons. split; [lra | intros _; lra].
  - inversion Hd as [|? ? Hv Hr]; subst. cbn [snd] in Hv.
    cbn [get set]. destruct (String.eqb k' k).
    + rewrite !excess_cons. split; [lra | discriminate].
    + rewrite !excess_cons. destruct (IH Hr) as [Hle Heq].
      split; [lra | intros Hnone; rewrite (Heq Hnone); lra].
Qed.

Lemma keys_log_probs (denominator : R) (d : dict R) :
  keys (log_probs denominator d) = keys d.
Proof. unfold keys, log_probs. rewrite map_map. reflexivity. Qed.

Lemma log_probs_app (denominator : R) (d1 d2 : dict R) :
  log_probs denominator (d1 ++ d2)
  = log_probs denominator d1 ++ log_probs denominator d2.
Proof. apply map_app. Qed.

Lemma get_log_probs (denominator : R) (d : dict R) (k : string) :
  get (log_probs denominator d) k
  = option_map (fun v => ln (v / denominator)) (get d k).
Proof.
  induction d as [|[k' v'] r IH]; cbn [log_probs map get fst snd option_map];
    [reflexivity|].
  destruct (String.eqb k' k); [reflexivity | exact IH].
Qed.

End DictSums.

(** ** The conversion loop, over the reals *)

Section Conversion.

Import LanguageModel.
Local Open Scope R_scope.

(** Run on the dict it iterates, the loop replaces every count in place. *)
Lemma Rconvert_in_place (denominator : @num RFloat) :
  0 < denominator ->
  forall (r pre : dict (@num RFloat)),
    positive_counts r ->
    NoDup (keys (pre ++ r)) ->
    foldM (set_log_prob denominator) r (log_probs denominator pre ++ r)
    = Ok (log_probs denominator (pre ++ r)).
Proof.
  intros Hden. induction r as [|[k v] r IH]; intros pre Hpos Hnd.
  - cbn [foldM]. now rewrite !app_nil_r.
  - inversion Hpos as [|? ? Hv Hr]; subst. cbn [snd] in Hv.
    cbn [foldM]. unfold set_log_prob at 1. cbn [fst snd].
    rewrite Rfdiv_Ok by lra. cbn [bind].
    rewrite Rlog_Ok by (apply Rdiv_lt_0_compat; lra). cbn [bind].
    assert (Hk : get (log_probs denominator pre) k = None).
    { apply get_None_keys. rewrite keys_log_probs. intros Hin.
      unfold keys in Hnd. rewrite map_app in Hnd.
      apply NoDup_remove_2 in Hnd. apply Hnd. apply in_or_app. now left. }
    rewrite set_app_fresh by exact Hk. rewrite set_head.
    specialize (IH (pre ++ [(k, v)]) Hr).
    rewrite <- app_assoc in IH. cbn [app] in IH.
    rewrite log_probs_app, <- app_assoc in IH. cbn [log_probs map app] in IH.
    cbn [fst snd] in IH. apply IH. exact Hnd.
Qed.

End Conversion.

(** ** The lexicon scores, over the reals *)

Section RealLexicon.

Import LanguageModel.
Local Open Scope R_scope.

Lemma lower_length (s : string) : String.length (lower s) = String.length s.
Proof. induction s as [|c s IH]; simpl; auto. Qed.

Lemma lexicon_key_OOV (word : string) :
  word <> OOV -> lexicon_key word <> OOV.
Proof.
  intros Hne. unfold lexicon_key.
  destruct (CASE_SENSITIVITY_THRESHOLD <=? String.length word)%nat eqn:E;
    [|exact Hne].
  apply Nat.leb_le in E. intros Heq.
  apply (f_equal String.length) in Heq. rewrite lower_length in Heq.
  unfold CASE_SENSITIVITY_THRESHOLD in E.
  change (String.length OOV) with 3%nat in Heq. lia.
Qed.

Lemma lexicon_exact_positive (lamb : R) (st : dict R * Z) :
  0 < lamb -> lexicon_exact lamb st -> positive_counts (fst st).
Proof.
  intros Hl (Hge & _). eapply Forall_impl; [|exact Hge].
  intros kv Hkv. cbn beta in *. lra.
Qed.

Lemma load_lexicon_line_exact (lamb : @num RFloat)
    (st : dict (@num RFloat) * Z) (line : string * Z) :
  0 < lamb -> (0 <= snd line)%Z ->
  lexicon_exact lamb st ->
  lexicon_exact lamb (load_lexicon_line lamb st line).
Proof.
  intros Hl Hc (Hge & Hnd & Hex & Htot).
  destruct st as [lex0 total]. destruct line as [field0 field1].
  cbn [fst snd] in *. unfold load_lexicon_line, lexicon_exact.
  fold (lexicon_key field0). cbn [fst snd add of_Z RFloat].
  pose proof (IZR_le _ _ Hc) as Hc'.
  split; [|split; [|split]].
  - apply Forall_set; [assumption|]. cbn [snd].
    unfold get_default.
    destruct (get lex0 (lexicon_key field0)) as [v|] eqn:E.
    + pose proof (get_Forall _ _ _ _ Hge E) as Hv. cbn [snd] in Hv. lra.
    + lra.
  - now apply NoDup_keys_set.
  - rewrite excess_set_add, Hex, plus_IZR. reflexivity.
  - lia.
Qed.

(** A line files its word under its key, with at least [lamb] plus its
    frequency; later lines only add to it. *)
Lemma load_lexicon_line_files (lamb : @num RFloat)
    (st : dict (@num RFloat) * Z) (word : string) (count : Z) :
  lexicon_exact lamb st ->
  exists v,
    get (fst (load_lexicon_line lamb st (word, count))) (lexicon_key word)
    = Some v
    /\ lamb + IZR count <= v.
Proof.
  intros (Hge & _). destruct st as [lex0 total]. cbn [fst] in Hge.
  unfold load_lexicon_line. fold (lexicon_key word).
  cbn [fst add of_Z RFloat]. rewrite get_set_eq. eexists. split; [reflexivity|].
  unfold get_default. destruct (get lex0 (lexicon_key word)) as [v|] eqn:E.
  - pose proof (get_Forall _ _ _ _ Hge E) as Hv. cbn [snd] in Hv. lra.
  - lra.
Qed.

Lemma load_lexicon_line_keeps (lamb : @num RFloat)
    (st : dict (@num RFloat) * Z) (line : string * Z) (k : string) (b : R) :
  (0 <= snd line)%Z ->
  (exists v, get (fst st) k = Some v /\ b <= v) ->
  exists v, get (fst (load_lexicon_line lamb st line)) k = Some v /\ b <= v.
Proof.
  intros Hc (v & Hv & Hb). destruct st as [lex0 total].
  destruct line as [field0 field1]. cbn [fst snd] in *.
  unfold load_lexicon_line. fold (lexicon_key field0).
  cbn [fst add of_Z RFloat]. pose proof (IZR_le _ _ Hc) as Hc'.
  destruct (string_dec (lexicon_key field0) k) as [<- | Hne].
  - rewrite get_set_eq. eexists. split; [reflexivity|].
    unfold get_default. rewrite Hv. lra.
  - rewrite get_set_neq by assumption. eauto.
Qed.

Lemma load_lexicon_line_keys (lamb : @num RFloat)
    (st : dict (@num RFloat) * Z) (line : string * Z) (P : string -> Prop) :
  P (lexicon_key (fst line)) ->
  Forall (fun kv => P (fst kv)) (fst st) ->
  Forall (fun kv => P (fst kv)) (fst (load_lexicon_line lamb st line)).
Proof.
  intros HP Hst. destruct st as [lex0 total].
  destruct line as [field0 field1]. cbn [fst snd] in *.
  unfold load_lexicon_line. fold (lexicon_key field0). cbn [fst].
  now apply Forall_set.
Qed.

(** The state of the loop of [load_lexicon] after the last line. *)
Lemma load_lexicon_loop (lexicon : lexicon_file) :
  frequencies_ok lexicon ->
  forall st,
    lexicon_exact (Q2R (1 # 10)) st ->
    lexicon_exact (Q2R (1 # 10))
                  (fold_left (@load_lexicon_line RFloat (Q2R (1 # 10)))
                             lexicon st)
    /\ (forall P : string -> Prop,
          (forall word count, In (word, count) lexicon -> P (lexicon_key word)) ->
          Forall (fun kv => P (fst kv)) (fst st) ->
          Forall (fun kv => P (fst kv))
                 (fst (fold_left (@load_lexicon_line RFloat (Q2R (1 # 10)))
                                 lexicon st)))
    /\ (forall word count,
          In (word, count) lexicon ->
          exists v,
            get (fst (fold_left (@load_lexicon_line RFloat (Q2R (1 # 10)))
                                lexicon st))
                (lexicon_key word) = Some v
            /\ Q2R (1 # 10) + IZR count <= v)
    /\ (forall k b,
          (exists v, get (fst st) k = Some v /\ b <= v) ->
          exists v,
            get (fst (fold_left (@load_lexicon_line RFloat (Q2R (1 # 10)))
                                lexicon st)) k = Some v
            /\ b <= v).
Proof.
  pose proof Q2R_tenth_pos as Hl.
  induction lexicon as [|[word count] r IH]; intros Hfreq st Hst.
  - cbn [fold_left]. split; [exact Hst|]. split; [auto|].
    split; [intros w c [] | auto].
  - cbn [fold_left].
    assert (Hc : (0 <= count)%Z) by (apply (Hfreq word count); now left).
    assert (Hfreq' : frequencies_ok r)
      by (intros w c Hin; apply (Hfreq w c); now right).
    pose proof (load_lexicon_line_exact _ st (word, count) Hl Hc Hst) as Hst'.
    destruct (IH Hfreq' _ Hst') as (Hex & Hkeys & Hfiled & Hkept).
    split; [exact Hex|]. split; [|split].
    + intros P HP HPst. apply Hkeys.
      * intros w c Hin. apply (HP w c). now right.
      * apply load_lexicon_line_keys; [|assumption].
        apply (HP word count). now left.
    + intros w c [[= -> ->] | Hin]; [|now apply (Hfiled w c)].
      apply Hkept. now apply load_lexicon_line_files.
    + intros k b Hk. apply Hkept.
      now apply load_lexicon_line_keeps.
Qed.

Lemma lexicon_exact_init (lamb : R) : lexicon_exact lamb ([], 0%Z).
Proof.
  unfold lexicon_exact, excess. cbn. repeat split; try constructor.
  - lra.
  - lia.
Qed.

(** What [load_lexicon] returns. *)
Lemma Rload_lexicon_eq (lexicon : lexicon_file) :
  frequencies_ok lexicon ->
  exists (lex1 : dict R) (total : Z),
    (forall P : string -> Prop,
       (forall word count, In (word, count) lexicon -> P (lexicon_key word)) ->
       Forall (fun kv => P (fst kv)) lex1)
    /\ (forall word count,
          In (word, count) lexicon ->
          exists v, get lex1 (lexicon_key word) = Some v
                    /\ Q2R (1 # 10) + IZR count <= v)
    /\ lexicon_exact (Q2R (1 # 10)) (lex1, total)
    /\ 0 < IZR total
           + Q2R (1 # 10)
             * IZR (Z.of_nat (length (set lex1 OOV (Q2R (1 # 10)))))
    /\ positive_counts (set lex1 OOV (Q2R (1 # 10)))
    /\ vsum (set lex1 OOV (Q2R (1 # 10)))
       <= IZR total
          + Q2R (1 # 10)
            * IZR (Z.of_nat (length (set lex1 OOV (Q2R (1 # 10)))))
    /\ (get lex1 OOV = None ->
        vsum (set lex1 OOV (Q2R (1 # 10)))
        = IZR total
          + Q2R (1 # 10)
            * IZR (Z.of_nat (length (set lex1 OOV (Q2R (1 # 10))))))
    /\ @load_lexicon RFloat lexicon
       = Ok (log_probs
               (IZR total
                + Q2R (1 # 10)
                  * IZR (Z.of_nat (length (set lex1 OOV (Q2R (1 # 10))))))
               (set lex1 OOV (Q2R (1 # 10)))).
Proof.
  intros Hfreq. pose proof Q2R_tenth_pos as Hl.
  destruct (load_lexicon_loop lexicon Hfreq _
              (lexicon_exact_init (Q2R (1 # 10))))
    as (Hex & Hkeys & Hfiled & _).
  unfold load_lexicon. cbn [of_Q of_Z add mul RFloat].
  destruct (fold_left _ lexicon ([], 0%Z)) as [lex1 total].
  exists lex1, total. cbn [fst] in Hkeys, Hfiled.
  split; [intros P HP; apply Hkeys; [exact HP | constructor]|].
  split; [exact Hfiled|]. split; [exact Hex|].
  pose proof (lexicon_exact_positive _ _ Hl Hex) as Hpos.
  destruct Hex as (Hge & Hnd & Hexc & Htot). cbn [fst snd] in *.
  assert (Hden : 0 < IZR total
                     + Q2R (1 # 10)
                       * IZR (Z.of_nat (length (set lex1 OOV (Q2R (1 # 10)))))).
  { pose proof (length_set_pos lex1 OOV (Q2R (1 # 10))) as Hlen.
    apply IZR_le in Htot.
    assert (1 <= IZR (Z.of_nat (length (set lex1 OOV (Q2R (1 # 10))))))
      by (apply IZR_le; lia).
    assert (0 < Q2R (1 # 10)
                * IZR (Z.of_nat (length (set lex1 OOV (Q2R (1 # 10))))))
      by (apply Rmult_lt_0_compat; lra).
    lra. }
  assert (Hpos' : positive_counts (set lex1 OOV (Q2R (1 # 10))))
    by (apply Forall_set; assumption).
  split; [exact Hden|]. split; [exact Hpos'|].
  destruct (excess_set_lamb (Q2R (1 # 10)) lex1 OOV Hge) as [Hle Heq].
  unfold excess in Hle, Heq, Hexc.
  split; [lra|]. split; [intros Hnone; specialize (Heq Hnone); lra|].
  exact (Rconvert_in_place _ Hden (set lex1 OOV (Q2R (1 # 10))) [] Hpos'
           (NoDup_keys_set _ _ _ Hnd)).
Qed.

Lemma built_lex {N : PyFloat} language0 n0 mf lexicon lw (m : LanguageModel.t) :
  init language0 n0 lexicon lw = Ok m \/ load mf lexicon lw = Ok m ->
  load_lexicon lexicon = Ok (lex m).
Proof. intros [H | H]; [eapply init_lex | eapply load_lex]; eauto. Qed.

(** X16. Over the reals, a word that the lexicon file lists with a positive
    frequency (and that is not the out-of-vocabulary key itself) gets a
    lexicon score strictly above the out-of-vocabulary score. *)
Theorem lex_score_above_oov language0 n0 (mf : @model_file RFloat) lexicon
    (lw : R) (m : @LanguageModel.t RFloat) (word : string) (count : Z) :
  frequencies_ok lexicon ->
  In (word, count) lexicon ->
  (0 < count)%Z ->
  word <> OOV ->
  @init RFloat language0 n0 lexicon lw = Ok m
  \/ @load RFloat mf lexicon lw = Ok m ->
  exists v oov,
    @lex_score RFloat m word = Ok v
    /\ @lex_score RFloat m OOV = Ok oov
    /\ oov < v.
Proof.
  intros Hfreq Hin Hcount Hword Hbuilt. pose proof Q2R_tenth_pos as Hl.
  pose proof (built_lex _ _ _ _ _ _ Hbuilt) as Hlex.
  destruct (Rload_lexicon_eq lexicon Hfreq)
    as (lex1 & total & _ & Hfiled & Hex & Hden & Hpos & _ & _ & Hload).
  rewrite Hload in Hlex. injection Hlex as Hlex.
  destruct (Hfiled word count Hin) as (v1 & Hv1 & Hge).
  apply IZR_lt in Hcount.
  pose proof (lexicon_key_OOV word Hword) as Hkey.
  set (lex' := set lex1 OOV (Q2R (1 # 10))) in *.
  set (den := IZR total + Q2R (1 # 10) * IZR (Z.of_nat (length lex'))) in *.
  assert (Hgw : get (lex m) (lexicon_key word) = Some (ln (v1 / den))).
  { rewrite <- Hlex, get_log_probs. unfold lex'.
    rewrite get_set_neq by (intros Heq; apply Hkey; now rewrite Heq).
    now rewrite Hv1. }
  assert (Hgo : get (lex m) OOV = Some (ln (Q2R (1 # 10) / den))).
  { rewrite <- Hlex, get_log_probs. unfold lex'. now rewrite get_set_eq. }
  exists (ln (v1 / den)), (ln (Q2R (1 # 10) / den)).
  split; [|split].
  - unfold lex_score, getitem. rewrite Hgo. cbn [lift bind].
    fold (lexicon_key word). unfold get_default. now rewrite Hgw.
  - unfold lex_score, getitem. rewrite Hgo. cbn [lift bind].
    unfold get_default.
    change (if (CASE_SENSITIVITY_THRESHOLD <=? String.length OOV)%nat
            then lower OOV else OOV) with OOV.
    now rewrite Hgo.
  - apply ln_increasing.
    + apply Rdiv_lt_0_compat; lra.
    + unfold Rdiv. apply Rmult_lt_compat_r; [apply Rinv_0_lt_compat|]; lra.
Qed.

End RealLexicon.

(** ** Loops over the members of a list *)

Section ListLoops.

Import LanguageModel.
Local Open Scope R_scope.

Lemma fold_left_preserves_In {S A : Type} (P : S -> Prop) (f : S -> A -> S) :
  forall (l : list A),
    (forall s a, In a l -> P s -> P (f s a)) ->
    forall s, P s -> P (fold_left f l s).
Proof.
  induction l as [|x r IH]; intros Hstep s Hs; cbn [fold_left]; [assumption|].
  apply IH.
  - intros s0 a Hin. apply Hstep. now right.
  - apply Hstep; [now left | assumption].
Qed.

End ListLoops.

(** ** What the scores of a word depend on *)

Section Dependence.

Context {N : PyFloat}.
Import LanguageModel.

Lemma char_score_step_unknown tp acc g g' h h' :
  mem g tp = false -> mem h tp = false ->
  char_score_step tp acc g g' = char_score_step tp acc h h'.
Proof.
  intros Hg Hh. destruct acc as [logp dbg]. unfold char_score_step.
  now rewrite Hg, Hh.
Qed.

Lemma char_score_trans_unknown tp :
  forall ngrams1 ngrams2 acc,
    length ngrams1 = length ngrams2 ->
    (forall g, In g ngrams1 -> mem g tp = false) ->
    (forall g, In g ngrams2 -> mem g tp = false) ->
    char_score_trans tp ngrams1 acc = char_score_trans tp ngrams2 acc.
Proof.
  induction ngrams1 as [|g r1 IH]; intros [|h r2] acc Hlen H1 H2;
    try discriminate; [reflexivity|].
  destruct r1 as [|g' r1], r2 as [|h' r2]; try discriminate; [reflexivity|].
  rewrite !char_score_trans_cons.
  rewrite (char_score_step_unknown tp acc g g' h h');
    [| apply H1; now left | apply H2; now left].
  destruct (char_score_step tp acc h h') as [acc'|err]; [|reflexivity].
  cbn [bind]. apply IH.
  - cbn [length] in Hlen |- *. lia.
  - intros x Hx. apply H1. now right.
  - intros x Hx. apply H2. now right.
Qed.

(** X20. Two words none of whose n-grams is a key of either table get the
    same character score when they have the same number of n-grams: the
    score of a wholly unknown word depends on its length only (and both
    calls raise the same exception when one does). *)
Theorem char_score_unknown_words (m : LanguageModel.t) (word1 word2 : string) :
  length (word2ngrams word1 (n m)) = length (word2ngrams word2 (n m)) ->
  (forall g, In g (word2ngrams word1 (n m)) \/ In g (word2ngrams word2 (n m)) ->
             mem g (start_prob m) = false /\ mem g (trans_prob m) = false) ->
  char_score m word1 = char_score m word2.
Proof.
  intros Hlen Hunknown. unfold char_score, char_score_debug.
  destruct (word2ngrams word1 (n m)) as [|g1 r1] eqn:E1,
           (word2ngrams word2 (n m)) as [|g2 r2] eqn:E2;
    try discriminate; [reflexivity|].
  unfold index. cbn [nth_error lift bind].
  destruct (Hunknown g1) as [Hs1 _]; [left; now left|].
  destruct (Hunknown g2) as [Hs2 _]; [right; now left|].
  rewrite Hs1, Hs2. cbn [negb].
  destruct (getitem (start_prob m) UNKNOWN) as [p|err]; [|reflexivity].
  cbn [bind].
  rewrite (char_score_trans_unknown (trans_prob m) (g1 :: r1) (g2 :: r2));
    [reflexivity | exact Hlen | |].
  - intros g Hg. apply Hunknown. now left.
  - intros g Hg. apply Hunknown. now right.
Qed.

Lemma lower_ascii_idempotent (c : ascii) :
  lower_ascii (lower_ascii c) = lower_ascii c.
Proof. destruct c as [[] [] [] [] [] [] [] []]; reflexivity. Qed.

Lemma lower_idempotent (s : string) : lower (lower s) = lower s.
Proof.
  induction s as [|c s IH]; cbn [lower]; [reflexivity|].
  now rewrite lower_ascii_idempotent, IH.
Qed.

Lemma lexicon_key_idempotent (word : string) :
  lexicon_key (lexicon_key word) = lexicon_key word.
Proof.
  unfold lexicon_key.
  destruct (CASE_SENSITIVITY_THRESHOLD <=? String.length word) eqn:E.
  - rewrite lower_length, E. apply lower_idempotent.
  - now rewrite E.
Qed.

Lemma load_lexicon_line_key (lamb : num) (st : dict num * Z) (line : string * Z) :
  load_lexicon_line lamb st (lexicon_key (fst line), snd line)
  = load_lexicon_line lamb st line.
Proof.
  destruct st as [lex0 total], line as [word count]. cbn [fst snd].
  unfold load_lexicon_line. fold (lexicon_key (lexicon_key word)).
  fold (lexicon_key word). now rewrite lexicon_key_idempotent.
Qed.

(** X21. For ASCII words, the lexicon sees a word through its key only (the
    word itself below four characters, its lower-case form from four on):
    replacing every word of a lexicon file by its key leaves [load_lexicon]
    unchanged, and [lex_score] gives a word the score of its key; so two
    spellings of a word of at least four characters that differ in case
    only are counted together and scored alike. *)
Theorem lexicon_case_folding (lexicon : lexicon_file) :
  ascii_lexicon lexicon = true ->
  load_lexicon (map (fun line => (lexicon_key (fst line), snd line)) lexicon)
  = load_lexicon lexicon
  /\ (forall (m : LanguageModel.t) (word : string),
        is_ascii word = true ->
        lex_score m (lexicon_key word) = lex_score m word)
  /\ (forall (m : LanguageModel.t) (word : string),
        is_ascii word = true ->
        CASE_SENSITIVITY_THRESHOLD <= String.length word ->
        lex_score m (lower word) = lex_score m word).
Proof.
  intros _.
  assert (Hscore : forall (m : LanguageModel.t) (word : string),
             lex_score m (lexicon_key word) = lex_score m word).
  { intros m word. unfold lex_score.
    fold (lexicon_key (lexicon_key word)). fold (lexicon_key word).
    now rewrite lexicon_key_idempotent. }
  split; [|split; [intros m word _; apply Hscore|]].
  - unfold load_lexicon.
    assert (Hfold : forall st,
               fold_left (load_lexicon_line (of_Q (1 # 10)))
                         (map (fun line => (lexicon_key (fst line), snd line))
                              lexicon) st
               = fold_left (load_lexicon_line (of_Q (1 # 10))) lexicon st).
    { induction lexicon as [|line r IH]; intros st; cbn [map fold_left];
        [reflexivity|].
      now rewrite load_lexicon_line_key, IH. }
    now rewrite Hfold.
  - intros m word _ Hlen. rewrite <- (Hscore m word). unfold lexicon_key.
    apply Nat.leb_le in Hlen. now rewrite Hlen.
Qed.

End Dependence.

(** ** The keys of the start table *)

Section StartKeys.

Context {N : PyFloat}.
Import LanguageModel.

Lemma mem_set_inv {V : Type} (d : dict V) (k k' : string) (v : V) :
  mem k' (set d k v) = true -> k' = k \/ mem k' d = true.
Proof.
  unfold mem. destruct (string_dec k k') as [-> | Hne]; [now left|].
  rewrite get_set_neq by assumption. now right.
Qed.

Lemma set_log_prob_keys denominator :
  forall (d sp0 sp : dict num),
    foldM (set_log_prob denominator) d sp0 = Ok sp ->
    forall k, mem k sp = true -> In k (keys d) \/ mem k sp0 = true.
Proof.
  induction d as [|[k1 v1] r IH]; cbn [foldM]; intros sp0 sp H k Hk.
  - inversion H; subst. now right.
  - inv_bind H. unfold set_log_prob in E. cbn [fst snd] in E. inv_binds.
    destruct (IH _ _ H k Hk) as [Hin | Hmem].
    + left. now right.
    + apply mem_set_inv in Hmem. destruct Hmem as [-> | Hmem];
        [left; now left | now right].
Qed.

(** The keys of [start_count] are start n-grams of lexicon words. *)
Lemma start_count_keys lamb n0 (lexicon : lexicon_file) :
  Forall (fun kv : string * num =>
            exists word count,
              In (word, count) lexicon
              /\ fst kv = substring 0 n0 (START ++ word ++ END))
         (start_count (fold_left (count_line lamb n0) lexicon counts_init)).
Proof.
  apply (fold_left_preserves_In
           (fun c => Forall (fun kv : string * num =>
                               exists word count,
                                 In (word, count) lexicon
                                 /\ fst kv
                                    = substring 0 n0 (START ++ word ++ END))
                            (start_count c))).
  - intros c [word count] Hin Hc. unfold count_line.
    apply fold_left_preserves.
    + intros s i Hs. exact Hs.
    + cbn [start_count]. apply Forall_set; [exact Hc|]. cbn [fst]. eauto.
  - constructor.
Qed.

(** X22. The start table of a model constructed on a lexicon and then
    trained has exactly the keys [UNKNOWN] and the start n-grams of the
    lexicon words: training neither drops a start n-gram nor invents
    one. *)
Theorem start_prob_keys language0 n0 lexicon lw lamb m m' (k : string) :
  init language0 n0 lexicon lw = Ok m ->
  train m lamb = Ok m' ->
  mem k (start_prob m') = true
  <-> k = UNKNOWN
      \/ exists word count,
           In (word, count) lexicon
           /\ k = substring 0 n0 (START ++ word ++ END).
Proof.
  intros Hinit Htrain.
  destruct (init_fields _ _ _ _ _ Hinit) as (Hn & Hfile & Hsp & Htp).
  unfold train in Htrain. rewrite Hn, Hfile, Hsp, Htp in Htrain.
  do 6 inv_bind Htrain. inversion Htrain; subst m'; clear Htrain.
  cbn [start_prob]. split.
  - intros Hk. apply mem_set_inv in Hk. destruct Hk as [-> | Hk]; [now left|].
    right.
    match goal with
    | Hs : foldM (set_log_prob _) _ [] = Ok _ |- _ =>
        destruct (set_log_prob_keys _ _ _ _ Hs k Hk) as [Hin | Hmem];
          [|discriminate]
    end.
    unfold keys in Hin. apply in_map_iff in Hin.
    destruct Hin as (kv & <- & Hkv).
    pose proof (start_count_keys lamb n0 lexicon) as HF.
    eapply Forall_forall in HF; [|exact Hkv]. exact HF.
  - intros [-> | (word & count & Hin & ->)]; [apply mem_set_eq|].
    apply mem_set_mono.
    destruct (counts_cover lamb n0 lexicon word count Hin) as [Hstart _].
    match goal with
    | Hs : foldM (set_log_prob _) _ [] = Ok _ |- _ =>
        exact (set_log_prob_mem _ _ _ _ Hs _ (or_introl Hstart))
    end.
Qed.

End StartKeys.


(** ** Which exceptions the identifier raises *)

Section ErrorPropagation.

Context {N : PyFloat}.
Import LanguageIdentifier.

Variable self : LanguageIdentifier.t.

(** X25. [identify] scores the tokens in order and lets the first exception
    of [score] through unchanged: when the tokens before some token all get
    a score and that token makes [score] raise, [identify] raises the same
    exception, in independent mode always and in Viterbi mode when the
    logarithms of the two priors and of their complements exist; unless the
    input is the single token [sea], which is never scored. *)
Theorem identify_propagates_score_error (pre post : list string)
    (token method : string) (err : exn) (p q : num) :
  (forall t, In t pre -> exists d, score self t = Ok d) ->
  score self token = Raise err ->
  pre <> [] \/ post <> [] \/ lower token <> "sea"%string ->
  method = "independent"%string
  \/ (method = "viterbi"%string
      /\ log p <> None /\ log (sub (of_Z 1) p) <> None
      /\ log q <> None /\ log (sub (of_Z 1) q) <> None) ->
  identify self (pre ++ token :: post) method p q = Raise err.
Proof.
  intros Hpre Herr Hsea Hmethod. unfold identify.
  assert (Hover : (length (pre ++ token :: post) =? 1)
                  && match pre ++ token :: post with
                     | t :: _ => String.eqb (lower t) "sea"
                     | [] => false
                     end = false).
  { destruct pre as [|t0 pre].
    - destruct post as [|t1 post].
      + destruct Hsea as [H | [H | H]]; try congruence.
        cbn [app length Nat.eqb andb]. now apply String.eqb_neq.
      + reflexivity.
    - destruct pre; cbn [app length Nat.eqb andb]; reflexivity. }
  rewrite Hover. unfold identify_method.
  destruct Hmethod as [-> | (-> & Hp & Hp' & Hq & Hq')];
    cbn [String.eqb Ascii.eqb Bool.eqb].
  - now rewrite (identify_independent_raises self pre token post err).
  - now rewrite (identify_viterbi_raises self pre token post err p q).
Qed.

End ErrorPropagation.

Section LookupSafety.

Context {N : PyFloat}.
Import LanguageIdentifier.

Lemma lookups_safe_Ok {A : Type} (a : A) : lookups_safe (Ok a).
Proof. intros e H. discriminate H. Qed.

Lemma lookups_safe_Raise {A B : Type} (e : exn) :
  lookups_safe (@Raise A e) -> lookups_safe (@Raise B e).
Proof.
  intros H e' He'. injection He' as <-. now apply H.
Qed.

Lemma lookups_safe_lift {A : Type} (e : exn) (o : option A) :
  arithmetic e = true -> lookups_safe (lift e o).
Proof.
  intros He e' H. destruct o; [discriminate H|].
  cbn in H. now injection H as <-.
Qed.

Lemma lookups_safe_fdiv (a b : num) : lookups_safe (fdiv a b).
Proof. now apply lookups_safe_lift. Qed.

Lemma lookups_safe_log (a : num) : lookups_safe (math_log a).
Proof. now apply lookups_safe_lift. Qed.

Lemma lookups_safe_exp (a : num) : lookups_safe (math_exp a).
Proof. now apply lookups_safe_lift. Qed.

Lemma lookups_safe_raw_lex (self : LanguageIdentifier.t) lang m word :
  get (model self) lang = Some m ->
  mem LanguageModel.OOV (LanguageModel.lex m) = true ->
  lookups_safe (raw_lex_score self lang word).
Proof.
  intros Hm Hoov. unfold raw_lex_score, getitem. rewrite Hm. cbn [lift bind].
  destruct (lex_score_mem m word Hoov) as [v ->]. cbn [bind].
  apply lookups_safe_exp.
Qed.

Lemma lookups_safe_raw_char (self : LanguageIdentifier.t) lang m word :
  get (model self) lang = Some m ->
  (exists c, LanguageModel.char_score m word = Ok c) ->
  lookups_safe (raw_char_score self lang word).
Proof.
  intros Hm [c Hc]. unfold raw_char_score, getitem. rewrite Hm.
  cbn [lift bind]. rewrite Hc. cbn [bind]. apply lookups_safe_exp.
Qed.

(** One call of [score]: take the call [c], known to be safe; go on with
    its value if it returns. *)
Ltac safe_step c lemma :=
  let H := fresh "Hsafe" in
  pose proof lemma as H;
  destruct c; [clear H; cbn [bind fst snd] | cbn [bind]; exact (lookups_safe_Raise _ H)].

Lemma lookups_safe_score (self : LanguageIdentifier.t) mg me word :
  get (model self) GA = Some mg ->
  get (model self) EN = Some me ->
  mem LanguageModel.OOV (LanguageModel.lex mg) = true ->
  mem LanguageModel.OOV (LanguageModel.lex me) = true ->
  (exists c, LanguageModel.char_score mg word = Ok c) ->
  (exists c, LanguageModel.char_score me word = Ok c) ->
  lookups_safe (score self word).
Proof.
  intros Hg He Hog Hoe Hcg Hce. unfold score.
  destruct (String.eqb word IGNORE); [apply lookups_safe_Ok|].
  cbn [foldM].
  safe_step (raw_lex_score self GA word)
            (lookups_safe_raw_lex self GA mg word Hg Hog).
  safe_step (raw_char_score self GA word)
            (lookups_safe_raw_char self GA mg word Hg Hcg).
  safe_step (raw_lex_score self EN word)
            (lookups_safe_raw_lex self EN me word He Hoe).
  safe_step (raw_char_score self EN word)
            (lookups_safe_raw_char self EN me word He Hce).
  rewrite !set_both. unfold relative.
  rewrite !getitem_GA, !getitem_EN. cbn [bind].
  repeat match goal with
         | |- context [fdiv ?a ?b] =>
             safe_step (fdiv a b) (lookups_safe_fdiv a b)
         end.
  rewrite !set_both. rewrite !getitem_GA, !getitem_EN. cbn [bind].
  safe_step (raw_lex_score self GA LanguageModel.OOV)
            (lookups_safe_raw_lex self GA mg LanguageModel.OOV Hg Hog).
  match goal with
  | |- context [if eqb ?a ?b then _ else _] => destruct (eqb a b)
  end.
  - safe_step (raw_lex_score self EN LanguageModel.OOV)
              (lookups_safe_raw_lex self EN me LanguageModel.OOV He Hoe).
    match goal with
    | |- context [if eqb ?a ?b then _ else _] => destruct (eqb a b)
    end; cbn [bind foldM];
      repeat match goal with
             | |- context [math_log ?a] =>
                 safe_step (math_log a) (lookups_safe_log a)
             end;
      apply lookups_safe_Ok.
  - cbn [bind foldM].
    repeat match goal with
           | |- context [math_log ?a] =>
               safe_step (math_log a) (lookups_safe_log a)
           end.
    apply lookups_safe_Ok.
Qed.

(** What [LanguageIdentifier.__init__] makes of the dumps of two models
    that were constructed and trained. *)
Lemma identifier_of_trained language_a language_b n_a n_b
    (lexicon_a lexicon_b lexicon_a' lexicon_b' : LanguageModel.lexicon_file)
    (lw_a lw_b lamb_a lamb_b lw : num)
    (ma ma' mb mb' : LanguageModel.t) (self : LanguageIdentifier.t) :
  LanguageModel.init language_a n_a lexicon_a lw_a = Ok ma ->
  LanguageModel.train ma lamb_a = Ok ma' ->
  LanguageModel.init language_b n_b lexicon_b lw_b = Ok mb ->
  LanguageModel.train mb lamb_b = Ok mb' ->
  LanguageIdentifier.init (LanguageModel.dump ma') (LanguageModel.dump mb')
                          lexicon_a' lexicon_b' lw = Ok self ->
  exists mg me,
    get (model self) GA = Some mg
    /\ get (model self) EN = Some me
    /\ mem LanguageModel.OOV (LanguageModel.lex mg) = true
    /\ mem LanguageModel.OOV (LanguageModel.lex me) = true
    /\ (forall word,
          LanguageModel.word2ngrams word n_a <> [] ->
          exists c, LanguageModel.char_score mg word = Ok c)
    /\ (forall word,
          LanguageModel.word2ngrams word n_b <> [] ->
          exists c, LanguageModel.char_score me word = Ok c).
Proof.
  intros Hma Hma' Hmb Hmb' Hself.
  unfold LanguageIdentifier.init in Hself.
  inv_bind Hself. inv_bind Hself. inversion Hself; subst; clear Hself.
  rename a into mg, a0 into me. exists mg, me. cbn [model].
  split; [reflexivity|]. split; [reflexivity|].
  assert (Hwf : forall language0 n0 lexicon lexicon' (lw0 lamb w : num)
                       (m m' m2 : LanguageModel.t),
             LanguageModel.init language0 n0 lexicon lw0 = Ok m ->
             LanguageModel.train m lamb = Ok m' ->
             LanguageModel.load (LanguageModel.dump m') lexicon' w = Ok m2 ->
             mem LanguageModel.OOV (LanguageModel.lex m2) = true
             /\ forall word,
                  LanguageModel.word2ngrams word n0 <> [] ->
                  exists c, LanguageModel.char_score m2 word = Ok c).
  { intros language0 n0 lexicon lexicon' lw0 lamb w m m' m2 Hm Hm' Hm2.
    destruct (init_fields _ _ _ _ _ Hm) as (Hn0 & _ & _ & Htp0).
    unfold LanguageModel.dump in Hm2.
    destruct (load_fields _ _ _ _ _ _ _ Hm2) as (Hn & Hsp & Htp & Hoov).
    pose proof (train_n _ _ _ Hm') as Hn'.
    destruct (train_fallbacks m lamb m') as (Hs & Hu & Hrows);
      [rewrite Htp0; intros g row; discriminate | assumption |].
    split; [assumption|]. intros word Hword.
    destruct (char_score_debug_total m2 word) as [r Hr].
    - now rewrite Hsp.
    - now rewrite Htp.
    - now rewrite Htp.
    - rewrite Hn, Hn', Hn0. assumption.
    - exists (fst r). unfold LanguageModel.char_score. now rewrite Hr. }
  destruct (Hwf _ _ _ _ _ _ _ _ _ _ Hma Hma' E) as [Hoa Hca].
  destruct (Hwf _ _ _ _ _ _ _ _ _ _ Hmb Hmb' E0) as [Hob Hcb].
  auto.
Qed.

Lemma lookups_safe_cases {A : Type} (r : result A) :
  lookups_safe r ->
  (exists a, r = Ok a) \/ (exists e, r = Raise e /\ arithmetic e = true).
Proof.
  intros H. destruct r as [a|e]; [left; eauto|].
  right. exists e. split; [reflexivity | now apply H].
Qed.

(** X26. In every arithmetic, on an identifier made from the dumps of two
    models that were constructed and trained, [score] never fails at a
    lookup for a word that yields an n-gram in both orders: it returns, or
    raises an exception of [math.exp], [math.log] or the division
    ([OverflowError], [ValueError], [ZeroDivisionError]), never [KeyError]
    or [IndexError]. *)
Theorem score_lookups_safe language_a language_b n_a n_b
    (lexicon_a lexicon_b lexicon_a' lexicon_b' : LanguageModel.lexicon_file)
    (lw_a lw_b lamb_a lamb_b lw : num)
    (ma ma' mb mb' : LanguageModel.t) (self : LanguageIdentifier.t)
    (word : string) :
  LanguageModel.init language_a n_a lexicon_a lw_a = Ok ma ->
  LanguageModel.train ma lamb_a = Ok ma' ->
  LanguageModel.init language_b n_b lexicon_b lw_b = Ok mb ->
  LanguageModel.train mb lamb_b = Ok mb' ->
  LanguageIdentifier.init (LanguageModel.dump ma') (LanguageModel.dump mb')
                          lexicon_a' lexicon_b' lw = Ok self ->
  LanguageModel.word2ngrams word n_a <> [] ->
  LanguageModel.word2ngrams word n_b <> [] ->
  (exists d, score self word = Ok d)
  \/ (exists err, score self word = Raise err /\ arithmetic err = true).
Proof.
  intros Hma Hma' Hmb Hmb' Hself Ha Hb.
  destruct (identifier_of_trained _ _ _ _ _ _ _ _ _ _ _ _ _ _ _ _ _ _
              Hma Hma' Hmb Hmb' Hself)
    as (mg & me & Hg & He & Hog & Hoe & Hcg & Hce).
  apply lookups_safe_cases.
  apply (lookups_safe_score self mg me word); auto.
Qed.

(** X27. In every arithmetic, on such an identifier, [identify] never fails
    at a lookup for a non-empty token list whose tokens each yield an
    n-gram in both orders: in independent mode, and in Viterbi mode when
    the logarithms of the two priors and of their complements exist, it
    returns a list of labels or raises an exception of the arithmetic,
    never [KeyError] or [IndexError]. *)
Theorem identify_lookups_safe language_a language_b n_a n_b
    (lexicon_a lexicon_b lexicon_a' lexicon_b' : LanguageModel.lexicon_file)
    (lw_a lw_b lamb_a lamb_b lw : num)
    (ma ma' mb mb' : LanguageModel.t) (self : LanguageIdentifier.t)
    (tokens : list string) (method : string) (p q : num) :
  LanguageModel.init language_a n_a lexicon_a lw_a = Ok ma ->
  LanguageModel.train ma lamb_a = Ok ma' ->
  LanguageModel.init language_b n_b lexicon_b lw_b = Ok mb ->
  LanguageModel.train mb lamb_b = Ok mb' ->
  LanguageIdentifier.init (LanguageModel.dump ma') (LanguageModel.dump mb')
                          lexicon_a' lexicon_b' lw = Ok self ->
  tokens <> [] ->
  (forall token, In token tokens ->
                 LanguageModel.word2ngrams token n_a <> []
                 /\ LanguageModel.word2ngrams token n_b <> []) ->
  method = "independent"%string
  \/ (method = "viterbi"%string
      /\ log p <> None /\ log (sub (of_Z 1) p) <> None
      /\ log q <> None /\ log (sub (of_Z 1) q) <> None) ->
  (exists languages, identify self tokens method p q = Ok (Some languages))
  \/ (exists err,
        identify self tokens method p q = Raise err
        /\ arithmetic err = true).
Proof.
  intros Hma Hma' Hmb Hmb' Hself Hne Hngrams Hmethod.
  destruct (identifier_of_trained _ _ _ _ _ _ _ _ _ _ _ _ _ _ _ _ _ _
              Hma Hma' Hmb Hmb' Hself)
    as (mg & me & Hg & He & Hog & Hoe & Hcg & Hce).
  assert (Hsafe : forall token, In token tokens ->
                                lookups_safe (score self token)).
  { intros token Hin. destruct (Hngrams token Hin) as [Ha Hb].
    apply (lookups_safe_score self mg me token); auto. }
  unfold identify.
  destruct ((length tokens =? 1)
            && match tokens with
               | token :: _ => String.eqb (lower token) "sea"
               | [] => false
               end); [left; eauto|].
  unfold identify_method.
  destruct (first_unscored self tokens)
    as [Hall | (pre & token & post & err & -> & Hpre & Herr)].
  - left.
    destruct Hmethod as [-> | (-> & Hp & Hp' & Hq & Hq')];
      cbn [String.eqb Ascii.eqb Bool.eqb].
    + destruct (identify_independent_labels self tokens Hall)
        as (ls & -> & _).
      cbn [bind]. eauto.
    + destruct (identify_viterbi_labels self tokens p q Hne Hall
                  Hp Hp' Hq Hq') as (ls & -> & _).
      cbn [bind]. eauto.
  - right. exists err. split.
    + destruct Hmethod as [-> | (-> & Hp & Hp' & Hq & Hq')];
        cbn [String.eqb Ascii.eqb Bool.eqb].
      * now rewrite (identify_independent_raises self pre token post err
                       Hpre Herr).
      * now rewrite (identify_viterbi_raises self pre token post err p q
                       Hpre Herr Hp Hp' Hq Hq').
    + apply (Hsafe token); [|exact Herr].
      apply in_or_app. right. now left.
Qed.

End LookupSafety.

(** ** Training a model that already has tables *)

Section Retraining.

Context {N : PyFloat}.
Import LanguageModel.

Lemma set_log_prob_other denominator (k : string) :
  forall (d sp0 sp : dict num),
    ~ In k (keys d) ->
    foldM (set_log_prob denominator) d sp0 = Ok sp ->
    get sp k = get sp0 k.
Proof.
  induction d as [|[k1 v1] r IH]; cbn [foldM]; intros sp0 sp Hnotin H.
  - now inversion H.
  - inv_bind H. unfold set_log_prob in E. cbn [fst snd] in E. inv_binds.
    rewrite (IH _ _ (fun Hin => Hnotin (or_intror Hin)) H).
    apply get_set_neq. intros ->. apply Hnotin. now left.
Qed.

(** The keys of [trans_count] are n-grams at positions of lexicon words
    that have a next position. *)
Lemma trans_count_keys lamb n0 (lexicon : lexicon_file) :
  Forall (fun kv : string * dict num =>
            exists word count i,
              In (word, count) lexicon
              /\ i < String.length (START ++ word ++ END) - n0
              /\ fst kv = substring i n0 (START ++ word ++ END))
         (trans_count (fold_left (count_line lamb n0) lexicon counts_init)).
Proof.
  apply (fold_left_preserves_In
           (fun c => Forall (fun kv : string * dict num =>
                               exists word count i,
                                 In (word, count) lexicon
                                 /\ i < String.length (START ++ word ++ END)
                                        - n0
                                 /\ fst kv
                                    = substring i n0 (START ++ word ++ END))
                            (trans_count c))).
  - intros c [word count] Hin Hc. unfold count_line.
    apply fold_left_preserves_In.
    + intros s i Hi Hs. apply in_seq in Hi. unfold count_transition.
      cbn [trans_count]. apply Forall_set; [exact Hs|]. cbn [fst].
      exists word, count, i. repeat split; [assumption | lia].
    + cbn [trans_count]. exact Hc.
  - constructor.
Qed.

(** X29. [train] writes into the tables that the model already has and
    does not empty them first: on a model with tables (one that [load]
    read from a file, or one trained before), every entry of [start_prob]
    whose key is neither [UNKNOWN] nor the start n-gram of a word of the
    lexicon file, and every row of [trans_prob] whose key is neither
    [UNKNOWN] nor an n-gram counted as the source of a transition, is still
    there, unchanged, after training. *)
Theorem train_keeps_other_entries (m m' : LanguageModel.t) (lamb : num) :
  train m lamb = Ok m' ->
  (forall k,
     k <> UNKNOWN ->
     (forall word count,
        In (word, count) (lex_file m) ->
        k <> substring 0 (n m) (START ++ word ++ END)) ->
     get (start_prob m') k = get (start_prob m) k)
  /\ (forall g,
        g <> UNKNOWN ->
        (forall word count i,
           In (word, count) (lex_file m) ->
           i < String.length (START ++ word ++ END) - n m ->
           g <> substring i (n m) (START ++ word ++ END)) ->
        get (trans_prob m') g = get (trans_prob m) g).
Proof.
  intros Htrain. unfold train in Htrain.
  do 6 inv_bind Htrain. inversion Htrain; subst m'; clear Htrain.
  cbn [start_prob trans_prob]. split.
  - intros k Hk Hfresh. rewrite get_set_neq by congruence.
    match goal with
    | Hs : foldM (set_log_prob _) _ _ = Ok _ |- _ =>
        apply (set_log_prob_other _ k _ _ _) with (2 := Hs)
    end.
    intros Hin. unfold keys in Hin. apply in_map_iff in Hin.
    destruct Hin as (kv & Hkv & Hin).
    pose proof (start_count_keys lamb (n m) (lex_file m)) as HF.
    eapply Forall_forall in HF; [|exact Hin].
    destruct HF as (word & count & Hw & Heq).
    apply (Hfresh word count Hw). congruence.
  - intros g Hg Hfresh.
    match goal with
    | Ht : foldM (train_transitions _ _) _ _ = Ok _ |- _ =>
        rewrite (train_transitions_other _ _ g _ _ _) with (2 := Ht)
    end.
    + apply get_set_neq. congruence.
    + intros Hin. unfold keys in Hin. apply in_map_iff in Hin.
      destruct Hin as (kv & Hkv & Hin).
      pose proof (trans_count_keys lamb (n m) (lex_file m)) as HF.
      eapply Forall_forall in HF; [|exact Hin].
      destruct HF as (word & count & i & Hw & Hi & Heq).
      apply (Hfresh word count i Hw Hi). congruence.
Qed.

End Retraining.

(** ** The estimates in closed form *)

Section DictLengths.

Context {V : Type}.

Lemma length_set (d : dict V) (k : string) (v : V) :
  length (set d k v) = if mem k d then length d else S (length d).
Proof.
  unfold mem. induction d as [|[k' v'] r IH]; cbn [set get length].
  - reflexivity.
  - destruct (String.eqb k' k); cbn [length]; [reflexivity|].
    rewrite IH. now destruct (get r k).
Qed.

Lemma mem_set_neq (d : dict V) (k k' : string) (v : V) :
  k <> k' -> mem k' (set d k v) = mem k' d.
Proof. intros H. unfold mem. now rewrite get_set_neq. Qed.

Lemma In_keys_mem (d : dict V) (k : string) :
  In k (keys d) -> mem k d = true.
Proof.
  intros H. unfold mem. destruct (get d k) eqn:E; [reflexivity|].
  now apply get_None_keys in E.
Qed.

Lemma mem_In_keys (d : dict V) (k : string) :
  mem k d = true -> In k (keys d).
Proof.
  unfold mem. destruct (get d k) eqn:E; [|discriminate]. intros _.
  apply get_In in E. change k with (fst (k, v)). now apply in_map.
Qed.

End DictLengths.

Section ClosedForm.

Context {N : PyFloat}.
Import LanguageModel.

(** *** The counting loops *)

Lemma accumulate_get (lamb : num) (key : string -> string) (k : string) :
  forall (lexicon : lexicon_file) (d : dict num),
    get (fold_left (accumulate lamb key) lexicon d) k
    = match get d k with
      | Some v => Some (counted v key lexicon k)
      | None =>
          if listed key lexicon k
          then Some (counted lamb key lexicon k)
          else None
      end.
Proof.
  induction lexicon as [|[word count] r IH]; intros d.
  - cbn. now destruct (get d k).
  - cbn [fold_left listed existsb fst snd]. fold (listed key r k).
    rewrite IH. unfold counted. cbn [fold_left fst snd].
    unfold accumulate at 1. cbn [fst snd].
    destruct (String.eqb (key word) k) eqn:E.
    + apply String.eqb_eq in E. subst k. rewrite get_set_eq.
      unfold get_default. cbn [orb]. now destruct (get d (key word)).
    + apply String.eqb_neq in E. rewrite get_set_neq by assumption.
      reflexivity.
Qed.

Lemma accumulate_NoDup (lamb : num) (key : string -> string)
    (lexicon : lexicon_file) (d : dict num) :
  NoDup (keys d) -> NoDup (keys (fold_left (accumulate lamb key) lexicon d)).
Proof.
  apply fold_left_preserves with (P := fun d => NoDup (keys d)).
  intros s a Hs. now apply NoDup_keys_set.
Qed.

Lemma listed_In (key : string -> string) (lexicon : lexicon_file) word count :
  In (word, count) lexicon -> listed key lexicon (key word) = true.
Proof.
  intros Hin. unfold listed. apply existsb_exists.
  exists (word, count). split; [assumption|]. cbn [fst].
  apply String.eqb_refl.
Qed.

Lemma load_lexicon_loop_eq (lamb : num) (lexicon : lexicon_file) :
  forall (st : dict num * Z),
    fold_left (load_lexicon_line lamb) lexicon st
    = (fold_left (accumulate lamb lexicon_key) lexicon (fst st),
       (snd st + total_frequency lexicon)%Z).
Proof.
  induction lexicon as [|[word count] r IH]; intros [lex0 total].
  - cbn. f_equal. lia.
  - cbn [fold_left total_frequency fold_right fst snd].
    fold (total_frequency r). rewrite IH. cbn [fst snd].
    unfold load_lexicon_line, accumulate. fold (lexicon_key word).
    cbn [fst snd]. f_equal. lia.
Qed.

Lemma count_line_start (lamb : num) (n0 : nat) (c : counts)
    (line : string * Z) :
  start_count (count_line lamb n0 c line)
  = accumulate lamb (start_ngram n0) (start_count c) line
  /\ token_total (count_line lamb n0 c line)
     = (token_total c + snd line)%Z.
Proof.
  destruct line as [word count]. unfold count_line.
  apply (fold_left_preserves
           (fun c' : counts =>
              start_count c'
              = accumulate lamb (start_ngram n0) (start_count c) (word, count)
              /\ token_total c' = (token_total c + count)%Z)).
  - intros s i Hs. exact Hs.
  - split; reflexivity.
Qed.

Lemma count_loop_start (lamb : num) (n0 : nat) (lexicon : lexicon_file) :
  forall (c : counts),
    start_count (fold_left (count_line lamb n0) lexicon c)
    = fold_left (accumulate lamb (start_ngram n0)) lexicon (start_count c)
    /\ token_total (fold_left (count_line lamb n0) lexicon c)
       = (token_total c + total_frequency lexicon)%Z.
Proof.
  induction lexicon as [|line r IH]; intros c.
  - cbn. split; [reflexivity | lia].
  - cbn [fold_left total_frequency fold_right].
    fold (total_frequency r).
    destruct (IH (count_line lamb n0 c line)) as [-> ->].
    destruct (count_line_start lamb n0 c line) as [-> ->].
    split; [reflexivity | lia].
Qed.

Lemma count_event_get2 (lamb : num) (g g' : string) :
  forall (evs : list (string * string * Z)) (st : dict (dict num) * dict Z),
    get2 (fst (fold_left (count_event lamb) evs st)) g g'
    = match get2 (fst st) g g' with
      | Some v => Some (pair_counted v evs g g')
      | None =>
          if pair_listed evs g g'
          then Some (pair_counted lamb evs g g')
          else None
      end.
Proof.
  induction evs as [|[[a b] cnt] r IH]; intros [tc tt].
  - cbn. now destruct (get2 tc g g').
  - cbn [fold_left pair_listed existsb fst snd].
    fold (pair_listed r g g').
    rewrite IH. unfold pair_counted. cbn [fold_left fst snd].
    unfold count_event at 1. cbn [fst snd].
    destruct (String.eqb a g) eqn:Ea; cbn [andb orb].
    + apply String.eqb_eq in Ea. subst a. unfold get2 at 1.
      rewrite get_set_eq.
      assert (Hrow : forall k, get (get_default tc g []) k = get2 tc g k).
      { intros k. unfold get_default, get2.
        destruct (get tc g); reflexivity. }
      destruct (String.eqb b g') eqn:Eb; cbn [orb].
      * apply String.eqb_eq in Eb. subst b. rewrite get_set_eq.
        unfold get_default at 1. rewrite Hrow.
        now destruct (get2 tc g g').
      * apply String.eqb_neq in Eb. rewrite get_set_neq by assumption.
        rewrite Hrow. reflexivity.
    + apply String.eqb_neq in Ea. unfold get2 at 1.
      rewrite get_set_neq by assumption. reflexivity.
Qed.

Lemma count_event_total (lamb : num) (g : string) :
  forall (evs : list (string * string * Z)) (st : dict (dict num) * dict Z),
    get (snd (fold_left (count_event lamb) evs st)) g
    = match get (snd st) g with
      | Some z => Some (z + source_frequency evs g)%Z
      | None =>
          if source_listed evs g then Some (source_frequency evs g) else None
      end.
Proof.
  induction evs as [|[[a b] cnt] r IH]; intros [tc tt].
  - cbn. destruct (get tt g); [f_equal; lia | reflexivity].
  - cbn [fold_left source_frequency source_listed fold_right existsb fst snd].
    fold (source_frequency r g). fold (source_listed r g).
    rewrite IH. unfold count_event at 1. cbn [fst snd].
    destruct (String.eqb a g) eqn:Ea; cbn [orb].
    + apply String.eqb_eq in Ea. subst a. rewrite get_set_eq.
      unfold get_default. destruct (get tt g); f_equal; lia.
    + apply String.eqb_neq in Ea. rewrite get_set_neq by assumption.
      reflexivity.
Qed.

(** The loops of [train] over the lines and the positions count the
    transitions one by one. *)
Lemma count_transitions_events (lamb : num) (n0 : nat) (token : string)
    (count : Z) :
  forall (l : list nat) (c : counts),
    (trans_count (fold_left (count_transition lamb n0 token count) l c),
     trans_total (fold_left (count_transition lamb n0 token count) l c))
    = fold_left (count_event lamb)
                (map (fun i => (substring i n0 token,
                                substring (i + 1) n0 token, count)) l)
                (trans_count c, trans_total c).
Proof.
  induction l as [|i r IH]; intros c; [reflexivity|].
  cbn [fold_left map]. rewrite IH. reflexivity.
Qed.

Lemma count_lines_events (lamb : num) (n0 : nat) :
  forall (lexicon : lexicon_file) (c : counts),
    (trans_count (fold_left (count_line lamb n0) lexicon c),
     trans_total (fold_left (count_line lamb n0) lexicon c))
    = fold_left (count_event lamb) (transitions n0 lexicon)
                (trans_count c, trans_total c).
Proof.
  induction lexicon as [|[word count] r IH]; intros c; [reflexivity|].
  cbn [fold_left transitions flat_map fst snd].
  fold (transitions n0 r). rewrite fold_left_app, IH.
  f_equal. unfold count_line. rewrite count_transitions_events.
  reflexivity.
Qed.

Lemma pair_listed_In (n0 : nat) (lexicon : lexicon_file) word count i :
  In (word, count) lexicon ->
  i < String.length (START ++ word ++ END) - n0 ->
  pair_listed (transitions n0 lexicon)
              (substring i n0 (START ++ word ++ END))
              (substring (i + 1) n0 (START ++ word ++ END)) = true.
Proof.
  intros Hin Hi. unfold pair_listed. apply existsb_exists.
  exists (substring i n0 (START ++ word ++ END),
          substring (i + 1) n0 (START ++ word ++ END), count).
  split.
  - unfold transitions. apply in_flat_map. exists (word, count).
    split; [assumption|]. cbn [fst snd].
    apply in_map_iff. exists i. split; [reflexivity|].
    apply in_seq. lia.
  - cbn [fst snd]. now rewrite !String.eqb_refl.
Qed.

Lemma pair_listed_source (evs : list (string * string * Z)) (g g' : string) :
  pair_listed evs g g' = true -> source_listed evs g = true.
Proof.
  unfold pair_listed, source_listed. rewrite !existsb_exists.
  intros (ev & Hin & H). exists ev. split; [assumption|].
  now apply andb_prop in H.
Qed.

(** *** The keys of the counters *)

Lemma start_key_not_unknown (n0 : nat) (word : string) :
  substring 0 n0 (START ++ word ++ END) <> UNKNOWN.
Proof.
  change (START ++ word ++ END)%string with (String "<" (word ++ END)).
  destruct n0 as [|k]; cbn [substring]; discriminate.
Qed.

Lemma count_transition_keyed (lamb : num) n0 token (token_count : Z)
    (c : counts) (i : nat) :
  i < String.length token - n0 ->
  counts_keyed n0 c ->
  counts_keyed n0 (count_transition lamb n0 token token_count c i).
Proof.
  intros Hi (Hnds & Hkeys & Hndt & Hrows).
  unfold counts_keyed, count_transition.
  cbn [token_total start_count trans_count trans_total].
  set (g := substring i n0 token).
  set (g' := substring (i + 1) n0 token).
  assert (Hrow : NoDup (keys (get_default (trans_count c) g []))
                 /\ Forall (fun kv : string * num =>
                              String.length (fst kv) = n0)
                           (get_default (trans_count c) g [])).
  { unfold get_default.
    destruct (get (trans_count c) g) as [row|] eqn:Erow.
    - exact (Hrows g row Erow).
    - split; constructor. }
  split; [assumption|]. split; [assumption|].
  split; [apply NoDup_keys_set; exact Hndt|].
  intros g1 nexts Hget. destruct (string_dec g g1) as [<- | Hne].
  - rewrite get_set_eq in Hget. injection Hget as <-.
    destruct Hrow as (Hnd & Hlen).
    split; [apply NoDup_keys_set; exact Hnd|].
    apply Forall_set; [exact Hlen|]. cbn [fst].
    apply substring_length. lia.
  - rewrite get_set_neq in Hget by assumption. exact (Hrows g1 nexts Hget).
Qed.

Lemma count_line_keyed (lamb : num) n0 (c : counts) (line : string * Z) :
  counts_keyed n0 c -> counts_keyed n0 (count_line lamb n0 c line).
Proof.
  intros (Hnds & Hkeys & Hndt & Hrows).
  destruct line as [word count]. unfold count_line.
  apply fold_left_preserves_In.
  - intros s i Hin Hs. apply in_seq in Hin.
    apply count_transition_keyed; [lia | assumption].
  - unfold counts_keyed.
    cbn [token_total start_count trans_count trans_total].
    split; [|split; [|split]].
    + apply NoDup_keys_set; assumption.
    + apply Forall_set; [assumption|]. apply start_key_not_unknown.
    + assumption.
    + assumption.
Qed.

Lemma counts_keyed_fold (lamb : num) n0 lexicon :
  counts_keyed n0 (fold_left (count_line lamb n0) lexicon counts_init).
Proof.
  apply fold_left_preserves.
  - intros s a. apply count_line_keyed.
  - unfold counts_keyed, counts_init. cbn.
    repeat split; try constructor; discriminate.
Qed.

(** *** The conversion loops *)

(** Every count of the dict iterated is divided and its logarithm taken
    and stored, under its key. *)
Lemma set_log_prob_get denominator :
  forall (d sp0 sp : dict num),
    NoDup (keys d) ->
    foldM (set_log_prob denominator) d sp0 = Ok sp ->
    forall k count,
      get d k = Some count ->
      exists v, get sp k = Some v /\ estimate count denominator v.
Proof.
  induction d as [|[k1 v1] r IH]; cbn [foldM]; intros sp0 sp Hnd H k count Hk.
  - discriminate.
  - inversion Hnd as [|? ? Hnotin Hndr]; subst.
    inv_bind H. cbn [get] in Hk.
    destruct (String.eqb k1 k) eqn:Ek.
    + apply String.eqb_eq in Ek. subst k1. injection Hk as <-.
      unfold set_log_prob in E. cbn [fst snd] in E.
      inv_bind E. inv_bind E. injection E as <-.
      exists a1. split.
      * rewrite (set_log_prob_other _ k _ _ _ Hnotin H). apply get_set_eq.
      * exists a0. split; assumption.
    + eapply IH; eassumption.
Qed.

(** Converted in place, a dict keeps its length; converted into another
    dict that has none of its keys, it adds its length. *)
Lemma set_log_prob_length_in_place denominator :
  forall (d sp0 sp : dict num),
    (forall k, In k (keys d) -> mem k sp0 = true) ->
    foldM (set_log_prob denominator) d sp0 = Ok sp ->
    length sp = length sp0.
Proof.
  induction d as [|[k1 v1] r IH]; cbn [foldM]; intros sp0 sp Hmem H.
  - now injection H as <-.
  - inv_bind H. unfold set_log_prob in E. cbn [fst snd] in E.
    inv_bind E. inv_bind E. injection E as <-.
    rewrite (IH _ _ (fun k Hk => mem_set_mono _ _ _ _
                                   (Hmem k (or_intror Hk))) H).
    rewrite length_set, (Hmem k1 (or_introl eq_refl)). reflexivity.
Qed.

Lemma set_log_prob_length_fresh denominator :
  forall (d sp0 sp : dict num),
    NoDup (keys d) ->
    (forall k, In k (keys d) -> mem k sp0 = false) ->
    foldM (set_log_prob denominator) d sp0 = Ok sp ->
    length sp = length sp0 + length d.
Proof.
  induction d as [|[k1 v1] r IH]; cbn [foldM]; intros sp0 sp Hnd Hmem H.
  - injection H as <-. cbn. lia.
  - inversion Hnd as [|? ? Hnotin Hndr]; subst.
    inv_bind H. unfold set_log_prob in E. cbn [fst snd] in E.
    inv_bind E. inv_bind E. injection E as <-.
    rewrite (IH _ _ Hndr) with (2 := H).
    + rewrite length_set, (Hmem k1 (or_introl eq_refl)). cbn [length]. lia.
    + intros k Hk. rewrite mem_set_neq.
      * apply Hmem. now right.
      * intros ->. contradiction.
Qed.

(** The rows that the last loop of [train] builds, one per source n-gram. *)
Lemma train_transitions_get (lamb : num) (tt : dict Z) :
  forall (l : dict (dict num)) (tp0 tp : dict (dict num)),
    NoDup (keys l) ->
    foldM (train_transitions lamb tt) l tp0 = Ok tp ->
    forall g nexts,
      get l g = Some nexts ->
      exists total row u,
        get tt g = Some total
        /\ foldM (set_log_prob (smoothed lamb total (S (length nexts))))
                 nexts []
           = Ok row
        /\ estimate lamb (smoothed lamb total (S (length nexts))) u
        /\ get tp g = Some (set row UNKNOWN u).
Proof.
  induction l as [|[k nexts0] r IH]; cbn [foldM];
    intros tp0 tp Hnd Hrun g nexts Hg.
  - discriminate.
  - inversion Hnd as [|? ? Hnotin Hndr]; subst.
    inv_bind Hrun. cbn [get] in Hg.
    destruct (String.eqb k g) eqn:Ek.
    + apply String.eqb_eq in Ek. subst k. injection Hg as <-.
      unfold train_transitions in E.
      apply bind_Ok in E. destruct E as (total & Ht & E).
      apply bind_Ok in E. destruct E as (row1 & Hrow1 & E).
      injection E as <-.
      unfold train_row in Hrow1.
      apply bind_Ok in Hrow1. destruct Hrow1 as (row & Hrow & Hrow1).
      apply bind_Ok in Hrow1. destruct Hrow1 as (q & Hq & Hrow1).
      apply bind_Ok in Hrow1. destruct Hrow1 as (u & Hu & Hrow1).
      injection Hrow1 as <-.
      unfold getitem in Ht. destruct (get tt g) as [total'|] eqn:Et;
        [|discriminate].
      injection Ht as ->.
      assert (Hden : add (of_Z total)
                         (mul lamb (of_Z (Z.of_nat (length nexts0) + 1)))
                     = smoothed lamb total (S (length nexts0))).
      { unfold smoothed. now rewrite Nat2Z.inj_succ, <- Z.add_1_r. }
      rewrite Hden in *.
      exists total, row, u. split; [reflexivity|]. split; [assumption|].
      split; [exists q; split; assumption|].
      rewrite (train_transitions_other _ _ g _ _ _ Hnotin Hrun).
      apply get_set_eq.
    + eapply IH; eassumption.
Qed.

(** *** The three tables *)

(** X23. For a lexicon file of ASCII words whose frequencies convert to
    floats, in every arithmetic: when the model has been constructed (or
    loaded), the lexicon score of a word that the lexicon file lists (other
    than ['###']) is [math.log(count / denominator)], where [count] is the
    counter of the key of the word (the word itself below four characters,
    its lower-case form from four on): [0.1] and then the frequency of
    every line filed under that key, added in the order of the file; and
    [denominator] is [N + 0.1 * K], with [N] the integer total of the
    frequencies of all lines and [K] the number of entries of the lexicon,
    the out-of-vocabulary entry included.  The out-of-vocabulary score is
    [math.log(0.1 / denominator)].  Every operation is that of the
    arithmetic: in binary64 each sum, product, quotient and logarithm is
    rounded. *)
Theorem lex_score_closed_form language0 n0 (mf : model_file) lexicon
    (lw : num) (m : LanguageModel.t) (word : string) (count : Z) :
  ascii_lexicon lexicon = true ->
  frequencies_convert lexicon = true ->
  init language0 n0 lexicon lw = Ok m \/ load mf lexicon lw = Ok m ->
  In (word, count) lexicon ->
  word <> OOV ->
  exists v oov,
    lex_score m word = Ok v
    /\ estimate (counted (of_Q (1 # 10)) lexicon_key lexicon
                         (lexicon_key word))
                (smoothed (of_Q (1 # 10)) (total_frequency lexicon)
                          (length (lex m)))
                v
    /\ lex_score m OOV = Ok oov
    /\ estimate (of_Q (1 # 10))
                (smoothed (of_Q (1 # 10)) (total_frequency lexicon)
                          (length (lex m)))
                oov.
Proof.
  intros _ _ Hbuilt Hin Hword.
  pose proof (built_lex _ _ _ _ _ _ Hbuilt) as Hlex.
  pose proof (lexicon_key_OOV word Hword) as Hkey.
  unfold load_lexicon in Hlex.
  rewrite (load_lexicon_loop_eq (of_Q (1 # 10)) lexicon ([], 0%Z)) in Hlex.
  cbn [fst snd] in Hlex. rewrite Z.add_0_l in Hlex.
  set (lamb := of_Q (1 # 10)) in *.
  set (lex1 := fold_left (accumulate lamb lexicon_key) lexicon []) in *.
  set (lex' := set lex1 OOV lamb) in *.
  fold (smoothed lamb (total_frequency lexicon) (length lex')) in Hlex.
  assert (Hnd : NoDup (keys lex')).
  { apply NoDup_keys_set, accumulate_NoDup. constructor. }
  assert (Hlen : length (lex m) = length lex').
  { eapply set_log_prob_length_in_place; [|exact Hlex]. apply In_keys_mem. }
  rewrite Hlen.
  destruct (set_log_prob_get _ _ _ _ Hnd Hlex (lexicon_key word)
              (counted lamb lexicon_key lexicon (lexicon_key word)))
    as (v & Hv & Hev).
  { unfold lex'. rewrite get_set_neq by (intros Heq; apply Hkey; now rewrite Heq).
    unfold lex1. rewrite accumulate_get. cbn [get].
    now rewrite (listed_In lexicon_key lexicon word count Hin). }
  destruct (set_log_prob_get _ _ _ _ Hnd Hlex OOV lamb) as (oov & Ho & Heo).
  { unfold lex'. apply get_set_eq. }
  exists v, oov. repeat split; try assumption.
  - unfold lex_score, getitem. rewrite Ho. cbn [lift bind].
    fold (lexicon_key word). unfold get_default. now rewrite Hv.
  - unfold lex_score, getitem. rewrite Ho. cbn [lift bind].
    unfold get_default.
    change (if CASE_SENSITIVITY_THRESHOLD <=? String.length OOV
            then lower OOV else OOV) with OOV.
    now rewrite Ho.
Qed.

(** X24. For a lexicon file of ASCII words whose frequencies convert to
    floats, in every arithmetic: after training a newly constructed model,
    the start table holds for the start n-gram of every lexicon word
    [math.log(count / denominator)], where [count] is the counter of that
    n-gram ([lamb] and then the frequency of every line with that start
    n-gram, added in the order of the file) and [denominator] is [N + lamb *
    K], with [N] the integer total of the frequencies of all lines and [K]
    the number of entries of the table, the [UNKNOWN] entry included; under
    [UNKNOWN] it holds [math.log(lamb / denominator)].  Every operation is
    that of the arithmetic. *)
Theorem start_prob_closed_form language0 n0 lexicon (lw lamb : num)
    (m m' : LanguageModel.t) (word : string) (count : Z) :
  ascii_lexicon lexicon = true ->
  frequencies_convert lexicon = true ->
  transitions_convert n0 lexicon = true ->
  init language0 n0 lexicon lw = Ok m ->
  train m lamb = Ok m' ->
  In (word, count) lexicon ->
  exists v u,
    get (start_prob m') (start_ngram n0 word) = Some v
    /\ estimate (counted lamb (start_ngram n0) lexicon (start_ngram n0 word))
                (smoothed lamb (total_frequency lexicon)
                          (length (start_prob m')))
                v
    /\ get (start_prob m') UNKNOWN = Some u
    /\ estimate lamb
                (smoothed lamb (total_frequency lexicon)
                          (length (start_prob m')))
                u.
Proof.
  intros _ _ _ Hinit Htrain Hin.
  destruct (init_fields _ _ _ _ _ Hinit) as (Hn & Hfile & Hsp & Htp).
  unfold train in Htrain. rewrite Hn, Hfile, Hsp in Htrain.
  do 6 inv_bind Htrain. inversion Htrain; subst m'; clear Htrain.
  cbn [start_prob].
  set (c := fold_left (count_line lamb n0) lexicon counts_init) in *.
  destruct (count_loop_start lamb n0 lexicon counts_init) as [Hsc Htt].
  fold c in Hsc, Htt. cbn [counts_init start_count token_total] in Hsc, Htt.
  rewrite Z.add_0_l in Htt.
  destruct (counts_keyed_fold lamb n0 lexicon) as (Hnd & Hkeys & _).
  fold c in Hnd, Hkeys.
  assert (Hunk : ~ In UNKNOWN (keys (start_count c))).
  { intros HinU. unfold keys in HinU. apply in_map_iff in HinU.
    destruct HinU as (kv & Hkv & HinU).
    eapply Forall_forall in Hkeys; [|exact HinU]. contradiction. }
  assert (Hden : add (of_Z (token_total c))
                     (mul lamb (of_Z (Z.of_nat (length (start_count c)) + 1)))
                 = smoothed lamb (total_frequency lexicon)
                            (S (length (start_count c)))).
  { unfold smoothed. now rewrite Htt, Nat2Z.inj_succ, <- Z.add_1_r. }
  rewrite Hden in *.
  assert (Hlen : length (set a1 UNKNOWN a3) = S (length (start_count c))).
  { rewrite length_set.
    assert (Hm : mem UNKNOWN a1 = false).
    { unfold mem. now rewrite (set_log_prob_other _ UNKNOWN _ _ _ Hunk E1). }
    rewrite Hm.
    rewrite (set_log_prob_length_fresh _ _ _ _ Hnd) with (2 := E1);
      [reflexivity|]. reflexivity. }
  rewrite Hlen.
  destruct (set_log_prob_get _ _ _ _ Hnd E1 (start_ngram n0 word)
              (counted lamb (start_ngram n0) lexicon (start_ngram n0 word)))
    as (v & Hv & Hev).
  { rewrite Hsc, accumulate_get. cbn [get].
    now rewrite (listed_In (start_ngram n0) lexicon word count Hin). }
  exists v, a3. split; [|split; [exact Hev|split]].
  - rewrite get_set_neq; [exact Hv|].
    intros Heq. symmetry in Heq. revert Heq. apply start_key_not_unknown.
  - apply get_set_eq.
  - exists a2. split; assumption.
Qed.

(** X28. For a lexicon file of ASCII words whose frequencies convert to
    floats, and an n-gram order other than 7, in every arithmetic: after
    training a newly constructed model, the transition table holds for every
    transition of a lexicon word, from the n-gram [g] at a position of the
    padded word to the n-gram [g'] at the next position, [math.log(count /
    denominator)], where [count] is the counter of the transition ([lamb]
    and then the frequency of the line at every occurrence of the
    transition, added in the order of the file and of the positions) and
    [denominator] is [F + lamb * K], with [F] the integer total of the
    frequencies of the transitions that leave [g] and [K] the number of
    entries of the row of [g], its [UNKNOWN] entry included; under [UNKNOWN]
    the row holds [math.log(lamb / denominator)].  Every operation is that
    of the arithmetic. *)
Theorem trans_prob_closed_form language0 n0 lexicon (lw lamb : num)
    (m m' : LanguageModel.t) (word : string) (count : Z) (i : nat) :
  ascii_lexicon lexicon = true ->
  frequencies_convert lexicon = true ->
  transitions_convert n0 lexicon = true ->
  n0 <> 7 ->
  init language0 n0 lexicon lw = Ok m ->
  train m lamb = Ok m' ->
  In (word, count) lexicon ->
  i < String.length (START ++ word ++ END) - n0 ->
  exists row v u,
    get (trans_prob m') (substring i n0 (START ++ word ++ END)) = Some row
    /\ get row (substring (i + 1) n0 (START ++ word ++ END)) = Some v
    /\ estimate (pair_counted lamb (transitions n0 lexicon)
                              (substring i n0 (START ++ word ++ END))
                              (substring (i + 1) n0 (START ++ word ++ END)))
                (smoothed lamb
                          (source_frequency
                             (transitions n0 lexicon)
                             (substring i n0 (START ++ word ++ END)))
                          (length row))
                v
    /\ get row UNKNOWN = Some u
    /\ estimate lamb
                (smoothed lamb
                          (source_frequency
                             (transitions n0 lexicon)
                             (substring i n0 (START ++ word ++ END)))
                          (length row))
                u.
Proof.
  intros _ _ _ Hn7 Hinit Htrain Hin Hi.
  destruct (init_fields _ _ _ _ _ Hinit) as (Hn & Hfile & Hsp & Htp).
  unfold train in Htrain. rewrite Hn, Hfile, Hsp, Htp in Htrain.
  do 6 inv_bind Htrain. inversion Htrain; subst m'; clear Htrain.
  cbn [trans_prob].
  set (c := fold_left (count_line lamb n0) lexicon counts_init) in *.
  set (g := substring i n0 (START ++ word ++ END)).
  set (g' := substring (i + 1) n0 (START ++ word ++ END)).
  set (evs := transitions n0 lexicon).
  pose proof (count_lines_events lamb n0 lexicon counts_init) as Hev.
  fold c in Hev. cbn [counts_init trans_count trans_total] in Hev.
  fold evs in Hev.
  assert (Htc : trans_count c = fst (fold_left (count_event lamb) evs ([], [])))
    by exact (f_equal fst Hev).
  assert (Htt : trans_total c = snd (fold_left (count_event lamb) evs ([], [])))
    by exact (f_equal snd Hev).
  pose proof (pair_listed_In n0 lexicon word count i Hin Hi) as Hpl.
  fold g g' evs in Hpl.
  pose proof (count_event_get2 lamb g g' evs ([], [])) as Hpair.
  rewrite <- Htc in Hpair. cbn [fst get2 get] in Hpair. rewrite Hpl in Hpair.
  pose proof (count_event_total lamb g evs ([], [])) as Htot.
  rewrite <- Htt in Htot. cbn [snd get] in Htot.
  rewrite (pair_listed_source _ _ _ Hpl) in Htot.
  unfold get2 in Hpair.
  destruct (get (trans_count c) g) as [nexts|] eqn:Enexts; [|discriminate].
  destruct (counts_keyed_fold lamb n0 lexicon) as (_ & _ & Hndt & Hrows).
  fold c in Hndt, Hrows.
  destruct (Hrows g nexts Enexts) as (Hndn & Hlens).
  destruct (train_transitions_get lamb (trans_total c) _ _ _ Hndt E4
              g nexts Enexts)
    as (total & row & u & Ht & Hrow & Hu & Hget).
  rewrite Htot in Ht. injection Ht as <-.
  assert (HunkN : ~ In UNKNOWN (keys nexts)).
  { intros HinU. unfold keys in HinU. apply in_map_iff in HinU.
    destruct HinU as (kv & Hkv & HinU).
    eapply Forall_forall in Hlens; [|exact HinU].
    rewrite Hkv in Hlens. cbn in Hlens. congruence. }
  assert (Hg' : g' <> UNKNOWN).
  { intros Heq. apply HunkN. rewrite <- Heq.
    apply mem_In_keys. unfold mem. now rewrite Hpair. }
  assert (Hlen : length (set row UNKNOWN u) = S (length nexts)).
  { rewrite length_set.
    assert (Hm : mem UNKNOWN row = false).
    { unfold mem. now rewrite (set_log_prob_other _ UNKNOWN _ _ _ HunkN Hrow). }
    rewrite Hm.
    rewrite (set_log_prob_length_fresh _ _ _ _ Hndn) with (2 := Hrow);
      reflexivity. }
  destruct (set_log_prob_get _ _ _ _ Hndn Hrow g' _ Hpair) as (v & Hv & Hev').
  exists (set row UNKNOWN u), v, u. rewrite Hlen.
  split; [exact Hget|]. split; [|split; [exact Hev'|split]].
  - rewrite get_set_neq; [exact Hv | congruence].
  - apply get_set_eq.
  - exact Hu.
Qed.

End ClosedForm.

Section RToy.

Import LanguageModel.
Local Open Scope R_scope.

Lemma Toy_frequencies_ok : frequencies_ok Toy.lexicon_ga.
Proof.
  intros word count Hin. cbn in Hin.
  destruct Hin as [H | [H | []]]; injection H as _ <-; lia.
Qed.

(** Over the reals, the toy model of language A is constructed. *)
Lemma RToy_constructed :
  exists m : @LanguageModel.t RFloat,
    @init RFloat "ga" 2 Toy.lexicon_ga 1 = Ok m.
Proof.
  destruct (Rload_lexicon_total Toy.lexicon_ga Toy_frequencies_ok)
    as [lex0 Hlex].
  unfold init. rewrite Hlex. cbn [bind]. eauto.
Qed.

End RToy.

(** ** The theorems at concrete inputs *)

Section Witnesses.

Import LanguageIdentifier.

(** C1 at the tokens [ab xy zz], Viterbi mode, the default priors. *)
Lemma identify_labels_witness :
  exists languages,
    @identify QFloat Toy.q_identifier ["ab"; "xy"; "zz"]%string "viterbi"
              (78 # 100) (3 # 4)
    = Ok (Some languages)
    /\ length languages = 3
    /\ Forall is_label languages.
Proof.
  apply (@identify_labels QFloat Toy.q_identifier
           ["ab"; "xy"; "zz"]%string "viterbi" (78 # 100) (3 # 4)).
  - discriminate.
  - intros token [<- | [<- | [<- | []]]]; eexists; vm_compute; reflexivity.
  - right. repeat split; vm_compute; discriminate.
Defined.


(** X13 at the tokens [ab xy zz], with the default priors. *)
Lemma identify_viterbi_optimal_witness :
  exists scs path lp lp' lq lq',
    @scored QFloat Toy.q_identifier ["ab"; "xy"; "zz"]%string scs
    /\ @log QFloat (78 # 100) = Some lp
    /\ @log QFloat (@sub QFloat 1%Q (78 # 100)) = Some lp'
    /\ @log QFloat (3 # 4) = Some lq
    /\ @log QFloat (@sub QFloat 1%Q (3 # 4)) = Some lq'
    /\ @identify_viterbi QFloat Toy.q_identifier ["ab"; "xy"; "zz"]%string
                         (78 # 100) (3 # 4)
       = Ok (map (fun b => PyStr (code b)) path)
    /\ length path = 3
    /\ forall path',
         length path' = 3 ->
         @leb QFloat (@path_logp QFloat lp lp' lq lq' scs path')
              (@path_logp QFloat lp lp' lq lq' scs path) = true.
Proof.
  destruct (@scored_exists QFloat Toy.q_identifier ["ab"; "xy"; "zz"]%string)
    as [scs Hsc].
  { intros token [<- | [<- | [<- | []]]]; eexists; vm_compute; reflexivity. }
  destruct (@identify_viterbi_optimal QFloat QFloat_rounded Toy.q_identifier
              ["ab"; "xy"; "zz"]%string scs (78 # 100) (3 # 4)
              (- 11 # 39) (- 39 # 11) (- 1 # 3) (- 3 # 1))
    as (path & H); [discriminate | exact Hsc | reflexivity..|].
  exists scs, path, (- 11 # 39), (- 39 # 11), (- 1 # 3), (- 3 # 1).
  split; [exact Hsc|]. repeat (split; [reflexivity|]). exact H.
Defined.

(** C3 at the lexicon [ab 1], order 4. *)
Lemma char_score_training_word_unknown_witness :
  @LanguageModel.init QFloat "ga" 4 [("ab"%string, 1%Z)] 1%Q
  = Ok Toy.order4_constructed
  /\ @LanguageModel.train QFloat Toy.order4_constructed (1 # 1000)
     = Ok Toy.order4_trained
  /\ exists logp,
       LanguageModel.char_score_debug Toy.order4_trained "ab"
       = Ok (logp, [LanguageModel.StartUnknown; LanguageModel.GlobalUnknown;
                    LanguageModel.GlobalUnknown]).
Proof.
  assert (Hinit : @LanguageModel.init QFloat "ga" 4 [("ab"%string, 1%Z)] 1%Q
                  = Ok Toy.order4_constructed)
    by (vm_cast_no_check (eq_refl (Ok Toy.order4_constructed))).
  assert (Htrain : @LanguageModel.train QFloat Toy.order4_constructed
                     (1 # 1000)
                   = Ok Toy.order4_trained)
    by (vm_cast_no_check (eq_refl (Ok Toy.order4_trained))).
  split; [exact Hinit|]. split; [exact Htrain|].
  exact (@char_score_training_word_unknown QFloat 1%Q (1 # 1000)
           Toy.order4_constructed Toy.order4_trained Hinit Htrain).
Defined.

(** C4 at the toy lexicon of language A, order 2, and the unseen word [zz]. *)
Lemma char_score_never_misses_witness :
  @LanguageModel.init QFloat "ga" 2 Toy.lexicon_ga 1%Q
  = Ok Toy.ga_constructed
  /\ @LanguageModel.train QFloat Toy.ga_constructed (1 # 1000)
     = Ok Toy.ga_trained
  /\ LanguageModel.word2ngrams "zz" 2 <> []
  /\ exists logp, LanguageModel.char_score Toy.ga_trained "zz" = Ok logp.
Proof.
  assert (Hinit : @LanguageModel.init QFloat "ga" 2 Toy.lexicon_ga 1%Q
                  = Ok Toy.ga_constructed)
    by (vm_cast_no_check (eq_refl (Ok Toy.ga_constructed))).
  assert (Htrain : @LanguageModel.train QFloat Toy.ga_constructed (1 # 1000)
                   = Ok Toy.ga_trained)
    by (vm_cast_no_check (eq_refl (Ok Toy.ga_trained))).
  assert (Hne : LanguageModel.word2ngrams "zz" 2 <> []) by discriminate.
  split; [exact Hinit|]. split; [exact Htrain|]. split; [exact Hne|].
  exact (@char_score_never_misses QFloat "ga" 2 Toy.lexicon_ga 1%Q (1 # 1000)
           Toy.ga_constructed Toy.ga_trained "zz" Hinit Htrain Hne).
Defined.

(** X1 at the toy lexicon of language A, order 2, and its word [ab]. *)
Lemma train_self_consistent_witness :
  exists logp,
    LanguageModel.char_score_debug Toy.ga_trained "ab"
    = Ok (logp, [LanguageModel.Direct; LanguageModel.Direct;
                 LanguageModel.Direct]).
Proof.
  assert (Hinit : @LanguageModel.init QFloat "ga" 2 Toy.lexicon_ga 1%Q
                  = Ok Toy.ga_constructed)
    by (vm_cast_no_check (eq_refl (Ok Toy.ga_constructed))).
  assert (Htrain : @LanguageModel.train QFloat Toy.ga_constructed (1 # 1000)
                   = Ok Toy.ga_trained)
    by (vm_cast_no_check (eq_refl (Ok Toy.ga_trained))).
  apply (@train_self_consistent QFloat "ga" 2 Toy.lexicon_ga 1%Q (1 # 1000)
           Toy.ga_constructed Toy.ga_trained "ab" 10%Z);
    [lia | discriminate | now left | exact Hinit | exact Htrain].
Defined.

(** C7 at the word [zz], absent from both toy lexicons. *)
Lemma score_both_oov_witness :
  exists wg we,
    @score QFloat Toy.q_identifier "zz" = Ok [(GA, wg); (EN, we)].
Proof.
  do 2 eexists.
  eapply (@score_both_oov QFloat Toy.q_identifier "zz");
    [discriminate | vm_compute; reflexivity ..].
Defined.

(** C8 at the token [SeA]. *)
Lemma identify_sea_override_witness :
  lower "SeA" = "sea"%string
  /\ @identify QFloat Toy.q_identifier ["SeA"%string] "independent"
               (78 # 100) (3 # 4)
     = Ok (Some [PyStr GA])
  /\ @identify_fr QFloat Toy.q_identifier ["SeA"%string] "independent"
                  (78 # 100) (3 # 4)
     = Ok (Some [PyStr FR]).
Proof.
  split; [reflexivity|].
  apply (@identify_sea_override QFloat). reflexivity.
Defined.

(** C9 at the method name [greedy]. *)
Lemma identify_unknown_method_witness :
  @identify QFloat Toy.q_identifier ["ab"%string] "greedy" (78 # 100) (3 # 4)
  = Ok None
  /\ @identify_fr QFloat Toy.q_identifier ["ab"%string] "greedy"
                  (78 # 100) (3 # 4)
     = Ok None.
Proof.
  apply (@identify_unknown_method QFloat); try discriminate.
  intros token [= <-]. discriminate.
Defined.

(** X2 at an order-3 model and the empty word. *)
Lemma char_score_no_ngram_witness :
  LanguageModel.word2ngrams "" 3 = []
  /\ LanguageModel.char_score
       (@LanguageModel.Build_t QFloat "ga" 3 [] 1%Q 0%Q [] [] []) ""
     = Raise IndexError.
Proof.
  split; [reflexivity|].
  apply (@char_score_no_ngram QFloat). reflexivity.
Defined.

(** X4 at the trained toy model of language A. *)
Lemma lex_score_total_witness :
  exists oov,
    LanguageModel.lex_score Toy.ga_trained LanguageModel.OOV = Ok oov
    /\ forall word,
         exists v,
           LanguageModel.lex_score Toy.ga_trained word = Ok v
           /\ (mem (if LanguageModel.CASE_SENSITIVITY_THRESHOLD
                       <=? String.length word
                    then lower word else word)
                   (LanguageModel.lex Toy.ga_trained) = false ->
               v = oov).
Proof.
  assert (Hinit : @LanguageModel.init QFloat "ga" 2 Toy.lexicon_ga 1%Q
                  = Ok Toy.ga_constructed)
    by (vm_cast_no_check (eq_refl (Ok Toy.ga_constructed))).
  assert (Htrain : @LanguageModel.train QFloat Toy.ga_constructed (1 # 1000)
                   = Ok Toy.ga_trained)
    by (vm_cast_no_check (eq_refl (Ok Toy.ga_trained))).
  exact (@lex_score_total QFloat "ga" 2 (LanguageModel.dump Toy.ga_trained)
           Toy.lexicon_ga 1%Q (1 # 1000) Toy.ga_constructed Toy.ga_trained
           (or_introl Hinit) (or_intror Htrain)).
Defined.

(** X5 at the trained toy model of language A. *)
Lemma dump_load_roundtrip_witness :
  LanguageModel.load (LanguageModel.dump Toy.ga_trained) Toy.lexicon_ga 1%Q
  = Ok Toy.ga_trained.
Proof.
  assert (Hinit : @LanguageModel.init QFloat "ga" 2 Toy.lexicon_ga 1%Q
                  = Ok Toy.ga_constructed)
    by (vm_cast_no_check (eq_refl (Ok Toy.ga_constructed))).
  assert (Htrain : @LanguageModel.train QFloat Toy.ga_constructed (1 # 1000)
                   = Ok Toy.ga_trained)
    by (vm_cast_no_check (eq_refl (Ok Toy.ga_trained))).
  exact (@dump_load_roundtrip QFloat "ga" 2 Toy.lexicon_ga 1%Q (1 # 1000)
           Toy.ga_constructed Toy.ga_trained Hinit Htrain).
Defined.

(** X7 at the token [ab], with transition probability [0], whose logarithm
    does not exist. *)
Lemma identify_viterbi_single_witness :
  @identify_viterbi QFloat Toy.q_identifier ["ab"%string] 0%Q (3 # 4)
  = Ok [PyStr GA].
Proof.
  eapply eq_trans.
  - eapply (@identify_viterbi_single QFloat Toy.q_identifier "ab" 0%Q (3 # 4));
      vm_compute; reflexivity.
  - vm_compute. reflexivity.
Defined.

(** X8 at the list [1; 3; 3; 2]. *)
Lemma max_argmax_spec_witness :
  exists i v,
    @max_argmax RFloat [1; 3; 3; 2]%R = Ok (i, v)
    /\ nth_error [1; 3; 3; 2]%R i = Some v
    /\ (forall j x, nth_error [1; 3; 3; 2]%R j = Some x -> (x <= v)%R)
    /\ (forall j x, j < i -> nth_error [1; 3; 3; 2]%R j = Some x -> (x < v)%R).
Proof.
  apply (proj2 (max_argmax_spec [1; 3; 3; 2]%R)). discriminate.
Defined.

End Witnesses.

Section LexiconWitnesses.

Import LanguageModel.

(** X16 at the toy lexicon of language A and its word [ab]. *)
Lemma lex_score_above_oov_witness :
  exists (m : @LanguageModel.t RFloat) (v oov : R),
    @init RFloat "ga" 2 Toy.lexicon_ga 1%R = Ok m
    /\ @lex_score RFloat m "ab" = Ok v
    /\ @lex_score RFloat m OOV = Ok oov
    /\ (oov < v)%R.
Proof.
  destruct RToy_constructed as (m & Hm).
  destruct (lex_score_above_oov "ga" 2 (RExample.model_file "ga")
              Toy.lexicon_ga 1%R m "ab" 10%Z Toy_frequencies_ok)
    as (v & oov & H); [now left | lia | discriminate | now left |].
  exists m, v, oov. split; [exact Hm | exact H].
Defined.

End LexiconWitnesses.

Section DependenceWitnesses.

Import LanguageModel.

(** X20 at the trained toy model and the unseen words [zz] and [qq]. *)
Lemma char_score_unknown_words_witness :
  char_score Toy.ga_trained "zz" = char_score Toy.ga_trained "qq".
Proof.
  apply (@char_score_unknown_words QFloat Toy.ga_trained "zz" "qq").
  - vm_compute. reflexivity.
  - intros g Hg.
    assert (Hcases : In g ["<z"; "zz"; "z>"; "<q"; "qq"; "q>"]%string).
    { vm_compute in Hg. vm_compute. tauto. }
    cbn [In] in Hcases.
    destruct Hcases as [<- | [<- | [<- | [<- | [<- | [<- | []]]]]]];
      split; vm_compute; reflexivity.
Defined.

(** X22 at the toy lexicon of language A, order 2, and the key [<a]. *)
Lemma start_prob_keys_witness :
  mem "<a" (start_prob Toy.ga_trained) = true
  <-> "<a"%string = UNKNOWN
      \/ exists word count,
           In (word, count) Toy.lexicon_ga
           /\ "<a"%string = substring 0 2 (START ++ word ++ END).
Proof.
  assert (Hinit : @LanguageModel.init QFloat "ga" 2 Toy.lexicon_ga 1%Q
                  = Ok Toy.ga_constructed)
    by (vm_cast_no_check (eq_refl (Ok Toy.ga_constructed))).
  assert (Htrain : @LanguageModel.train QFloat Toy.ga_constructed (1 # 1000)
                   = Ok Toy.ga_trained)
    by (vm_cast_no_check (eq_refl (Ok Toy.ga_trained))).
  exact (@start_prob_keys QFloat "ga" 2 Toy.lexicon_ga 1%Q (1 # 1000)
           Toy.ga_constructed Toy.ga_trained "<a" Hinit Htrain).
Defined.

End DependenceWitnesses.

Section SafetyWitnesses.

Import LanguageIdentifier.

(** X25 at an identifier of order 3, the tokens [##IGNORE##] and the empty
    token, which yields no trigram. *)
Lemma identify_propagates_score_error_witness :
  @identify QFloat
    (@LanguageIdentifier.Build_t QFloat (1 # 2)
       [(GA, @LanguageModel.Build_t QFloat "ga" 3 [] 1%Q 0%Q [] []
               [(LanguageModel.OOV, 0%Q)]);
        (EN, @LanguageModel.Build_t QFloat "en" 3 [] 1%Q 0%Q [] []
               [(LanguageModel.OOV, 0%Q)])])
    ["##IGNORE##"; ""]%string "viterbi" (78 # 100) (3 # 4)
  = Raise IndexError.
Proof.
  apply (@identify_propagates_score_error QFloat _
           ["##IGNORE##"%string] [] ""%string "viterbi" IndexError
           (78 # 100) (3 # 4)).
  - intros t [<- | []]. eexists. reflexivity.
  - reflexivity.
  - left. discriminate.
  - right. repeat split; vm_compute; discriminate.
Defined.

(** The toy identifier is made as [train.py] and [identify.py] make it. *)
Lemma Toy_identifier_built :
  @LanguageModel.init QFloat "ga" 2 Toy.lexicon_ga 1%Q
  = Ok Toy.ga_constructed
  /\ @LanguageModel.train QFloat Toy.ga_constructed (1 # 1000)
     = Ok Toy.ga_trained
  /\ @LanguageModel.init QFloat "en" 2 Toy.lexicon_en 1%Q
     = Ok (Toy.model_of (@LanguageModel.init QFloat "en" 2 Toy.lexicon_en 1%Q))
  /\ @LanguageModel.train QFloat
       (Toy.model_of (@LanguageModel.init QFloat "en" 2 Toy.lexicon_en 1%Q))
       (1 # 1000)
     = Ok (Toy.model_of (Toy.trained QFloat "en" 2 Toy.lexicon_en (1 # 1000)))
  /\ @LanguageIdentifier.init QFloat
       (LanguageModel.dump Toy.ga_trained)
       (LanguageModel.dump
          (Toy.model_of (Toy.trained QFloat "en" 2 Toy.lexicon_en (1 # 1000))))
       Toy.lexicon_ga Toy.lexicon_en (1 # 2)
     = Ok Toy.q_identifier.
Proof.
  split; [vm_cast_no_check (eq_refl (Ok Toy.ga_constructed))|].
  split; [vm_cast_no_check (eq_refl (Ok Toy.ga_trained))|].
  split;
    [vm_cast_no_check
       (eq_refl (Ok (Toy.model_of
                       (@LanguageModel.init QFloat "en" 2 Toy.lexicon_en
                                            1%Q))))|].
  split;
    [vm_cast_no_check
       (eq_refl (Ok (Toy.model_of
                       (Toy.trained QFloat "en" 2 Toy.lexicon_en
                                    (1 # 1000)))))|].
  vm_cast_no_check (eq_refl (Ok Toy.q_identifier)).
Qed.

(** X26 at the identifier of the two toy lexicons, order 2, and the word
    [zz]. *)
Lemma score_lookups_safe_witness :
  (exists d, @score QFloat Toy.q_identifier "zz" = Ok d)
  \/ (exists err,
        @score QFloat Toy.q_identifier "zz" = Raise err
        /\ arithmetic err = true).
Proof.
  destruct Toy_identifier_built as (Hga & Hga' & Hen & Hen' & Hself).
  apply (@score_lookups_safe QFloat "ga" "en" 2 2
           Toy.lexicon_ga Toy.lexicon_en Toy.lexicon_ga Toy.lexicon_en
           1%Q 1%Q (1 # 1000) (1 # 1000) (1 # 2) _ _ _ _
           Toy.q_identifier "zz" Hga Hga' Hen Hen' Hself);
    discriminate.
Defined.

(** X27 at the same identifier and the tokens [ab xy zz], Viterbi mode, the
    default priors. *)
Lemma identify_lookups_safe_witness :
  (exists languages,
     @identify QFloat Toy.q_identifier ["ab"; "xy"; "zz"]%string "viterbi"
               (78 # 100) (3 # 4)
     = Ok (Some languages))
  \/ (exists err,
        @identify QFloat Toy.q_identifier ["ab"; "xy"; "zz"]%string "viterbi"
                  (78 # 100) (3 # 4)
        = Raise err
        /\ arithmetic err = true).
Proof.
  destruct Toy_identifier_built as (Hga & Hga' & Hen & Hen' & Hself).
  apply (@identify_lookups_safe QFloat "ga" "en" 2 2
           Toy.lexicon_ga Toy.lexicon_en Toy.lexicon_ga Toy.lexicon_en
           1%Q 1%Q (1 # 1000) (1 # 1000) (1 # 2) _ _ _ _
           Toy.q_identifier ["ab"; "xy"; "zz"]%string "viterbi"
           (78 # 100) (3 # 4) Hga Hga' Hen Hen' Hself).
  - discriminate.
  - intros token [<- | [<- | [<- | []]]]; split; discriminate.
  - right. repeat split; vm_compute; discriminate.
Defined.

End SafetyWitnesses.

Section RetrainingWitnesses.

Import LanguageModel.

(** X29 at a model of order 2 with the start entry [zz] and the row [zz],
    trained on the lexicon [ab 1]. *)
Lemma train_keeps_other_entries_witness :
  exists m' : @LanguageModel.t QFloat,
    @train QFloat
      (@LanguageModel.Build_t QFloat "ga" 2 [("ab"%string, 1%Z)] 1%Q 0%Q
         [("zz"%string, 0%Q)] [("zz"%string, [("zy"%string, 0%Q)])] [])
      (1 # 1000)
    = Ok m'
    /\ get (start_prob m') "zz" = Some 0%Q
    /\ get (trans_prob m') "zz" = Some [("zy"%string, 0%Q)].
Proof.
  set (m := @LanguageModel.Build_t QFloat "ga" 2 [("ab"%string, 1%Z)] 1%Q 0%Q
              [("zz"%string, 0%Q)] [("zz"%string, [("zy"%string, 0%Q)])] []).
  assert (Htrain : @train QFloat m (1 # 1000)
                   = Ok (Toy.model_of (@train QFloat m (1 # 1000))))
    by (vm_cast_no_check
          (eq_refl (Ok (Toy.model_of (@train QFloat m (1 # 1000)))))).
  exists (Toy.model_of (@train QFloat m (1 # 1000))).
  split; [exact Htrain|].
  destruct (train_keeps_other_entries _ _ _ Htrain) as [Hstart Htrans].
  split.
  - apply (Hstart "zz"%string); [discriminate|].
    intros word count [[= <- <-] | []]. discriminate.
  - apply (Htrans "zz"%string); [discriminate|].
    intros word count i [[= <- <-] | []] Hi. cbn in Hi.
    destruct i as [|[|i]]; [discriminate | discriminate | lia].
Defined.

End RetrainingWitnesses.

Section ClosedFormWitnesses.

Import LanguageModel.

(** X21 at the toy lexicon of language A. *)
Lemma lexicon_case_folding_witness :
  @load_lexicon QFloat
    (map (fun line => (lexicon_key (fst line), snd line)) Toy.lexicon_ga)
  = @load_lexicon QFloat Toy.lexicon_ga
  /\ (forall (m : @LanguageModel.t QFloat) (word : string),
        is_ascii word = true ->
        lex_score m (lexicon_key word) = lex_score m word)
  /\ (forall (m : @LanguageModel.t QFloat) (word : string),
        is_ascii word = true ->
        CASE_SENSITIVITY_THRESHOLD <= String.length word ->
        lex_score m (lower word) = lex_score m word).
Proof. apply (@lexicon_case_folding QFloat Toy.lexicon_ga). reflexivity. Defined.

(** X23 at the toy lexicon of language A and its word [ab]. *)
Lemma lex_score_closed_form_witness :
  exists v oov : Q,
    @lex_score QFloat Toy.ga_constructed "ab" = Ok v
    /\ @estimate QFloat
         (@counted QFloat (1 # 10) lexicon_key Toy.lexicon_ga "ab")
         (@smoothed QFloat (1 # 10) 15 (length (lex Toy.ga_constructed))) v
    /\ @lex_score QFloat Toy.ga_constructed OOV = Ok oov
    /\ @estimate QFloat (1 # 10)
         (@smoothed QFloat (1 # 10) 15 (length (lex Toy.ga_constructed))) oov.
Proof.
  destruct Toy_identifier_built as (Hga & _).
  apply (@lex_score_closed_form QFloat "ga" 2 (dump Toy.ga_trained)
           Toy.lexicon_ga 1%Q Toy.ga_constructed "ab" 10%Z);
    [reflexivity | reflexivity | left; exact Hga | now left | discriminate].
Defined.

(** X24 at the toy lexicon of language A, order 2, and its word [ab]. *)
Lemma start_prob_closed_form_witness :
  exists v u : Q,
    get (start_prob Toy.ga_trained) "<a" = Some v
    /\ @estimate QFloat
         (@counted QFloat (1 # 1000) (start_ngram 2) Toy.lexicon_ga "<a")
         (@smoothed QFloat (1 # 1000) 15
                    (length (start_prob Toy.ga_trained))) v
    /\ get (start_prob Toy.ga_trained) UNKNOWN = Some u
    /\ @estimate QFloat (1 # 1000)
         (@smoothed QFloat (1 # 1000) 15
                    (length (start_prob Toy.ga_trained))) u.
Proof.
  destruct Toy_identifier_built as (Hga & Hga' & _).
  apply (@start_prob_closed_form QFloat "ga" 2 Toy.lexicon_ga 1%Q (1 # 1000)
           Toy.ga_constructed Toy.ga_trained "ab" 10%Z);
    [reflexivity | reflexivity | reflexivity | exact Hga | exact Hga'
    | now left].
Defined.

(** X28 at the toy lexicon of language A, order 2, and the transition from
    [<a] to [ab] of its word [ab]. *)
Lemma trans_prob_closed_form_witness :
  exists (row : dict Q) (v u : Q),
    get (trans_prob Toy.ga_trained) "<a" = Some row
    /\ get row "ab" = Some v
    /\ @estimate QFloat
         (@pair_counted QFloat (1 # 1000) (transitions 2 Toy.lexicon_ga)
                        "<a" "ab")
         (@smoothed QFloat (1 # 1000) 15 (length row)) v
    /\ get row UNKNOWN = Some u
    /\ @estimate QFloat (1 # 1000)
         (@smoothed QFloat (1 # 1000) 15 (length row)) u.
Proof.
  destruct Toy_identifier_built as (Hga & Hga' & _).
  apply (@trans_prob_closed_form QFloat "ga" 2 Toy.lexicon_ga 1%Q (1 # 1000)
           Toy.ga_constructed Toy.ga_trained "ab" 10%Z 0);
    [reflexivity | reflexivity | reflexivity | lia | exact Hga | exact Hga'
    | now left | cbn; lia].
Defined.

End ClosedFormWitnesses.
